(** * Validation job engine of the Tienda Nube account checker

    A shallow embedding of [server/routes.ts] and [server/storage.ts]:
    the credential-line parser [parseAccountFile], the endpoint resolver
    [discoverTiendaNubeStore], the login prober
    [validateTiendaNubeAccount], the in-memory store [MemStorage] and
    the request handlers together with the drain loop
    [processValidationQueue].

    JavaScript strings are sequences of UTF-16 code units, so a string
    is a [list N]; ECMAScript white space ([trim], [\s]) is the full
    Unicode set.  Time is an integer handed to every event, the network
    is a function from requests to settled responses handed to the event
    that consumes it. *)

From Stdlib Require Import String Ascii DecimalString.
From Stdlib Require Import ZArith NArith Bool Lia List.
From Stdlib Require Import Sorted Permutation.
Import ListNotations.

Set Implicit Arguments.

(* ------------------------------------------------------------------ *)
(** ** JavaScript strings *)
(* ------------------------------------------------------------------ *)

Module JsString.

Definition jsstring := list N.

(** An ASCII literal of the source. *)
Definition lit (s : string) : jsstring :=
  map N_of_ascii (list_ascii_of_string s).
Arguments lit s%_string.

(** [s === t] *)
Fixpoint eqb (s t : jsstring) : bool :=
  match s, t with
  | [], [] => true
  | c :: s', d :: t' => N.eqb c d && eqb s' t'
  | _, _ => false
  end.

(** A string is falsy exactly when it is empty. *)
Definition truthy (s : jsstring) : bool :=
  match s with [] => false | _ :: _ => true end.

(** [s.startsWith(p)] *)
Fixpoint startsWith (s p : jsstring) : bool :=
  match p, s with
  | [], _ => true
  | d :: p', c :: s' => N.eqb c d && startsWith s' p'
  | _ :: _, [] => false
  end.

(** [s.includes(p)] *)
Fixpoint includes (s p : jsstring) : bool :=
  startsWith s p ||
  match s with
  | [] => false
  | _ :: s' => includes s' p
  end.

(** WhiteSpace and LineTerminator code units of ECMAScript. *)
Definition isWhiteSpace (c : N) : bool :=
  ((9 <=? c) && (c <=? 13) || (c =? 32) || (c =? 160) || (c =? 5760)
   || (8192 <=? c) && (c <=? 8202) || (c =? 8232) || (c =? 8233)
   || (c =? 8239) || (c =? 8287) || (c =? 12288) || (c =? 65279))%N.

Fixpoint trimStart (s : jsstring) : jsstring :=
  match s with
  | c :: s' => if isWhiteSpace c then trimStart s' else s
  | [] => []
  end.

Definition trimEnd (s : jsstring) : jsstring := rev (trimStart (rev s)).

(** [s.trim()] *)
Definition trim (s : jsstring) : jsstring := trimEnd (trimStart s).

(** [s.split(sep)] for a string separator.  [cur] holds the piece
    being built, reversed; [skip] counts the code units of a
    separator occurrence that are still to be passed over. *)
Fixpoint splitGo (sep s cur : jsstring) (skip : nat) : list jsstring :=
  match s with
  | [] => [rev cur]
  | c :: s' =>
      match skip with
      | S k => splitGo sep s' cur k
      | O =>
          if startsWith s sep
          then rev cur :: splitGo sep s' [] (length sep - 1)
          else splitGo sep s' (c :: cur) 0
      end
  end.

Definition split (s sep : jsstring) : list jsstring :=
  match sep with
  | [] => map (fun c => [c]) s
  | _ :: _ => splitGo sep s [] 0
  end.

(** [s.replace(p, '')] for a string pattern: the first occurrence of
    [p] is removed. *)
Fixpoint removeFirst (s p : jsstring) : jsstring :=
  if startsWith s p then skipn (length p) s
  else match s with
       | [] => []
       | c :: s' => c :: removeFirst s' p
       end.

(** [String(n)] for an integer. *)
Definition ofZ (n : Z) : jsstring :=
  lit (NilZero.string_of_int (Z.to_int n)).

(** [a || b] on optional strings: [undefined], [null] and [''] are falsy. *)
Definition orElse (a b : option jsstring) : option jsstring :=
  match a with
  | Some (_ :: _) => a
  | _ => b
  end.

(** [!x] on an optional string. *)
Definition falsy (a : option jsstring) : bool :=
  match a with
  | Some (_ :: _) => false
  | _ => true
  end.

End JsString.

Import JsString.

(* ------------------------------------------------------------------ *)
(** ** Regular expressions: a backtracking matcher in the order of
       ECMAScript (leftmost match, alternatives left to right, greedy
       or lazy repetition, one capture group) *)
(* ------------------------------------------------------------------ *)

Module Regex.

Inductive regex : Type :=
| Eps
| Chr (p : N -> bool)
| Seq (a b : regex)
| Alt (a b : regex)
| Star (greedy : bool) (a : regex)
| Group (a : regex)
| AtEnd.

Definition Plus (a : regex) : regex := Seq a (Star true a).
Definition Opt (a : regex) : regex := Alt a Eps.
Definition AtLeast2 (a : regex) : regex := Seq a (Seq a (Star true a)).

Fixpoint Seqs (l : list regex) : regex :=
  match l with
  | [] => Eps
  | [a] => a
  | a :: l' => Seq a (Seqs l')
  end.

(** Character predicates. *)
Definition only (c : N) : N -> bool := fun x => N.eqb x c.
Definition range (lo hi : N) : N -> bool := fun x => (N.leb lo x && N.leb x hi).
Definition oneOf (l : list N) : N -> bool := fun x => existsb (N.eqb x) l.
Definition orP (p q : N -> bool) : N -> bool := fun x => p x || q x.
Definition notP (p : N -> bool) : N -> bool := fun x => negb (p x).

Definition lower : N -> bool := range 97 122.
Definition upper : N -> bool := range 65 90.
Definition digit : N -> bool := range 48 57.
Definition alnum : N -> bool := orP lower (orP upper digit).

(** [.] matches everything but a line terminator. *)
Definition dot : N -> bool := notP (oneOf [10; 13; 8232; 8233]%N).

(** The source characters of a literal, each matched exactly. *)
Definition Lit (s : string) : regex := Seqs (map (fun c => Chr (only c)) (lit s)).
Arguments Lit s%_string.

(** The same under the [i] flag: without the [u] flag an ASCII letter
    matches its two ASCII cases and nothing else. *)
Definition ci (c : N) : N -> bool :=
  if lower c then orP (only c) (only (c - 32))
  else if upper c then orP (only c) (only (c + 32))
  else only c.

Definition LitI (s : string) : regex := Seqs (map (fun c => Chr (ci c)) (lit s)).
Arguments LitI s%_string.

Section Run.
Variable R : Type.

(** [run r s cap k]: match [r] at the head of [s], then continue
    with [k] on the rest of the input and the capture; [None] makes
    the matcher backtrack. *)
Fixpoint run (r : regex) (s : jsstring) (cap : option jsstring)
         (k : jsstring -> option jsstring -> option R) : option R :=
  match r with
  | Eps => k s cap
  | Chr p =>
      match s with
      | c :: s' => if p c then k s' cap else None
      | [] => None
      end
  | Seq a b => run a s cap (fun s' cap' => run b s' cap' k)
  | Alt a b =>
      match run a s cap k with
      | Some x => Some x
      | None => run b s cap k
      end
  | Star greedy a =>
      (fix loop (fuel : nat) (s : jsstring) (cap : option jsstring) : option R :=
         match fuel with
         | O => k s cap
         | S f =>
             let again (_ : unit) :=
               run a s cap
                   (fun s' cap' =>
                      if (length s' <? length s)%nat then loop f s' cap' else None) in
             if greedy
             then match again tt with
                  | Some x => Some x
                  | None => k s cap
                  end
             else match k s cap with
                  | Some x => Some x
                  | None => again tt
                  end
         end) (length s) s cap
  | Group a =>
      run a s cap (fun s' _ => k s' (Some (firstn (length s - length s') s)))
  | AtEnd =>
      match s with
      | [] => k s cap
      | _ :: _ => None
      end
  end.
End Run.

(** A match anchored at the head of [s]: the matched text and the
    text of the capture group. *)
Definition matchAt (r : regex) (s : jsstring) : option (jsstring * option jsstring) :=
  run r s None (fun s' cap => Some (firstn (length s - length s') s, cap)).

(** [s.match(r)] without the [g] flag: the leftmost match. *)
Fixpoint search (r : regex) (s : jsstring) : option (jsstring * option jsstring) :=
  match matchAt r s with
  | Some m => Some m
  | None =>
      match s with
      | [] => None
      | _ :: s' => search r s'
      end
  end.

(** One left-to-right pass of a [g] regex: the code units outside the
    matches ([inl]) and the successive matches ([inr]), in order. *)
Fixpoint scan (r : regex) (s : jsstring) (skip : nat) : list (N + jsstring) :=
  match s with
  | [] =>
      match skip, matchAt r [] with
      | O, Some (m, _) => [inr m]
      | _, _ => []
      end
  | c :: s' =>
      match skip with
      | S k => scan r s' k
      | O =>
          match matchAt r s with
          | Some (m, _) =>
              match length m with
              | O => inr m :: inl c :: scan r s' 0
              | S k => inr m :: scan r s' k
              end
          | None => inl c :: scan r s' 0
          end
      end
  end.

Fixpoint matchesOf (l : list (N + jsstring)) : list jsstring :=
  match l with
  | [] => []
  | inr m :: l' => m :: matchesOf l'
  | inl _ :: l' => matchesOf l'
  end.

Fixpoint outsideOf (l : list (N + jsstring)) : jsstring :=
  match l with
  | [] => []
  | inl c :: l' => c :: outsideOf l'
  | inr _ :: l' => outsideOf l'
  end.

(** [s.match(r)] with the [g] flag; the empty list stands for [null]. *)
Definition matchAll (r : regex) (s : jsstring) : list jsstring :=
  matchesOf (scan r s 0).

(** [s.replace(r, '')] with the [g] flag. *)
Definition removeAll (r : regex) (s : jsstring) : jsstring :=
  outsideOf (scan r s 0).

(** [s.replace(r, '')] without the [g] flag: only the leftmost match
    goes. *)
Fixpoint removeLeftmost (r : regex) (s : jsstring) : jsstring :=
  match matchAt r s with
  | Some (m, _) => skipn (length m) s
  | None =>
      match s with
      | [] => []
      | c :: s' => c :: removeLeftmost r s'
      end
  end.

(** [s.split(r)] for a regex whose matches are never empty: the
    pieces between the successive matches. *)
Fixpoint piecesOf (l : list (N + jsstring)) (cur : jsstring) : list jsstring :=
  match l with
  | [] => [rev cur]
  | inl c :: l' => piecesOf l' (c :: cur)
  | inr _ :: l' => rev cur :: piecesOf l' []
  end.

Definition splitRe (r : regex) (s : jsstring) : list jsstring :=
  piecesOf (scan r s 0) [].

End Regex.

Import Regex.

(* ------------------------------------------------------------------ *)
(** ** The credential-line parser ([parseAccountFile]) *)
(* ------------------------------------------------------------------ *)

Module Parser.

Record ParsedAccount : Type := mkParsed {
  email : jsstring;
  password : jsstring;
  storeUrl : option jsstring
}.

(** [/https?:\/\/[a-zA-Z0-9-]+\.(mitiendanube\.com|nuvemshop\.com\.br|nuvemshop\.com\.ar|nuvemshop\.com\.mx|nuvemshop\.com\.co)/gi] *)
Definition tiendaNubeUrlRegex : regex :=
  Seqs [ LitI "http"; Opt (LitI "s"); LitI "://";
         Plus (Chr (orP alnum (only 45)));
         LitI ".";
         Group (Alt (LitI "mitiendanube.com")
               (Alt (LitI "nuvemshop.com.br")
               (Alt (LitI "nuvemshop.com.ar")
               (Alt (LitI "nuvemshop.com.mx")
                    (LitI "nuvemshop.com.co"))))) ].

(** [/\/$/] *)
Definition trailingSlash : regex := Seq (Lit "/") AtEnd.

(** [/[a-zA-Z0-9._%+-]+@[a-zA-Z0-9.-]+\.[a-zA-Z]{2,}/] *)
Definition emailRegex : regex :=
  Seqs [ Plus (Chr (orP alnum (oneOf [46; 95; 37; 43; 45]%N)));
         Lit "@";
         Plus (Chr (orP alnum (oneOf [46; 45]%N)));
         Lit ".";
         AtLeast2 (Chr (orP lower upper)) ].

(** [/\s+/] *)
Definition whiteSpaces : regex := Plus (Chr isWhiteSpace).

(** [[':', '|', ' ', ',', '\t']] *)
Definition separators : list jsstring :=
  [lit ":"; lit "|"; lit " "; lit ","; [9%N]].

(** [cleanLine.split(sep).map(p => p.trim()).filter(p => p)] *)
Definition partsOf (cleanLine sep : jsstring) : list jsstring :=
  filter truthy (map trim (split cleanLine sep)).

Definition isEmailPart (p : jsstring) : bool := includes p (lit "@").

Definition isPasswordPart (email p : jsstring) : bool :=
  negb (eqb p email) && negb (includes p (lit "http")) && negb (includes p (lit ".com")).

(** The loop [for (const sep of separators)] with its [break]; the
    two last arguments are the variables [email] and [password]. *)
Fixpoint separatorLoop (seps : list jsstring) (cleanLine email password : jsstring)
  : jsstring * jsstring :=
  match seps with
  | [] => (email, password)
  | sep :: rest =>
      if includes cleanLine sep then
        let parts := partsOf cleanLine sep in
        if (2 <=? length parts)%nat then
          match find isEmailPart parts with
          | Some ((_ :: _) as emailPart) =>
              match find (isPasswordPart emailPart) parts with
              | Some ((_ :: _) as passwordPart) => (emailPart, passwordPart)
              | _ => (emailPart, password)
              end
          | _ => (email, password)
          end
        else separatorLoop rest cleanLine email password
      else separatorLoop rest cleanLine email password
  end.

(** [cleanLine.replace(email, '').trim().split(/\s+/)[0] || ''] *)
Definition restOfLine (cleanLine email : jsstring) : jsstring :=
  match splitRe whiteSpaces (trim (removeFirst cleanLine email)) with
  | p :: _ => p
  | [] => []
  end.

(** The first part of the body of [for (const line of lines)]: the
    variables [email], [password] and [storeUrl] before the final test. *)
Definition recover (line : jsstring) : jsstring * jsstring * jsstring :=
  let storeUrl :=
    match matchAll tiendaNubeUrlRegex line with
    | m :: _ => removeLeftmost trailingSlash m
    | [] => []
    end in
  let cleanLine := trim (removeAll tiendaNubeUrlRegex line) in
  let '(email, password) := separatorLoop separators cleanLine [] [] in
  let '(email, password) :=
    if negb (truthy email) || negb (truthy password) then
      match search emailRegex cleanLine with
      | Some (m, _) => (m, restOfLine cleanLine m)
      | None => (email, password)
      end
    else (email, password) in
  (email, password, storeUrl).

(** [email && password && email.includes('@')] *)
Definition accepted (email password : jsstring) : bool :=
  truthy email && truthy password && includes email (lit "@").

(** The whole body: [accounts] after the iteration on [line]. *)
Definition parseLine (accounts : list ParsedAccount) (line : jsstring)
  : list ParsedAccount :=
  let '(email, password, storeUrl) := recover line in
  if accepted email password then
    accounts ++ [mkParsed email password
                          (if truthy storeUrl then Some storeUrl else None)]
  else accounts.

(** [content.split('\n').filter(line => line.trim())] *)
Definition linesOf (content : jsstring) : list jsstring :=
  filter (fun line => truthy (trim line)) (split content [10%N]).

Definition parseAccountFile (content : jsstring) : list ParsedAccount :=
  fold_left parseLine (linesOf content) [].

End Parser.

(* ------------------------------------------------------------------ *)
(** ** The network as the prober sees it *)
(* ------------------------------------------------------------------ *)

Module Net.

(** A promise once settled. *)
Inductive Settled (A : Type) : Type :=
| Fulfilled (a : A)
| Rejected (message : jsstring).
Arguments Fulfilled {A} a.
Arguments Rejected {A} message.

Inductive Method : Type := GET | POST | HEAD.

Record Request : Type := mkRequest {
  method : Method;
  url : jsstring;
  headers : list (jsstring * jsstring);
  body : list (jsstring * jsstring);     (* the URLSearchParams entries *)
  redirectManual : bool;
  timeout : option Z
}.

Record Response : Type := mkResponse {
  status : Z;
  text : Settled jsstring;               (* [await response.text()] *)
  setCookie : option jsstring;           (* [headers.get('set-cookie')] *)
  location : option jsstring             (* [headers.get('location')] *)
}.

(** [response.ok] *)
Definition ok (r : Response) : bool := (200 <=? status r)%Z && (status r <=? 299)%Z.

Definition Fetch : Type := Request -> Settled Response.

End Net.

Import Net.

(* ------------------------------------------------------------------ *)
(** ** The endpoint resolver and the login prober *)
(* ------------------------------------------------------------------ *)

Module Prober.

Record Result : Type := mkResult {
  valid : bool;
  storeUrl : option jsstring;
  error : option jsstring
}.

Record Discovery : Type := mkDiscovery {
  success : bool;
  foundUrl : option jsstring;            (* the field [storeUrl] *)
  notFound : option jsstring             (* the field [error] *)
}.

(** The accented letters of the messages. *)
Definition a' : jsstring := [225%N].
Definition n' : jsstring := [241%N].
Definition o' : jsstring := [243%N].

Definition noStoreFound : jsstring :=
  lit "No se encontr" ++ o' ++ lit " tienda asociada al email".
Definition noLoginPage : jsstring :=
  lit "No se pudo acceder a la p" ++ a' ++ lit "gina de login".
Definition badCredentials : jsstring := lit "Credenciales incorrectas".
Definition notVerified : jsstring :=
  lit "No se pudo verificar el acceso al dashboard".
Definition connectionError (message : jsstring) : jsstring :=
  lit "Error de conexi" ++ o' ++ lit "n: " ++ message.

Definition userAgent : jsstring :=
  lit "Mozilla/5.0 (Windows NT 10.0; Win64; x64) AppleWebKit/537.36 (KHTML, like Gecko) Chrome/91.0.4472.124 Safari/537.36".
Definition accept : jsstring :=
  lit "text/html,application/xhtml+xml,application/xml;q=0.9,image/webp,*/*;q=0.8".
Definition acceptLanguage : jsstring := lit "es-ES,es;q=0.8,en-US;q=0.5,en;q=0.3".

Definition commonDomains : list jsstring :=
  [ lit ".mitiendanube.com";
    lit ".nuvemshop.com.br";
    lit ".nuvemshop.com.ar";
    lit ".nuvemshop.com.mx";
    lit ".nuvemshop.com.co" ].

(** The double quote and the classes built on it. *)
Definition Q : regex := Chr (only 34).
Definition notQs : regex := Star true (Chr (notP (only 34))).
Definition notGts : regex := Star true (Chr (notP (only 62))).
Definition spaces : regex := Star true (Chr isWhiteSpace).
Definition lazyAny : regex := Star false (Chr dot).
Definition value : regex := Seqs [Lit "value="; Q; Group notQs; Q].

(** The ten patterns tried on the login page, in order. *)
Definition csrfPatterns : list regex :=
  [ Seqs [Lit "name="; Q; Lit "authenticity_token"; Q; notGts; value];
    Seqs [Lit "name="; Q; Lit "_token"; Q; notGts; value];
    Seqs [Lit "csrf-token"; Q; notGts; Lit "content="; Q; Group notQs; Q];
    Seqs [Q; Lit "_token"; Q; Lit ":"; Q; Group notQs; Q];
    Seqs [Lit "window.csrf_token"; spaces; Lit "="; spaces; Q; Group notQs; Q];
    Seqs [Lit "data-csrf="; Q; Group notQs; Q];
    Seqs [Lit "csrfToken:"; spaces; Q; Group notQs; Q];
    Seqs [Lit "csrf_token"; lazyAny; value];
    Seqs [Lit "authenticity_token"; lazyAny; value];
    Seqs [Lit "_token"; lazyAny; value] ].

(** [html.match(p1) || html.match(p2) || ... || ['', '']] *)
Fixpoint csrfMatch (patterns : list regex) (html : jsstring)
  : jsstring * option jsstring :=
  match patterns with
  | [] => ([], Some [])
  | p :: rest =>
      match search p html with
      | Some m => m
      | None => csrfMatch rest html
      end
  end.

(** [csrfMatch[1] || ''] *)
Definition csrfTokenOf (html : jsstring) : jsstring :=
  match snd (csrfMatch csrfPatterns html) with
  | Some t => t
  | None => []
  end.

Definition anyIncluded (s : jsstring) (markers : list jsstring) : bool :=
  existsb (includes s) markers.

(** The markers of the classification, in the order of the source. *)
Definition successMarkers : list jsstring :=
  [ lit "dashboard"; lit "admin-panel"; lit "Cerrar sesi" ++ o' ++ lit "n";
    lit "Log out"; lit "Mi tienda"; lit "Panel de control" ].
Definition failureMarkers : list jsstring :=
  [ lit "contrase" ++ n' ++ lit "a incorrecta"; lit "invalid"; lit "error";
    lit "incorrecto" ].

(** The test on a redirect of the login submission. *)
Definition redirectsToDashboard (location : jsstring) : bool :=
  includes location (lit "/admin") &&
  (includes location (lit "dashboard") ||
   includes location (lit "home") ||
   includes location (lit "panel") ||
   negb (includes location (lit "login"))).

(** What follows the login submission: the outcome from the status,
    the [Location] header and the body. *)
Definition classify (storeUrl : jsstring) (status : Z) (location responseText : jsstring)
  : Result :=
  if ((status =? 302)%Z || (status =? 301)%Z) && redirectsToDashboard location
  then mkResult true (Some storeUrl) None
  else if anyIncluded responseText successMarkers
  then mkResult true (Some storeUrl) None
  else if anyIncluded responseText failureMarkers
  then mkResult false None (Some badCredentials)
  else mkResult false None (Some notVerified).

Section WithNetwork.
Variable fetch : Fetch.

Definition headRequest (potentialUrl : jsstring) : Request :=
  mkRequest HEAD potentialUrl [] [] false (Some 5000%Z).

Fixpoint discoverLoop (username : jsstring) (domains : list jsstring) : Discovery :=
  match domains with
  | [] => mkDiscovery false None (Some (lit "Tienda no encontrada"))
  | domain :: rest =>
      let potentialUrl := lit "https://" ++ username ++ domain in
      match fetch (headRequest potentialUrl) with
      | Fulfilled response =>
          if (status response =? 200)%Z
          then mkDiscovery true (Some potentialUrl) None
          else discoverLoop username rest
      | Rejected _ => discoverLoop username rest
      end
  end.

Definition discoverTiendaNubeStore (email : jsstring) : Discovery :=
  let username := hd [] (split email (lit "@")) in
  discoverLoop username commonDomains.

Definition loginPageRequest (loginPageUrl : jsstring) : Request :=
  mkRequest GET loginPageUrl
    [ (lit "User-Agent", userAgent);
      (lit "Accept", accept);
      (lit "Accept-Language", acceptLanguage);
      (lit "Accept-Encoding", lit "gzip, deflate, br");
      (lit "Connection", lit "keep-alive");
      (lit "Upgrade-Insecure-Requests", lit "1") ]
    [] false None.

Definition formData (email password csrfToken : jsstring) : list (jsstring * jsstring) :=
  [(lit "email", email); (lit "password", password)] ++
  (if truthy csrfToken
   then [(lit "authenticity_token", csrfToken); (lit "_token", csrfToken)]
   else []).

Definition loginRequest (loginPageUrl cookies : jsstring)
           (form : list (jsstring * jsstring)) : Request :=
  mkRequest POST loginPageUrl
    [ (lit "Content-Type", lit "application/x-www-form-urlencoded");
      (lit "User-Agent", userAgent);
      (lit "Accept", accept);
      (lit "Accept-Language", acceptLanguage);
      (lit "Referer", loginPageUrl);
      (lit "Cookie", cookies);
      (lit "Connection", lit "keep-alive");
      (lit "Upgrade-Insecure-Requests", lit "1") ]
    form true None.

Definition orEmpty (h : option jsstring) : jsstring :=
  match h with
  | Some ((_ :: _) as v) => v
  | _ => []
  end.

(** The [try] block from the login page on, for a known endpoint. *)
Definition login (email password storeUrl : jsstring) : Settled Result :=
  let loginPageUrl := storeUrl ++ lit "/admin/login" in
  match fetch (loginPageRequest loginPageUrl) with
  | Rejected message => Rejected message
  | Fulfilled loginPageResponse =>
      if negb (ok loginPageResponse)
      then Fulfilled (mkResult false None (Some noLoginPage))
      else
        match text loginPageResponse with
        | Rejected message => Rejected message
        | Fulfilled loginPageHtml =>
            let cookies := orEmpty (setCookie loginPageResponse) in
            let csrfToken := csrfTokenOf loginPageHtml in
            let form := formData email password csrfToken in
            match fetch (loginRequest loginPageUrl cookies form) with
            | Rejected message => Rejected message
            | Fulfilled loginResponse =>
                match text loginResponse with
                | Rejected message => Rejected message
                | Fulfilled responseText =>
                    Fulfilled (classify storeUrl (status loginResponse)
                                        (orEmpty (location loginResponse))
                                        responseText)
                end
            end
        end
  end.

(** The endpoint the attempt goes to: the stored one, or else the
    one the resolver finds; [None] when it finds none. *)
Definition resolve (email : jsstring) (storeUrl : option jsstring)
  : option jsstring :=
  if falsy storeUrl then
    let discoveryResult := discoverTiendaNubeStore email in
    if negb (success discoveryResult) then None
    else Some (orEmpty (foundUrl discoveryResult))
  else Some (orEmpty storeUrl).

(** The whole [try] block. *)
Definition attempt (email password : jsstring) (storeUrl : option jsstring)
  : Settled Result :=
  match resolve email storeUrl with
  | None => Fulfilled (mkResult false None (Some noStoreFound))
  | Some storeUrl => login email password storeUrl
  end.

(** [try { ... } catch (error) { ... }] *)
Definition validateTiendaNubeAccount (email password : jsstring)
           (storeUrl : option jsstring) : Result :=
  match attempt email password storeUrl with
  | Fulfilled result => result
  | Rejected message => mkResult false None (Some (connectionError message))
  end.

(** How the promise of a call settles, for the caller that awaits it:
    the function is [async] and its body is the [try] with its
    [catch]; the promise is rejected only by what gets out of them. *)
Definition settled (email password : jsstring) (storeUrl : option jsstring)
  : Settled Result :=
  match attempt email password storeUrl with
  | Fulfilled result => Fulfilled result
  | Rejected message =>
      Fulfilled (mkResult false None (Some (connectionError message)))
  end.

End WithNetwork.

End Prober.

(* ------------------------------------------------------------------ *)
(** ** The data model ([shared/schema.ts]) *)
(* ------------------------------------------------------------------ *)

Module AccountStatus.
Inductive t : Type := pending | valid | invalid | error.
Definition eqb (a b : t) : bool :=
  match a, b with
  | pending, pending | valid, valid | invalid, invalid | error, error => true
  | _, _ => false
  end.
End AccountStatus.

Module JobStatus.
Inductive t : Type := idle | running | paused | stopped | completed.
Definition eqb (a b : t) : bool :=
  match a, b with
  | idle, idle | running, running | paused, paused
  | stopped, stopped | completed, completed => true
  | _, _ => false
  end.
End JobStatus.

Module FileStatus.
Inductive t : Type := pending | processing | processed | error.
End FileStatus.

Module Level.
Inductive t : Type := info | success | warn | error | debug.
End Level.

(** [validationSettingsSchema], once parsed. *)
Record Settings : Type := mkSettings {
  concurrentThreads : Z;
  timeoutSeconds : Z;
  retries : Z
}.

Module File.
Record t : Type := mk {
  id : Z;
  name : jsstring;
  size : Z;
  lineCount : Z;
  status : FileStatus.t;
  uploadedAt : option Z
}.
End File.

Module Account.
Record t : Type := mk {
  id : Z;
  fileId : option Z;
  email : jsstring;
  password : jsstring;
  storeUrl : option jsstring;
  status : AccountStatus.t;
  errorMessage : option jsstring;
  validatedAt : option Z
}.
End Account.

Module Job.
Record t : Type := mk {
  id : Z;
  status : JobStatus.t;
  settings : Settings;
  totalAccounts : Z;
  processedAccounts : Z;
  validAccounts : Z;
  invalidAccounts : Z;
  errorAccounts : Z;
  startedAt : option Z;
  pausedAt : option Z;
  completedAt : option Z
}.
End Job.

Module Log.
Record t : Type := mk {
  id : Z;
  level : Level.t;
  message : jsstring;
  timestamp : option Z
}.
End Log.

(* ------------------------------------------------------------------ *)
(** ** [Map<number, V>]: keys in insertion order *)
(* ------------------------------------------------------------------ *)

Module JsMap.
Section Map.
Variable V : Type.

Definition t : Type := list (Z * V).

Fixpoint get (m : t) (k : Z) : option V :=
  match m with
  | [] => None
  | (k', v) :: m' => if (k' =? k)%Z then Some v else get m' k
  end.

(** An existing key keeps its place, a new one goes last. *)
Fixpoint set (m : t) (k : Z) (v : V) : t :=
  match m with
  | [] => [(k, v)]
  | (k', v') :: m' =>
      if (k' =? k)%Z then (k, v) :: m' else (k', v') :: set m' k v
  end.

Definition delete (m : t) (k : Z) : t :=
  filter (fun kv => negb (fst kv =? k)%Z) m.

(** [Array.from(m.values())] *)
Definition values (m : t) : list V := map snd m.
End Map.
End JsMap.

(* ------------------------------------------------------------------ *)
(** ** The store ([MemStorage]) *)
(* ------------------------------------------------------------------ *)

Module Storage.

Record MemStorage : Type := mkStorage {
  files : JsMap.t File.t;
  accounts : JsMap.t Account.t;
  jobs : JsMap.t Job.t;
  logs : JsMap.t Log.t;
  currentFileId : Z;
  currentAccountId : Z;
  currentJobId : Z;
  currentLogId : Z
}.

Definition empty : MemStorage := mkStorage [] [] [] [] 1 1 1 1.

Definition withFiles (st : MemStorage) (m : JsMap.t File.t) (next : Z) : MemStorage :=
  mkStorage m (accounts st) (jobs st) (logs st)
            next (currentAccountId st) (currentJobId st) (currentLogId st).
Definition withAccounts (st : MemStorage) (m : JsMap.t Account.t) (next : Z) : MemStorage :=
  mkStorage (files st) m (jobs st) (logs st)
            (currentFileId st) next (currentJobId st) (currentLogId st).
Definition withJobs (st : MemStorage) (m : JsMap.t Job.t) (next : Z) : MemStorage :=
  mkStorage (files st) (accounts st) m (logs st)
            (currentFileId st) (currentAccountId st) next (currentLogId st).
Definition withLogs (st : MemStorage) (m : JsMap.t Log.t) (next : Z) : MemStorage :=
  mkStorage (files st) (accounts st) (jobs st) m
            (currentFileId st) (currentAccountId st) (currentJobId st) next.

(** What the callers hand to [createFile], [createAccount] and
    [createValidationJob]. *)
Record InsertFile : Type := mkInsertFile {
  if_name : jsstring; if_size : Z; if_lineCount : Z; if_status : FileStatus.t
}.
Record InsertAccount : Type := mkInsertAccount {
  ia_fileId : option Z; ia_email : jsstring; ia_password : jsstring;
  ia_storeUrl : option jsstring; ia_status : AccountStatus.t;
  ia_errorMessage : option jsstring
}.
Record InsertJob : Type := mkInsertJob {
  ij_status : JobStatus.t; ij_settings : Settings; ij_totalAccounts : Z;
  ij_processedAccounts : Z; ij_validAccounts : Z; ij_invalidAccounts : Z;
  ij_errorAccounts : Z
}.

Definition createFile (now : Z) (insertFile : InsertFile) (st : MemStorage)
  : MemStorage * File.t :=
  let file := File.mk (currentFileId st) (if_name insertFile) (if_size insertFile)
                      (if_lineCount insertFile) (if_status insertFile) (Some now) in
  (withFiles st (JsMap.set (files st) (File.id file) file) (currentFileId st + 1), file).

(** [account.fileId === id] *)
Definition ofFile (id : Z) (account : Account.t) : bool :=
  match Account.fileId account with
  | Some f => (f =? id)%Z
  | None => false
  end.

Definition deleteFile (id : Z) (st : MemStorage) : MemStorage :=
  let st := withFiles st (JsMap.delete (files st) id) (currentFileId st) in
  let accountsToDelete :=
    map fst (filter (fun kv => ofFile id (snd kv)) (accounts st)) in
  withAccounts st
    (fold_left (fun m accountId => JsMap.delete m accountId) accountsToDelete (accounts st))
    (currentAccountId st).

(** [x || null] on an optional number and on an optional string. *)
Definition orNullZ (x : option Z) : option Z :=
  match x with
  | Some 0%Z => None
  | _ => x
  end.
Definition orNull (x : option jsstring) : option jsstring := orElse x None.

Definition createAccount (insertAccount : InsertAccount) (st : MemStorage)
  : MemStorage * Account.t :=
  let account :=
    Account.mk (currentAccountId st)
               (orNullZ (ia_fileId insertAccount))
               (ia_email insertAccount)
               (ia_password insertAccount)
               (orNull (ia_storeUrl insertAccount))
               (ia_status insertAccount)
               (orNull (ia_errorMessage insertAccount))
               None in
  (withAccounts st (JsMap.set (accounts st) (Account.id account) account)
                (currentAccountId st + 1),
   account).

Fixpoint createAccountsBatch (insertAccounts : list InsertAccount) (st : MemStorage)
  : MemStorage * list Account.t :=
  match insertAccounts with
  | [] => (st, [])
  | insertAccount :: rest =>
      let '(st, account) := createAccount insertAccount st in
      let '(st, created) := createAccountsBatch rest st in
      (st, account :: created)
  end.

Definition getAllAccounts (st : MemStorage) : list Account.t :=
  JsMap.values (accounts st).

Definition updateAccountStatus (now : Z) (id : Z) (status : AccountStatus.t)
           (storeUrl errorMessage : option jsstring) (st : MemStorage) : MemStorage :=
  match JsMap.get (accounts st) id with
  | Some account =>
      withAccounts st
        (JsMap.set (accounts st) id
           (Account.mk (Account.id account)
                       (Account.fileId account)
                       (Account.email account)
                       (Account.password account)
                       (orElse storeUrl (Account.storeUrl account))
                       status
                       (orElse errorMessage (Account.errorMessage account))
                       (Some now)))
        (currentAccountId st)
  | None => st
  end.

Definition getAccountsByStatus (status : AccountStatus.t) (st : MemStorage)
  : list Account.t :=
  filter (fun account => AccountStatus.eqb (Account.status account) status)
         (JsMap.values (accounts st)).

Definition createValidationJob (insertJob : InsertJob) (st : MemStorage)
  : MemStorage * Job.t :=
  let job :=
    Job.mk (currentJobId st) (ij_status insertJob) (ij_settings insertJob)
           (ij_totalAccounts insertJob) (ij_processedAccounts insertJob)
           (ij_validAccounts insertJob) (ij_invalidAccounts insertJob)
           (ij_errorAccounts insertJob) None None None in
  (withJobs st (JsMap.set (jobs st) (Job.id job) job) (currentJobId st + 1), job).

Definition isActive (job : Job.t) : bool :=
  match Job.status job with
  | JobStatus.running | JobStatus.paused => true
  | _ => false
  end.

(** [jobs.find(active) || jobs[jobs.length - 1]] *)
Definition getCurrentJob (st : MemStorage) : option Job.t :=
  let all := JsMap.values (jobs st) in
  match find isActive all with
  | Some job => Some job
  | None => nth_error all (length all - 1)
  end.

Definition updateJobStatus (now : Z) (id : Z) (status : JobStatus.t) (st : MemStorage)
  : MemStorage :=
  match JsMap.get (jobs st) id with
  | Some job =>
      let stamped (startedAt pausedAt completedAt : option Z) :=
        Job.mk (Job.id job) status (Job.settings job) (Job.totalAccounts job)
               (Job.processedAccounts job) (Job.validAccounts job)
               (Job.invalidAccounts job) (Job.errorAccounts job)
               startedAt pausedAt completedAt in
      let updatedJob :=
        match status with
        | JobStatus.running => stamped (Some now) None (Job.completedAt job)
        | JobStatus.paused => stamped (Job.startedAt job) (Some now) (Job.completedAt job)
        | JobStatus.stopped | JobStatus.completed =>
            stamped (Job.startedAt job) (Job.pausedAt job) (Some now)
        | JobStatus.idle => stamped (Job.startedAt job) (Job.pausedAt job) (Job.completedAt job)
        end in
      withJobs st (JsMap.set (jobs st) id updatedJob) (currentJobId st)
  | None => st
  end.

Definition updateJobProgress (id processed valid invalid errors : Z) (st : MemStorage)
  : MemStorage :=
  match JsMap.get (jobs st) id with
  | Some job =>
      withJobs st
        (JsMap.set (jobs st) id
           (Job.mk (Job.id job) (Job.status job) (Job.settings job)
                   (Job.totalAccounts job) processed valid invalid errors
                   (Job.startedAt job) (Job.pausedAt job) (Job.completedAt job)))
        (currentJobId st)
  | None => st
  end.

Definition addLog (now : Z) (level : Level.t) (message : jsstring) (st : MemStorage)
  : MemStorage :=
  let log := Log.mk (currentLogId st) level message (Some now) in
  withLogs st (JsMap.set (logs st) (Log.id log) log) (currentLogId st + 1).

Definition clearLogs (st : MemStorage) : MemStorage :=
  withLogs st [] (currentLogId st).

End Storage.

(* ------------------------------------------------------------------ *)
(** ** The engine: request handlers and the drain loop

    The server is single-threaded: a handler, or a stretch of
    [processValidationQueue] between two waits on the network, runs to
    its end before anything else does.  An [Event] is one such stretch;
    the waits of a batch are the pending attempts of [cycle]. *)
(* ------------------------------------------------------------------ *)

Module Engine.

Import Storage.

(** An element of [validationQueue]. *)
Record QueueItem : Type := mkItem {
  id : Z;
  email : jsstring;
  password : jsstring
}.

(** A batch whose attempts are on the network: the job read when the
    cycle began and, for each attempt not settled yet, the queue item
    with the endpoint stored for it. *)
Record Cycle : Type := mkCycle {
  currentJob : Job.t;
  waiting : list (QueueItem * option jsstring)
}.

(** What [broadcast] is called with. *)
Inductive Broadcast : Type :=
| progress (processed valid invalid errors total : Z)
| jobCompleted.

Record Server : Type := mkServer {
  storage : MemStorage;
  validationQueue : list QueueItem;
  isValidating : bool;
  validationSettings : Settings;
  cycle : option Cycle;
  timers : nat;                          (* pending [setTimeout]s *)
  sent : list Broadcast
}.

Definition initial : Server :=
  mkServer Storage.empty [] false (mkSettings 10 30 3) None 0 [].

Definition withStorage (sv : Server) (st : MemStorage) : Server :=
  mkServer st (validationQueue sv) (isValidating sv) (validationSettings sv)
           (cycle sv) (timers sv) (sent sv).

(** The answer of a handler: the status code and the [message] of the
    JSON body. *)
Record Reply : Type := mkReply {
  code : Z;
  message : jsstring
}.

Definition validacion : jsstring := lit "validaci" ++ Prober.o' ++ lit "n".
Definition Validacion : jsstring := lit "Validaci" ++ Prober.o' ++ lit "n".

Definition countWhere (p : Account.t -> bool) (l : list Account.t) : Z :=
  Z.of_nat (length (filter p l)).

Definition hasStatus (s : AccountStatus.t) (a : Account.t) : bool :=
  AccountStatus.eqb (Account.status a) s.

Definition isRunning (job : Job.t) : bool :=
  JobStatus.eqb (Job.status job) JobStatus.running.

(** The end of a cycle, after [await Promise.all(promises)]. *)
Definition finishCycle (now : Z) (job : Job.t) (sv : Server) : Server :=
  let allAccounts := getAllAccounts (storage sv) in
  let processed := countWhere (fun a => negb (hasStatus AccountStatus.pending a)) allAccounts in
  let valid := countWhere (hasStatus AccountStatus.valid) allAccounts in
  let invalid := countWhere (hasStatus AccountStatus.invalid) allAccounts in
  let errors := countWhere (hasStatus AccountStatus.error) allAccounts in
  let st := updateJobProgress (Job.id job) processed valid invalid errors (storage sv) in
  let sent1 := sent sv ++ [progress processed valid invalid errors
                                    (Z.of_nat (length allAccounts))] in
  let queue := validationQueue sv in
  let settings := validationSettings sv in
  match getCurrentJob st with
  | Some updatedJob =>
      if isRunning updatedJob && (0 <? length queue)%nat then
        mkServer st queue false settings None (S (timers sv)) sent1
      else if (length queue =? 0)%nat then
        mkServer (updateJobStatus now (Job.id updatedJob) JobStatus.completed st)
                 queue false settings None (timers sv) (sent1 ++ [jobCompleted])
      else mkServer st queue false settings None (timers sv) sent1
  | None => mkServer st queue false settings None (timers sv) sent1
  end.

(** [Promise.all] is settled once no attempt is left. *)
Definition awaitBatch (now : Z) (sv : Server) : Server :=
  match cycle sv with
  | Some (mkCycle job []) => finishCycle now job sv
  | _ => sv
  end.

(** [fullAccount?.storeUrl || undefined] *)
Definition storedUrl (st : MemStorage) (account : QueueItem) : option jsstring :=
  match find (fun a => (Account.id a =? id account)%Z) (getAllAccounts st) with
  | Some fullAccount => orElse (Account.storeUrl fullAccount) None
  | None => None
  end.

(** [processValidationQueue] up to the first wait on the network. *)
Definition processValidationQueue (now : Z) (sv : Server) : Server :=
  if isValidating sv || (length (validationQueue sv) =? 0)%nat then sv
  else
    match getCurrentJob (storage sv) with
    | Some job =>
        if isRunning job then
          let batchSize :=
            Z.min (concurrentThreads (validationSettings sv))
                  (Z.of_nat (length (validationQueue sv))) in
          let batch := firstn (Z.to_nat batchSize) (validationQueue sv) in
          let queue := skipn (Z.to_nat batchSize) (validationQueue sv) in
          let st :=
            fold_left
              (fun st account =>
                 addLog now Level.info (lit "Validando " ++ email account ++ lit "...") st)
              batch (storage sv) in
          let attempts := map (fun account => (account, storedUrl st account)) batch in
          awaitBatch now
            (mkServer st queue true (validationSettings sv)
                      (Some (mkCycle job attempts)) (timers sv) (sent sv))
        else sv
    | None => sv
    end.

(** The first attempt of the batch for account [accountId], and the others. *)
Fixpoint take (accountId : Z) (l : list (QueueItem * option jsstring))
  : option ((QueueItem * option jsstring) * list (QueueItem * option jsstring)) :=
  match l with
  | [] => None
  | x :: l' =>
      if (id (fst x) =? accountId)%Z then Some (x, l')
      else match take accountId l' with
           | Some (y, rest) => Some (y, x :: rest)
           | None => None
           end
  end.

(** [`${result.error}`] *)
Definition shown (e : option jsstring) : jsstring :=
  match e with
  | Some m => m
  | None => lit "undefined"
  end.

(** What the batch body writes once the prober has returned. *)
Definition record (now : Z) (account : QueueItem) (result : Prober.Result)
           (st : MemStorage) : MemStorage :=
  if Prober.valid result then
    addLog now Level.success (lit "Login exitoso para " ++ email account)
      (updateAccountStatus now (id account) AccountStatus.valid
                           (Prober.storeUrl result) None st)
  else
    addLog now Level.error (shown (Prober.error result) ++ lit " para " ++ email account)
      (updateAccountStatus now (id account) AccountStatus.invalid
                           None (Prober.error result) st).

(** The [catch] of the batch body. *)
Definition caught (now : Z) (account : QueueItem) (st : MemStorage) : MemStorage :=
  addLog now Level.error (lit "Error interno validando " ++ email account)
    (updateAccountStatus now (id account) AccountStatus.error
                         None (Some (lit "Error interno")) st).

(** The batch body from the [await] of the prober on: [outcome] is how
    the promise of the prober settled. *)
Definition attempted (now : Z) (account : QueueItem)
           (outcome : Settled Prober.Result) (st : MemStorage) : MemStorage :=
  match outcome with
  | Fulfilled result => record now account result st
  | Rejected _ => caught now account st
  end.

(** The attempt for [accountId] comes back from the network, which
    answered as [fetch] says; the last one to come back ends the cycle. *)
Definition settle (now : Z) (fetch : Fetch) (accountId : Z) (sv : Server)
  : option Server :=
  match cycle sv with
  | Some c =>
      match take accountId (waiting c) with
      | Some ((account, storeUrl), rest) =>
          let outcome :=
            Prober.settled fetch (email account) (password account) storeUrl in
          Some (awaitBatch now
                  (mkServer (attempted now account outcome (storage sv))
                            (validationQueue sv) (isValidating sv)
                            (validationSettings sv)
                            (Some (mkCycle (currentJob c) rest))
                            (timers sv) (sent sv)))
      | None => None
      end
  | None => None
  end.

(** The body of the start request before [validationSettingsSchema]. *)
Record RawSettings : Type := mkRaw {
  rawThreads : option Z;
  rawTimeout : option Z;
  rawRetries : option Z
}.

Definition bounded (lo hi default : Z) (x : option Z) : option Z :=
  match x with
  | None => Some default
  | Some v => if (lo <=? v)%Z && (v <=? hi)%Z then Some v else None
  end.

(** [validationSettingsSchema.parse]; [None] when it throws. *)
Definition parseSettings (body : RawSettings) : option Settings :=
  match bounded 1 100 10 (rawThreads body),
        bounded 5 120 30 (rawTimeout body),
        bounded 0 10 3 (rawRetries body) with
  | Some c, Some t, Some r => Some (mkSettings c t r)
  | _, _, _ => None
  end.

Definition queueItemOf (account : Account.t) : QueueItem :=
  mkItem (Account.id account) (Account.email account) (Account.password account).

(** [POST /api/validation/start] *)
Definition start (now : Z) (body : RawSettings) (sv : Server) : Server * Reply :=
  match parseSettings body with
  | None => (sv, mkReply 500 (lit "Error iniciando " ++ validacion))
  | Some settings =>
      let sv := mkServer (storage sv) (validationQueue sv) (isValidating sv) settings
                         (cycle sv) (timers sv) (sent sv) in
      let allAccounts := getAllAccounts (storage sv) in
      let pendingAccounts := filter (hasStatus AccountStatus.pending) allAccounts in
      if (length pendingAccounts =? 0)%nat then
        (sv, mkReply 400 (lit "No hay cuentas pendientes para validar"))
      else
        let '(st, job) :=
          createValidationJob
            (mkInsertJob JobStatus.running settings
                         (Z.of_nat (length pendingAccounts)) 0 0 0 0)
            (storage sv) in
        let st := updateJobStatus now (Job.id job) JobStatus.running st in
        let queue := map queueItemOf pendingAccounts in
        let st :=
          addLog now Level.info
                 (lit "Iniciando " ++ validacion ++ lit " de "
                  ++ ofZ (Z.of_nat (length pendingAccounts))
                  ++ lit " cuentas con " ++ ofZ (concurrentThreads settings)
                  ++ lit " hilos") st in
        (processValidationQueue now
           (mkServer st queue (isValidating sv) settings (cycle sv) (timers sv) (sent sv)),
         mkReply 200 (Validacion ++ lit " iniciada"))
  end.

Definition currentIs (s : JobStatus.t) (sv : Server) : bool :=
  match getCurrentJob (storage sv) with
  | Some job => JobStatus.eqb (Job.status job) s
  | None => false
  end.

(** [POST /api/validation/pause] *)
Definition pause (now : Z) (sv : Server) : Server * Reply :=
  match getCurrentJob (storage sv) with
  | Some job =>
      if JobStatus.eqb (Job.status job) JobStatus.running then
        let st := updateJobStatus now (Job.id job) JobStatus.paused (storage sv) in
        let st := addLog now Level.warn (Validacion ++ lit " pausada por el usuario") st in
        (withStorage sv st, mkReply 200 (Validacion ++ lit " pausada"))
      else (sv, mkReply 400 (lit "No hay " ++ validacion ++ lit " en curso"))
  | None => (sv, mkReply 400 (lit "No hay " ++ validacion ++ lit " en curso"))
  end.

(** [POST /api/validation/resume] *)
Definition resume (now : Z) (sv : Server) : Server * Reply :=
  match getCurrentJob (storage sv) with
  | Some job =>
      if JobStatus.eqb (Job.status job) JobStatus.paused then
        let st := updateJobStatus now (Job.id job) JobStatus.running (storage sv) in
        let st := addLog now Level.info (Validacion ++ lit " reanudada") st in
        (processValidationQueue now (withStorage sv st),
         mkReply 200 (Validacion ++ lit " reanudada"))
      else (sv, mkReply 400 (lit "No hay " ++ validacion ++ lit " pausada"))
  | None => (sv, mkReply 400 (lit "No hay " ++ validacion ++ lit " pausada"))
  end.

(** [POST /api/validation/stop] *)
Definition stop (now : Z) (sv : Server) : Server * Reply :=
  match getCurrentJob (storage sv) with
  | Some job =>
      if isActive job then
        let st := updateJobStatus now (Job.id job) JobStatus.stopped (storage sv) in
        let st := addLog now Level.warn (Validacion ++ lit " detenida por el usuario") st in
        (mkServer st [] (isValidating sv) (validationSettings sv) (cycle sv)
                  (timers sv) (sent sv),
         mkReply 200 (Validacion ++ lit " detenida"))
      else (sv, mkReply 400 (lit "No hay " ++ validacion ++ lit " activa"))
  | None => (sv, mkReply 400 (lit "No hay " ++ validacion ++ lit " activa"))
  end.

(** One uploaded file: its name, its size and its bytes read as UTF-8. *)
Record Upload : Type := mkUpload {
  originalname : jsstring;
  content : jsstring;
  fileSize : Z
}.

(** [s.endsWith(p)] *)
Definition endsWith (s p : jsstring) : bool := startsWith (rev s) (rev p).

Definition insertOf (fileId : Z) (account : Parser.ParsedAccount) : InsertAccount :=
  mkInsertAccount (Some fileId) (Parser.email account) (Parser.password account)
                  (orElse (Parser.storeUrl account) None)
                  AccountStatus.pending None.

(** The body of [for (const file of files)]. *)
Definition uploadOne (now : Z) (st : MemStorage) (file : Upload) : MemStorage :=
  if negb (endsWith (originalname file) (lit ".txt")) then st
  else
    let accounts := Parser.parseAccountFile (content file) in
    let '(st, uploadedFile) :=
      createFile now (mkInsertFile (originalname file) (fileSize file)
                                   (Z.of_nat (length accounts)) FileStatus.processed) st in
    let '(st, _) :=
      createAccountsBatch (map (insertOf (File.id uploadedFile)) accounts) st in
    addLog now Level.info
           (lit "Archivo " ++ originalname file ++ lit " procesado: "
            ++ ofZ (Z.of_nat (length accounts)) ++ lit " cuentas encontradas") st.

(** [POST /api/files/upload] *)
Definition upload (now : Z) (files : list Upload) (sv : Server) : Server * Reply :=
  match files with
  | [] => (sv, mkReply 400 (lit "No files uploaded"))
  | _ :: _ => (withStorage sv (fold_left (uploadOne now) files (storage sv)), mkReply 200 [])
  end.

Inductive Event : Type :=
| UploadFiles (now : Z) (files : list Upload)
| DeleteFile (fileId : Z)
| ClearLogs
| Start (now : Z) (body : RawSettings)
| Pause (now : Z)
| Resume (now : Z)
| Stop (now : Z)
| Timer (now : Z)                                  (* a [setTimeout] fires *)
| Settle (now : Z) (fetch : Fetch) (accountId : Z). (* an attempt comes back *)

(** One event; [None] when it cannot happen in this state. *)
Definition step (sv : Server) (e : Event) : option (Server * option Reply) :=
  match e with
  | UploadFiles now files => let '(sv, r) := upload now files sv in Some (sv, Some r)
  | DeleteFile fileId =>
      Some (withStorage sv (deleteFile fileId (storage sv)), Some (mkReply 200 []))
  | ClearLogs => Some (withStorage sv (clearLogs (storage sv)), Some (mkReply 200 []))
  | Start now body => let '(sv, r) := start now body sv in Some (sv, Some r)
  | Pause now => let '(sv, r) := pause now sv in Some (sv, Some r)
  | Resume now => let '(sv, r) := resume now sv in Some (sv, Some r)
  | Stop now => let '(sv, r) := stop now sv in Some (sv, Some r)
  | Timer now =>
      match timers sv with
      | O => None
      | S n =>
          Some (processValidationQueue now
                  (mkServer (storage sv) (validationQueue sv) (isValidating sv)
                            (validationSettings sv) (cycle sv) n (sent sv)),
                None)
      end
  | Settle now fetch accountId =>
      match settle now fetch accountId sv with
      | Some sv => Some (sv, None)
      | None => None
      end
  end.

(** A run of events from a state. *)
Fixpoint run (sv : Server) (events : list Event) : option Server :=
  match events with
  | [] => Some sv
  | e :: rest =>
      match step sv e with
      | Some (sv, _) => run sv rest
      | None => None
      end
  end.

(** The attempt of the batch on the network for account [accountId]. *)
Definition attemptOf (sv : Server) (accountId : Z) : option (QueueItem * option jsstring) :=
  match cycle sv with
  | Some c => option_map fst (take accountId (waiting c))
  | None => None
  end.

(** The jobs an observer can read, and the one of a given identity. *)
Definition allJobs (sv : Server) : list Job.t := JsMap.values (jobs (storage sv)).
Definition jobOf (sv : Server) (jobId : Z) : option Job.t := JsMap.get (jobs (storage sv)) jobId.
Definition accountOf (sv : Server) (accountId : Z) : option Account.t :=
  JsMap.get (accounts (storage sv)) accountId.

End Engine.

(* ------------------------------------------------------------------ *)
(** ** The statements of the specification, and the runs used below *)
(* ------------------------------------------------------------------ *)

Module Stated.

Import Parser.

(** What a split contributes: the first piece with an [@] as the
    identifier and, when there is one, the first piece that is
    neither the identifier nor URL-shaped as the secret. *)
Definition chosen (parts : list jsstring) : jsstring * jsstring :=
  match find isEmailPart parts with
  | Some identifier =>
      (identifier,
       match find (isPasswordPart identifier) parts with
       | Some secret => secret
       | None => []
       end)
  | None => ([], [])
  end.

(** Step 2 as the specification words it: only the first separator
    present in the line is looked at. *)
Definition firstPresentSeparator (cleanLine : jsstring) : jsstring * jsstring :=
  match find (includes cleanLine) separators with
  | Some sep =>
      if (2 <=? length (partsOf cleanLine sep))%nat
      then chosen (partsOf cleanLine sep)
      else ([], [])
  | None => ([], [])
  end.

(** A separator that is present and leaves two pieces or more. *)
Definition usable (cleanLine sep : jsstring) : bool :=
  includes cleanLine sep && (2 <=? length (partsOf cleanLine sep))%nat.

(** Step 2 as the loop runs it: the first usable separator is taken. *)
Definition firstUsableSeparator (cleanLine : jsstring) : jsstring * jsstring :=
  match find (usable cleanLine) separators with
  | Some sep => chosen (partsOf cleanLine sep)
  | None => ([], [])
  end.

(** A record as the parser promises it. *)
Definition wellFormed (r : ParsedAccount) : Prop :=
  email r <> [] /\ includes (email r) (lit "@") = true /\ password r <> [].

(** The counters of a job add up. *)
Definition balanced (job : Job.t) : Prop :=
  Job.processedAccounts job
  = (Job.validAccounts job + Job.invalidAccounts job + Job.errorAccounts job)%Z.

(** The counters of every job of the store add up. *)
Definition Balanced (st : Storage.MemStorage) : Prop :=
  Forall balanced (JsMap.values (Storage.jobs st)).

End Stated.

(** What can happen to one attempt on the network, for a record whose
    endpoint is [storeUrl]. *)
Module Attempt.

Import Prober.

Section OnNetwork.
Variable fetch : Fetch.
Variables email password storeUrl : jsstring.

Definition loginPageUrl : jsstring := storeUrl ++ lit "/admin/login".

(** The submission that follows the login page [page] of body [html]. *)
Definition submission (page : Response) (html : jsstring) : Request :=
  loginRequest loginPageUrl (orEmpty (setCookie page))
               (formData email password (csrfTokenOf html)).

(** One of the two requests fails on the network with [message]:
    the request itself is rejected, or the reading of its body is. *)
Inductive TransportFailure (message : jsstring) : Prop :=
| pageRequestFails :
    fetch (loginPageRequest loginPageUrl) = Rejected message ->
    TransportFailure message
| pageBodyFails (page : Response) :
    fetch (loginPageRequest loginPageUrl) = Fulfilled page ->
    ok page = true ->
    text page = Rejected message ->
    TransportFailure message
| submissionFails (page : Response) (html : jsstring) :
    fetch (loginPageRequest loginPageUrl) = Fulfilled page ->
    ok page = true ->
    text page = Fulfilled html ->
    fetch (submission page html) = Rejected message ->
    TransportFailure message
| answerBodyFails (page : Response) (html : jsstring) (answer : Response) :
    fetch (loginPageRequest loginPageUrl) = Fulfilled page ->
    ok page = true ->
    text page = Fulfilled html ->
    fetch (submission page html) = Fulfilled answer ->
    text answer = Rejected message ->
    TransportFailure message.

(** Both requests go through: the submission is answered by [answer],
    whose body reads [responseText]. *)
Inductive Answered (answer : Response) (responseText : jsstring) : Prop :=
| answered (page : Response) (html : jsstring) :
    fetch (loginPageRequest loginPageUrl) = Fulfilled page ->
    ok page = true ->
    text page = Fulfilled html ->
    fetch (submission page html) = Fulfilled answer ->
    text answer = Fulfilled responseText ->
    Answered answer responseText.

End OnNetwork.

(** The candidate of the resolver for [domain]. *)
Definition candidate (email domain : jsstring) : jsstring :=
  lit "https://" ++ hd [] (split email (lit "@")) ++ domain.

(** A candidate answers the probe with a 200. *)
Definition reachable (fetch : Fetch) (potentialUrl : jsstring) : bool :=
  match fetch (headRequest potentialUrl) with
  | Fulfilled response => (status response =? 200)%Z
  | Rejected _ => false
  end.

(** The resolver goes through every candidate without a success. *)
Definition Exhausted (fetch : Fetch) (email : jsstring) : Prop :=
  forall domain, In domain commonDomains -> reachable fetch (candidate email domain) = false.

End Attempt.

(** Concrete files, networks and runs. *)
Module Scenario.

Import Engine.

Definition defaults : RawSettings := mkRaw None None None.

Definition fileA : Upload :=
  mkUpload (lit "a.txt") (lit "user@store.com:secret123") 24.
Definition fileB : Upload :=
  mkUpload (lit "b.txt") (lit "bob@store.com:hunter2") 21.
Definition fileWithUrl : Upload :=
  mkUpload (lit "c.txt") (lit "https://foo.mitiendanube.com user@foo.com pass1") 47.

(** Every request fails. *)
Definition down : Fetch := fun _ => Rejected (lit "fetch failed").

(** Every probe and every page answers 404. *)
Definition nothingThere : Fetch :=
  fun _ => Fulfilled (mkResponse 404 (Fulfilled []) None None).

(** A shop that sends every submission back to its login form, with
    the dashboard as the place to go next. *)
Definition backToLogin : jsstring := lit "/admin/login?next=/admin/dashboard".
Definition bounced : Response := mkResponse 302 (Fulfilled []) None (Some backToLogin).
Definition loginPage : Response := mkResponse 200 (Fulfilled (lit "<form>")) None None.
Definition bouncing : Fetch :=
  fun request =>
    match method request with
    | POST => Fulfilled bounced
    | _ => Fulfilled loginPage
    end.

(** The state after [events], from the initial one. *)
Definition after (events : list Event) : Server :=
  match run initial events with
  | Some sv => sv
  | None => initial
  end.

(** One record with an endpoint, its attempt on the network. *)
Definition probing : Server := after [UploadFiles 1 [fileWithUrl]; Start 2 defaults].

(** One record without an endpoint, its attempt on the network. *)
Definition resolving : Server := after [UploadFiles 1 [fileA]; Start 2 defaults].

(** The same job once paused. *)
Definition pausedJob : Server := after [UploadFiles 1 [fileA]; Start 2 defaults; Pause 3].

(** Some job is running, a second start request comes in. *)
Definition secondStart : list Event :=
  [UploadFiles 1 [fileA]; Start 2 defaults; Start 3 defaults].

(** A stop request comes in while the batch is on the network; the
    attempt comes back afterwards. *)
Definition stopThenSettle : list Event :=
  [UploadFiles 1 [fileA]; Start 2 defaults; Stop 3; Settle 4 down 1].

(** A first job runs to its end, a second file is uploaded and a
    second job runs to its end. *)
Definition twoJobs : list Event :=
  [UploadFiles 1 [fileA]; Start 2 defaults; Settle 3 down 1;
   UploadFiles 4 [fileB]; Start 5 defaults; Settle 6 down 2].

End Scenario.

(** What a pass of a regex hands out is text of the input: a code
    unit of [s], or a match made of code units of [s]. *)
Definition within (s : jsstring) (item : N + jsstring) : Prop :=
  match item with
  | inl c => In c s
  | inr m => incl m s
  end.

(** More networks, stores and runs. *)
Module Sample.

Import Engine.

(** Only the second candidate of the resolver answers. *)
Definition secondDomain : Fetch :=
  fun request =>
    if JsString.eqb (url request) (lit "https://bob.nuvemshop.com.br")
    then Fulfilled (mkResponse 200 (Fulfilled []) None None)
    else Fulfilled (mkResponse 404 (Fulfilled []) None None).

(** A shop that answers the submission with a page that holds a
    marker of each kind. *)
Definition welcome : Response :=
  mkResponse 200 (Fulfilled (lit "<a>Log out</a> no error")) None None.
Definition welcoming : Fetch :=
  fun request =>
    match method request with
    | POST => Fulfilled welcome
    | _ => Fulfilled Scenario.loginPage
    end.

Definition fileTwo : Upload :=
  mkUpload (lit "two.txt")
           (lit "ann@store.com:pw1" ++ [10%N] ++ lit "bob@store.com|pw2") 35.

Definition threads (n : Z) : RawSettings := mkRaw (Some n) None None.

(** Two records, one attempt at a time: the first is on the network. *)
Definition oneByOne : list Event := [UploadFiles 1 [fileTwo]; Start 2 (threads 1)].

(** The first record done, the job paused before the timer fires. *)
Definition pausedMidway : list Event :=
  oneByOne ++ [Settle 3 Scenario.down 1; Pause 4].

(** A job that ran to its end. *)
Definition finished : list Event :=
  [UploadFiles 1 [Scenario.fileA]; Start 2 Scenario.defaults; Settle 3 Scenario.down 1].

Definition entry (i t : Z) : Log.t := Log.mk i Level.info [] (Some t).

(** Four entries, two of them of the same instant. *)
Definition fourLogs : Storage.MemStorage :=
  Storage.mkStorage [] [] []
    [(1, entry 1 10); (2, entry 2 30); (3, entry 3 10); (4, entry 4 20)]%Z
    1 1 1 5.

End Sample.

(* ------------------------------------------------------------------ *)
(** ** Reading the activity log ([getLogs]) *)
(* ------------------------------------------------------------------ *)

Module LogView.

Import Storage.

Definition stamped (l : Log.t) : bool :=
  match Log.timestamp l with
  | Some _ => true
  | None => false
  end.

(** [l.timestamp!.getTime()] of a stamped entry. *)
Definition time (l : Log.t) : Z :=
  match Log.timestamp l with
  | Some t => t
  | None => 0
  end.

(** [(a, b) => b.timestamp!.getTime() - a.timestamp!.getTime()] *)
Definition compare (a b : Log.t) : Z := (time b - time a)%Z.

(** [Array.prototype.sort] is stable; with a comparator that is a
    total preorder its result is the one of any stable sort. *)
Fixpoint insert (x : Log.t) (sorted : list Log.t) : list Log.t :=
  match sorted with
  | [] => [x]
  | y :: rest =>
      if (compare x y <=? 0)%Z then x :: y :: rest else y :: insert x rest
  end.

Fixpoint sort (l : list Log.t) : list Log.t :=
  match l with
  | [] => []
  | x :: rest => insert x (sort rest)
  end.

(** The order of the answer: no entry before a newer one. *)
Definition newerFirst (a b : Log.t) : Prop := (time b <= time a)%Z.

(** [l.slice(0, limit)] for an integer [limit]; a negative one counts
    from the end. *)
Definition slice (l : list Log.t) (limit : Z) : list Log.t :=
  firstn (Z.to_nat (if (limit <? 0)%Z then Z.of_nat (length l) + limit else limit)) l.

(** [getLogs(limit)]; [None] when the comparator meets an entry without
    a time stamp and throws (it is not called on fewer than two entries). *)
Definition getLogs (limit : Z) (st : MemStorage) : option (list Log.t) :=
  let all := JsMap.values (logs st) in
  if (length all <=? 1)%nat || forallb stamped all
  then Some (slice (sort all) limit)
  else None.

End LogView.

(* ------------------------------------------------------------------ *)
(** ** What the store and the server keep true *)
(* ------------------------------------------------------------------ *)

Module Invariant.

Import Storage Engine.

Definition keys (V : Type) (m : JsMap.t V) : list Z := map fst m.

(** Every entry sits under its own identifier, the identifiers are
    distinct, positive and below the counter that gives the next one. *)
Definition Keyed (V : Type) (idOf : V -> Z) (next : Z) (m : JsMap.t V) : Prop :=
  NoDup (keys m)
  /\ Forall (fun kv => idOf (snd kv) = fst kv /\ (0 < fst kv < next)%Z) m.

Definition fileKnown (next : Z) (a : Account.t) : Prop :=
  match Account.fileId a with
  | Some f => (0 < f < next)%Z
  | None => True
  end.

Record WellFormed (st : MemStorage) : Prop := mkWellFormed {
  wf_files : Keyed File.id (currentFileId st) (files st);
  wf_accounts : Keyed Account.id (currentAccountId st) (accounts st);
  wf_jobs : Keyed Job.id (currentJobId st) (jobs st);
  wf_logs : Keyed Log.id (currentLogId st) (logs st);
  wf_counters : (0 < currentFileId st /\ 0 < currentAccountId st
                 /\ 0 < currentJobId st /\ 0 < currentLogId st)%Z;
  wf_fileIds : Forall (fileKnown (currentFileId st)) (JsMap.values (accounts st));
  wf_stamped : Forall (fun l => LogView.stamped l = true) (JsMap.values (logs st))
}.

(** The file of a new account is one of the store. *)
Definition fileOk (st : MemStorage) (ins : InsertAccount) : Prop :=
  match ia_fileId ins with
  | Some f => (0 < f < currentFileId st)%Z
  | None => True
  end.

(** The status [error] is not in use. *)
Definition notErrored (a : Account.t) : Prop :=
  Account.status a <> AccountStatus.error.

Definition Clean (st : MemStorage) : Prop :=
  Forall notErrored (JsMap.values (accounts st))
  /\ Forall (fun job => Job.errorAccounts job = 0%Z) (JsMap.values (jobs st)).

Definition Good (st : MemStorage) : Prop := WellFormed st /\ Clean st.

(** A progress snapshot that adds up and stays within its own total. *)
Definition consistent (b : Broadcast) : Prop :=
  match b with
  | progress processed valid invalid errors total =>
      (processed = valid + invalid + errors /\ errors = 0
       /\ 0 <= processed <= total)%Z
  | jobCompleted => True
  end.

Definition attemptIds (c : Cycle) : list Z := map (fun x => id (fst x)) (waiting c).

Definition inBounds (settings : Settings) : Prop :=
  (1 <= concurrentThreads settings <= 100
   /\ 5 <= timeoutSeconds settings <= 120
   /\ 0 <= retries settings <= 10)%Z.

(** What holds whether or not a batch is on the network. *)
Record Steady (sv : Server) : Prop := mkSteady {
  steady_store : Good (storage sv);
  steady_settings : inBounds (validationSettings sv);
  steady_queue : NoDup (map id (validationQueue sv));
  steady_sent : Forall consistent (sent sv)
}.

(** The flag is set exactly while a batch is on the network; such a
    batch is not empty, holds no account twice and at most 100 attempts. *)
Record Sound (sv : Server) : Prop := mkSound {
  sound_steady : Steady sv;
  sound_flag : isValidating sv = true <-> cycle sv <> None;
  sound_batch : forall c, cycle sv = Some c ->
                          waiting c <> [] /\ NoDup (attemptIds c)
                          /\ length (waiting c) <= 100
}.

(** The events that write accounts: uploads, deletions and attempts
    coming back. *)
Definition touchesAccounts (e : Event) : bool :=
  match e with
  | UploadFiles _ _ | DeleteFile _ | Settle _ _ _ => true
  | _ => false
  end.

(** What links a job to its later self: the identifier, the total and
    the settings stay, and [completed] is not left. *)
Definition Kept (job job' : Job.t) : Prop :=
  Job.id job' = Job.id job
  /\ Job.totalAccounts job' = Job.totalAccounts job
  /\ Job.settings job' = Job.settings job
  /\ (Job.status job = JobStatus.completed -> Job.status job' = JobStatus.completed).

Definition JobsKept (st st' : MemStorage) : Prop :=
  forall jobId job,
    JsMap.get (jobs st) jobId = Some job ->
    exists job', JsMap.get (jobs st') jobId = Some job' /\ Kept job job'.

(** An account as an entry of the map of accounts. *)
Definition entryOf (a : Account.t) : Z * Account.t := (Account.id a, a).

(** The accounts that a batch insertion is to create, numbered from
    [first] on. *)
Fixpoint numbered (first : Z) (l : list InsertAccount) : list Account.t :=
  match l with
  | [] => []
  | ins :: rest =>
      Account.mk first (orNullZ (ia_fileId ins)) (ia_email ins) (ia_password ins)
                 (orNull (ia_storeUrl ins)) (ia_status ins)
                 (orNull (ia_errorMessage ins)) None
      :: numbered (first + 1) rest
  end.

(** The accounts that the upload of [file] adds to [st]. *)
Definition uploaded (st : MemStorage) (file : Upload) : list Account.t :=
  numbered (currentAccountId st)
           (map (insertOf (currentFileId st)) (Parser.parseAccountFile (content file))).

End Invariant.

(* ------------------------------------------------------------------ *)
(** ** Properties of the parser *)
(* ------------------------------------------------------------------ *)

Section ParserFacts.

Import Parser Stated.

Lemma truthy_nonempty (s : jsstring) : truthy s = true -> s <> [].
Proof. destruct s; simpl; congruence. Qed.

Lemma parseLine_appends (accounts : list ParsedAccount) (line : jsstring) :
  parseLine accounts line = accounts ++ parseLine [] line.
Proof.
  unfold parseLine.
  destruct (recover line) as [[e p] u].
  destruct (accepted e p); simpl; [reflexivity | now rewrite app_nil_r].
Qed.

Lemma parseLine_at_most_one (line : jsstring) :
  length (parseLine [] line) <= 1.
Proof.
  unfold parseLine.
  destruct (recover line) as [[e p] u].
  destruct (accepted e p); simpl; lia.
Qed.

Lemma parseLine_wellFormed (line : jsstring) :
  Forall wellFormed (parseLine [] line).
Proof.
  unfold parseLine.
  destruct (recover line) as [[e p] u].
  destruct (accepted e p) eqn:Hacc; [| constructor].
  unfold accepted in Hacc.
  apply andb_prop in Hacc as [Hacc Hat].
  apply andb_prop in Hacc as [He Hp].
  constructor; [| constructor].
  repeat split; simpl; auto using truthy_nonempty.
Qed.

Lemma fold_parseLine (lines : list jsstring) :
  forall accounts,
    fold_left parseLine lines accounts
    = accounts ++ flat_map (parseLine []) lines.
Proof.
  induction lines as [| line lines IH]; intros accounts; simpl.
  - now rewrite app_nil_r.
  - rewrite IH, (parseLine_appends accounts line), app_assoc. reflexivity.
Qed.

Lemma flat_map_short (lines : list jsstring) :
  length (flat_map (parseLine []) lines) <= length lines.
Proof.
  induction lines as [| line lines IH]; simpl; [lia |].
  rewrite length_app. pose proof (parseLine_at_most_one line). lia.
Qed.

Lemma flat_map_wellFormed (lines : list jsstring) :
  Forall wellFormed (flat_map (parseLine []) lines).
Proof.
  induction lines as [| line lines IH]; simpl; [constructor |].
  apply Forall_app. split; [apply parseLine_wellFormed | exact IH].
Qed.

(** The pieces of a split are never empty. *)
Lemma partsOf_found (f : jsstring -> bool) (cleanLine sep x : jsstring) :
  find f (partsOf cleanLine sep) = Some x -> exists c x', x = c :: x'.
Proof.
  intros H. apply find_some in H as [Hin _].
  unfold partsOf in Hin. apply filter_In in Hin as [_ Ht].
  destruct x as [| c x']; [discriminate | eauto].
Qed.

Lemma separatorLoop_chosen (cleanLine sep : jsstring) :
  match find isEmailPart (partsOf cleanLine sep) with
  | Some ((_ :: _) as emailPart) =>
      match find (isPasswordPart emailPart) (partsOf cleanLine sep) with
      | Some ((_ :: _) as passwordPart) => (emailPart, passwordPart)
      | _ => (emailPart, [])
      end
  | _ => ([], [])
  end = chosen (partsOf cleanLine sep).
Proof.
  unfold chosen.
  destruct (find isEmailPart (partsOf cleanLine sep)) as [e |] eqn:He; [| reflexivity].
  destruct (partsOf_found _ _ _ He) as (c & e' & ->).
  destruct (find (isPasswordPart (c :: e')) (partsOf cleanLine sep)) as [p |] eqn:Hp;
    [| reflexivity].
  destruct (partsOf_found _ _ _ Hp) as (d & p' & ->). reflexivity.
Qed.

Lemma separatorLoop_first_usable (cleanLine : jsstring) (seps : list jsstring) :
  separatorLoop seps cleanLine [] []
  = match find (usable cleanLine) seps with
    | Some sep => chosen (partsOf cleanLine sep)
    | None => ([], [])
    end.
Proof.
  induction seps as [| sep rest IH]; [reflexivity |].
  cbn [separatorLoop find]. unfold usable at 1.
  destruct (includes cleanLine sep); cbn [andb]; [| exact IH].
  destruct (2 <=? length (partsOf cleanLine sep))%nat; [| exact IH].
  apply separatorLoop_chosen.
Qed.

End ParserFacts.

(** The third example of the specification: a line with an endpoint. *)
Example parse_line_with_endpoint :
  Parser.parseAccountFile (lit "https://foo.mitiendanube.com user@foo.com pass1")
  = [Parser.mkParsed (lit "user@foo.com") (lit "pass1")
                     (Some (lit "https://foo.mitiendanube.com"))].
Proof. vm_compute. reflexivity. Qed.

(** Blank lines and a carriage return alone on a line are skipped; the
    records come in line order. *)
Example parse_three_lines :
  Parser.parseAccountFile
    (lit "a@b.com:x" ++ [10; 13; 10]%N ++ lit "not a valid line" ++ [10]%N ++ lit "c@d.com|y")
  = [Parser.mkParsed (lit "a@b.com") (lit "x") None;
     Parser.mkParsed (lit "c@d.com") (lit "y") None].
Proof. vm_compute. reflexivity. Qed.

(** Without a separator the e-mail pattern finds the identifier, and a
    line that holds nothing else gives no record. *)
Example parse_email_alone :
  Parser.parseAccountFile (lit "a@b.co") = []
  /\ search Parser.emailRegex (lit "xx a.b@c.d.ef.g1 yy") = Some (lit "a.b@c.d.ef", None).
Proof. split; vm_compute; reflexivity. Qed.

(** C5.  The parser returns the records of the non-blank lines in line
    order, at most one per line ([parseAccountFile] is the concatenation
    of what each line contributes, and a line contributes a list of
    length at most 1); a line contributes exactly when an identifier
    with an [@] and a non-empty secret were recovered from it; every
    record has a non-empty identifier containing [@] and a non-empty
    secret.  The line [user@store.com:secret123] gives that one record,
    [not a valid line] gives none. *)
Theorem C5_parser_records :
  (forall content : jsstring,
      Parser.parseAccountFile content
      = flat_map (Parser.parseLine []) (Parser.linesOf content)
      /\ length (Parser.parseAccountFile content) <= length (Parser.linesOf content)
      /\ Forall Stated.wellFormed (Parser.parseAccountFile content))
  /\ (forall line : jsstring,
         length (Parser.parseLine [] line) <= 1
         /\ (Parser.parseLine [] line = []
             <-> (let '(email, password, _) := Parser.recover line in
                  Parser.accepted email password) = false))
  /\ (forall content line : jsstring,
         In line (Parser.linesOf content) <->
         In line (split content [10%N]) /\ trim line <> [])
  /\ Parser.parseAccountFile (lit "user@store.com:secret123")
     = [Parser.mkParsed (lit "user@store.com") (lit "secret123") None]
  /\ Parser.parseAccountFile (lit "not a valid line") = [].
Proof.
  split; [| split; [| split; [| split]]].
  - intros content. unfold Parser.parseAccountFile.
    rewrite fold_parseLine. simpl.
    auto using flat_map_short, flat_map_wellFormed.
  - intros line. split; [apply parseLine_at_most_one |].
    unfold Parser.parseLine.
    destruct (Parser.recover line) as [[e p] u].
    destruct (Parser.accepted e p); simpl; split; congruence.
  - intros content line. unfold Parser.linesOf. rewrite filter_In.
    destruct (trim line); simpl; split; intros [H1 H2]; split; congruence.
  - vm_compute. reflexivity.
  - vm_compute. reflexivity.
Qed.

(** C6 (amended).  The separators are tried in the order [:], [|],
    space, comma, tab, and the split that is used is the one on the
    first separator that is present in the line and leaves at least two
    non-empty trimmed pieces; a separator that is present but leaves
    fewer is passed over.  From that one split the first piece with an
    [@] is the identifier and the first piece that differs from it and
    holds neither [http] nor [.com] is the secret; pieces of two
    different splits are never mixed. *)
Theorem C6_first_usable_separator (cleanLine : jsstring) :
  Parser.separators = [lit ":"; lit "|"; lit " "; lit ","; [9%N]]
  /\ Parser.separatorLoop Parser.separators cleanLine [] []
     = Stated.firstUsableSeparator cleanLine.
Proof.
  split; [reflexivity |].
  unfold Stated.firstUsableSeparator. apply separatorLoop_first_usable.
Qed.

(** C6, as stated, fails: in [:a@b.com pass] the first separator
    present is [:], which leaves one piece; the loop goes on to the
    space and takes both fields from that split. *)
Lemma C6_first_present_counterexample :
  find (includes (lit ":a@b.com pass")) Parser.separators = Some (lit ":")
  /\ Stated.firstPresentSeparator (lit ":a@b.com pass") = ([], [])
  /\ Parser.separatorLoop Parser.separators (lit ":a@b.com pass") [] []
     = (lit ":a@b.com", lit "pass")
  /\ Parser.separatorLoop Parser.separators (lit ":a@b.com pass") [] []
     <> Stated.firstPresentSeparator (lit ":a@b.com pass")
  /\ Parser.parseAccountFile (lit ":a@b.com pass")
     = [Parser.mkParsed (lit ":a@b.com") (lit "pass") None].
Proof.
  split; [| split; [| split; [| split]]]; try (vm_compute; reflexivity).
  vm_compute. discriminate.
Qed.

(* ------------------------------------------------------------------ *)
(** ** Properties of the prober *)
(* ------------------------------------------------------------------ *)

Section ProberFacts.

Import Prober Attempt.

Variable fetch : Fetch.

Lemma login_transport_failure (email password storeUrl message : jsstring) :
  TransportFailure fetch email password storeUrl message ->
  login fetch email password storeUrl = Rejected message.
Proof.
  unfold login.
  intros [H | page H Hok Ht | page html H Hok Ht Hs | page html answer H Hok Ht Hs Ha];
    unfold submission, loginPageUrl in *; rewrite H; try reflexivity;
    rewrite Hok; cbn [negb]; rewrite Ht; try reflexivity;
    rewrite Hs; try reflexivity.
  now rewrite Ha.
Qed.

Lemma login_answered (email password storeUrl : jsstring)
      (answer : Response) (responseText : jsstring) :
  Answered fetch email password storeUrl answer responseText ->
  login fetch email password storeUrl
  = Fulfilled (classify storeUrl (status answer) (orEmpty (location answer)) responseText).
Proof.
  intros [page html H Hok Ht Hs Ha].
  unfold login. unfold submission, loginPageUrl in *.
  rewrite H, Hok. cbn [negb]. rewrite Ht, Hs, Ha. reflexivity.
Qed.

Lemma validate_transport_failure (email password : jsstring) (storeUrl : option jsstring)
      (endpoint message : jsstring) :
  resolve fetch email storeUrl = Some endpoint ->
  TransportFailure fetch email password endpoint message ->
  validateTiendaNubeAccount fetch email password storeUrl
  = mkResult false None (Some (connectionError message)).
Proof.
  intros Hr Hf. unfold validateTiendaNubeAccount, attempt.
  rewrite Hr, (login_transport_failure Hf). reflexivity.
Qed.

Lemma discoverLoop_exhausted (username : jsstring) (domains : list jsstring) :
  (forall domain, In domain domains ->
                  reachable fetch (lit "https://" ++ username ++ domain) = false) ->
  success (discoverLoop fetch username domains) = false.
Proof.
  induction domains as [| domain rest IH]; intros H; [reflexivity |].
  cbn [discoverLoop].
  pose proof (H domain (or_introl eq_refl)) as Hd. unfold reachable in Hd.
  destruct (fetch (headRequest (lit "https://" ++ username ++ domain))) as [response | m].
  - rewrite Hd. apply IH. intros d Hin. apply H. now right.
  - apply IH. intros d Hin. apply H. now right.
Qed.

Lemma validate_exhausted (email password : jsstring) (storeUrl : option jsstring) :
  falsy storeUrl = true ->
  Exhausted fetch email ->
  validateTiendaNubeAccount fetch email password storeUrl
  = mkResult false None (Some noStoreFound).
Proof.
  intros Hs He. unfold validateTiendaNubeAccount, attempt, resolve.
  rewrite Hs. unfold discoverTiendaNubeStore.
  rewrite (discoverLoop_exhausted _ _ He). reflexivity.
Qed.

Lemma anyIncluded_iff (s : jsstring) (markers : list jsstring) :
  anyIncluded s markers = true <->
  exists marker, In marker markers /\ includes s marker = true.
Proof. unfold anyIncluded. apply existsb_exists. Qed.

Lemma classify_valid (storeUrl : jsstring) (status : Z) (location responseText : jsstring) :
  valid (classify storeUrl status location responseText)
  = ((status =? 302)%Z || (status =? 301)%Z) && redirectsToDashboard location
    || anyIncluded responseText successMarkers.
Proof.
  unfold classify.
  destruct (((status =? 302)%Z || (status =? 301)%Z) && redirectsToDashboard location);
    [reflexivity |].
  destruct (anyIncluded responseText successMarkers); [reflexivity |].
  destruct (anyIncluded responseText failureMarkers); reflexivity.
Qed.

End ProberFacts.

(** The patterns of the anti-forgery token are tried in order and the
    first that matches gives the token. *)
Example csrf_first_pattern_wins :
  Prober.csrfTokenOf
    (lit "<input name=" ++ [34%N] ++ lit "authenticity_token" ++ [34%N]
     ++ lit " value=" ++ [34%N] ++ lit "tok123" ++ [34%N] ++ lit "> data-csrf="
     ++ [34%N] ++ lit "other" ++ [34%N])
  = lit "tok123"
  /\ Prober.csrfTokenOf (lit "<form>") = [].
Proof. split; vm_compute; reflexivity. Qed.

(** C7 (amended).  When the login submission is answered with status
    301 or 302, the attempt is accepted exactly when the [Location]
    target holds [/admin] and either holds one of [dashboard], [home],
    [panel] or does not hold [login], or else when the body of the
    answer holds one of the authenticated-session markers.  This holds
    for every submission: on the endpoint stored with the record, and
    on the endpoint that the resolver found when none is stored. *)
Theorem C7_redirect_accepted
        (fetch : Fetch) (email password : jsstring) (storeUrl : option jsstring)
        (endpoint : jsstring) (answer : Response) (responseText : jsstring) :
  Prober.resolve fetch email storeUrl = Some endpoint ->
  Attempt.Answered fetch email password endpoint answer responseText ->
  status answer = 301%Z \/ status answer = 302%Z ->
  let target := Prober.orEmpty (location answer) in
  Prober.valid (Prober.validateTiendaNubeAccount fetch email password storeUrl) = true
  <->
  (includes target (lit "/admin") = true
   /\ (includes target (lit "dashboard") = true
       \/ includes target (lit "home") = true
       \/ includes target (lit "panel") = true
       \/ includes target (lit "login") = false))
  \/ (exists marker, In marker Prober.successMarkers
                     /\ includes responseText marker = true).
Proof.
  intros Hr Hans Hst target.
  unfold Prober.validateTiendaNubeAccount, Prober.attempt.
  rewrite Hr, (login_answered Hans), classify_valid.
  fold target. rewrite <- anyIncluded_iff.
  assert (Hredirect : ((status answer =? 302)%Z || (status answer =? 301)%Z) = true).
  { destruct Hst as [-> | ->]; reflexivity. }
  rewrite Hredirect. cbn [andb]. unfold Prober.redirectsToDashboard.
  rewrite orb_true_iff, andb_true_iff, !orb_true_iff, negb_true_iff.
  tauto.
Qed.

(** C7, as stated, fails: a redirect back to the login form that names
    the dashboard as the next page holds the login marker and is
    accepted all the same. *)
Lemma C7_login_marker_counterexample :
  Attempt.Answered Scenario.bouncing (lit "user@foo.com") (lit "pass1")
                   (lit "https://foo.mitiendanube.com") Scenario.bounced []
  /\ status Scenario.bounced = 302%Z
  /\ ~ (Prober.valid
          (Prober.validateTiendaNubeAccount
             Scenario.bouncing (lit "user@foo.com") (lit "pass1")
             (Some (lit "https://foo.mitiendanube.com"))) = true
        <-> includes Scenario.backToLogin (lit "/admin") = true
            /\ includes Scenario.backToLogin (lit "login") = false).
Proof.
  split; [| split].
  - apply Attempt.answered with (page := Scenario.loginPage) (html := lit "<form>");
      reflexivity.
  - reflexivity.
  - intros [H _].
    assert (Hv : Prober.valid
                   (Prober.validateTiendaNubeAccount
                      Scenario.bouncing (lit "user@foo.com") (lit "pass1")
                      (Some (lit "https://foo.mitiendanube.com"))) = true)
      by (vm_compute; reflexivity).
    destruct (H Hv) as [_ Hl]. vm_compute in Hl. discriminate.
Qed.

(** The redirect rule at work on one answer, for a record without an
    endpoint: the resolver finds the first candidate. *)
Lemma C7_redirect_accepted_witness :
  Prober.valid
    (Prober.validateTiendaNubeAccount
       Scenario.bouncing (lit "user@foo.com") (lit "pass1") None) = true
  <->
  (includes Scenario.backToLogin (lit "/admin") = true
   /\ (includes Scenario.backToLogin (lit "dashboard") = true
       \/ includes Scenario.backToLogin (lit "home") = true
       \/ includes Scenario.backToLogin (lit "panel") = true
       \/ includes Scenario.backToLogin (lit "login") = false))
  \/ (exists marker, In marker Prober.successMarkers /\ includes [] marker = true).
Proof.
  apply (@C7_redirect_accepted
           Scenario.bouncing (lit "user@foo.com") (lit "pass1") None
           (lit "https://user.mitiendanube.com") Scenario.bounced []).
  - vm_compute. reflexivity.
  - apply Attempt.answered with (page := Scenario.loginPage) (html := lit "<form>");
      reflexivity.
  - right. reflexivity.
Defined.

(* ------------------------------------------------------------------ *)
(** ** Properties of the store *)
(* ------------------------------------------------------------------ *)

Section MapFacts.

Variable V : Type.

Lemma get_set_same (m : JsMap.t V) (k : Z) (v : V) :
  JsMap.get (JsMap.set m k v) k = Some v.
Proof.
  induction m as [| [k' v'] m IH]; simpl.
  - now rewrite Z.eqb_refl.
  - destruct (k' =? k)%Z eqn:E; simpl.
    + now rewrite Z.eqb_refl.
    + now rewrite E.
Qed.

Lemma get_set_other (m : JsMap.t V) (k k' : Z) (v : V) :
  k <> k' -> JsMap.get (JsMap.set m k v) k' = JsMap.get m k'.
Proof.
  intros Hne. induction m as [| [k0 v0] m IH]; simpl.
  - destruct (k =? k')%Z eqn:E; [apply Z.eqb_eq in E; congruence | reflexivity].
  - destruct (k0 =? k)%Z eqn:E; simpl.
    + apply Z.eqb_eq in E. subst k0.
      destruct (k =? k')%Z eqn:E'; [apply Z.eqb_eq in E'; congruence | reflexivity].
    + destruct (k0 =? k')%Z; [reflexivity | exact IH].
Qed.

End MapFacts.

(** C10.  A status update of a stored account stamps [validatedAt]
    with the time of the update and sets the status; a [storeUrl] or
    an [errorMessage] that is not supplied leaves the stored value, and
    a stored value is never cleared; [id], [fileId], [email] and
    [password] are unchanged, and so is every other account. *)
Theorem C10_status_update_frame
        (now id : Z) (status : AccountStatus.t) (storeUrl errorMessage : option jsstring)
        (st : Storage.MemStorage) (account : Account.t) :
  JsMap.get (Storage.accounts st) id = Some account ->
  let st' := Storage.updateAccountStatus now id status storeUrl errorMessage st in
  (exists account',
      JsMap.get (Storage.accounts st') id = Some account'
      /\ Account.validatedAt account' = Some now
      /\ Account.status account' = status
      /\ (storeUrl = None -> Account.storeUrl account' = Account.storeUrl account)
      /\ (errorMessage = None ->
          Account.errorMessage account' = Account.errorMessage account)
      /\ (Account.storeUrl account <> None -> Account.storeUrl account' <> None)
      /\ (Account.errorMessage account <> None -> Account.errorMessage account' <> None)
      /\ Account.id account' = Account.id account
      /\ Account.fileId account' = Account.fileId account
      /\ Account.email account' = Account.email account
      /\ Account.password account' = Account.password account)
  /\ (forall other, other <> id ->
                    JsMap.get (Storage.accounts st') other
                    = JsMap.get (Storage.accounts st) other).
Proof.
  intros Hget st'. subst st'. unfold Storage.updateAccountStatus. rewrite Hget.
  cbn [Storage.accounts Storage.withAccounts]. split.
  - eexists. split; [apply get_set_same |]. cbn.
    repeat split.
    + now intros ->.
    + now intros ->.
    + intros Hold. destruct storeUrl as [[| c u] |]; cbn; congruence.
    + intros Hold. destruct errorMessage as [[| c u] |]; cbn; congruence.
  - intros other Hne. apply get_set_other. congruence.
Qed.

(** The update of an account that holds an endpoint, with none supplied. *)
Lemma C10_status_update_frame_witness :
  let st := Engine.storage Scenario.probing in
  let st' := Storage.updateAccountStatus 9 1 AccountStatus.invalid None
                                         (Some (lit "Credenciales incorrectas")) st in
  (exists account',
      JsMap.get (Storage.accounts st') 1%Z = Some account'
      /\ Account.validatedAt account' = Some 9%Z
      /\ Account.status account' = AccountStatus.invalid
      /\ Account.storeUrl account' = Some (lit "https://foo.mitiendanube.com")
      /\ Account.email account' = lit "user@foo.com").
Proof.
  intros st st'.
  destruct (@C10_status_update_frame
              9 1 AccountStatus.invalid None (Some (lit "Credenciales incorrectas")) st
              (Account.mk 1 (Some 1%Z) (lit "user@foo.com") (lit "pass1")
                          (Some (lit "https://foo.mitiendanube.com"))
                          AccountStatus.pending None None)
              eq_refl)
    as [(account' & Hget & Hat & Hst & Hurl & _ & _ & _ & _ & _ & Hemail & _) _].
  exists account'. repeat split; try assumption.
  - rewrite Hurl; reflexivity.
Defined.

(* ------------------------------------------------------------------ *)
(** ** Properties of the engine: what one attempt writes *)
(* ------------------------------------------------------------------ *)

Section EngineFacts.

Import Storage Engine.

Lemma accounts_addLog (now : Z) (level : Level.t) (message : jsstring) (st : MemStorage) :
  accounts (addLog now level message st) = accounts st.
Proof. reflexivity. Qed.

Lemma accounts_updateJobStatus (now id : Z) (status : JobStatus.t) (st : MemStorage) :
  accounts (updateJobStatus now id status st) = accounts st.
Proof. unfold updateJobStatus. destruct (JsMap.get (jobs st) id); reflexivity. Qed.

Lemma accounts_updateJobProgress (id p v i e : Z) (st : MemStorage) :
  accounts (updateJobProgress id p v i e st) = accounts st.
Proof. unfold updateJobProgress. destruct (JsMap.get (jobs st) id); reflexivity. Qed.

Lemma accounts_finishCycle (now : Z) (job : Job.t) (sv : Server) :
  accounts (storage (finishCycle now job sv)) = accounts (storage sv).
Proof.
  unfold finishCycle.
  destruct (getCurrentJob _) as [updatedJob |]; cbn [storage].
  - destruct (isRunning updatedJob && _); cbn [storage].
    + apply accounts_updateJobProgress.
    + destruct (length (validationQueue sv) =? 0)%nat; cbn [storage];
        rewrite ?accounts_updateJobStatus; apply accounts_updateJobProgress.
  - apply accounts_updateJobProgress.
Qed.

Lemma accounts_awaitBatch (now : Z) (sv : Server) :
  accounts (storage (awaitBatch now sv)) = accounts (storage sv).
Proof.
  unfold awaitBatch.
  destruct (cycle sv) as [[job [| x l]] |]; auto using accounts_finishCycle.
Qed.

Lemma take_id (accountId : Z) (l : list (QueueItem * option jsstring))
      (x : QueueItem * option jsstring) (rest : list (QueueItem * option jsstring)) :
  take accountId l = Some (x, rest) -> id (fst x) = accountId.
Proof.
  revert x rest. induction l as [| y l IH]; intros x rest; simpl; [discriminate |].
  destruct (id (fst y) =? accountId)%Z eqn:E.
  - intros [= <- _]. now apply Z.eqb_eq.
  - destruct (take accountId l) as [[z r] |]; [| discriminate].
    intros [= <- _]. eapply IH. reflexivity.
Qed.

(** The promise of the prober is never rejected: what its [try]
    throws, its [catch] turns into a result. *)
Lemma settled_fulfilled (fetch : Fetch) (email password : jsstring)
      (storeUrl : option jsstring) :
  Prober.settled fetch email password storeUrl
  = Fulfilled (Prober.validateTiendaNubeAccount fetch email password storeUrl).
Proof.
  unfold Prober.settled, Prober.validateTiendaNubeAccount.
  destruct (Prober.attempt fetch email password storeUrl); reflexivity.
Qed.

(** So the batch body goes through its [try] to the end. *)
Lemma attempted_settled (now : Z) (fetch : Fetch) (account : QueueItem)
      (storeUrl : option jsstring) (st : MemStorage) :
  attempted now account
            (Prober.settled fetch (email account) (password account) storeUrl) st
  = record now account
           (Prober.validateTiendaNubeAccount fetch (email account) (password account)
                                             storeUrl) st.
Proof. rewrite settled_fulfilled. reflexivity. Qed.

(** An attempt that the prober declares not valid, with a detail that
    is not empty: the record becomes [invalid] with that detail. *)
Lemma settle_not_valid (now : Z) (fetch : Fetch) (sv : Server) (accountId : Z)
      (account : QueueItem) (storeUrl : option jsstring) (old : Account.t)
      (c : N) (detail : jsstring) :
  attemptOf sv accountId = Some (account, storeUrl) ->
  accountOf sv accountId = Some old ->
  Prober.validateTiendaNubeAccount fetch (email account) (password account) storeUrl
  = Prober.mkResult false None (Some (c :: detail)) ->
  exists sv' new,
    settle now fetch accountId sv = Some sv'
    /\ accountOf sv' accountId = Some new
    /\ Account.status new = AccountStatus.invalid
    /\ Account.errorMessage new = Some (c :: detail)
    /\ Account.validatedAt new = Some now.
Proof.
  unfold attemptOf, accountOf, settle. intros Hatt Hold Hres.
  destruct (cycle sv) as [cy |]; [| discriminate].
  destruct (take accountId (waiting cy)) as [[[account' storeUrl'] rest] |] eqn:Htake;
    [| discriminate].
  pose proof (take_id _ _ Htake) as Hid. cbn in Hatt, Hid.
  injection Hatt as -> ->. cbv zeta. rewrite attempted_settled, Hres.
  eexists. eexists. split; [reflexivity |].
  rewrite accounts_awaitBatch. cbn [storage].
  unfold record. cbn [Prober.valid Prober.error].
  rewrite accounts_addLog. unfold updateAccountStatus.
  rewrite Hid, Hold. cbn [accounts withAccounts].
  rewrite get_set_same. repeat split.
Qed.

End EngineFacts.

(** C1 (amended).  When the attempt of a record fails on the network
    during the fetch of the login page or during the submission, with
    message [m], the prober answers not valid with the detail
    [Error de conexion: m]; the record ends with status [invalid], the
    status of a rejected credential, and that detail, which carries the
    transport message, is stored as its failure detail. *)
Theorem C1_transport_failure_recorded
        (now : Z) (fetch : Fetch) (sv : Engine.Server) (accountId : Z)
        (account : Engine.QueueItem) (storeUrl : option jsstring)
        (endpoint message : jsstring) (old : Account.t) :
  Engine.attemptOf sv accountId = Some (account, storeUrl) ->
  Engine.accountOf sv accountId = Some old ->
  Prober.resolve fetch (Engine.email account) storeUrl = Some endpoint ->
  Attempt.TransportFailure fetch (Engine.email account) (Engine.password account)
                           endpoint message ->
  exists sv' new,
    Engine.settle now fetch accountId sv = Some sv'
    /\ Engine.accountOf sv' accountId = Some new
    /\ Account.status new = AccountStatus.invalid
    /\ Account.errorMessage new = Some (Prober.connectionError message)
    /\ Account.validatedAt new = Some now.
Proof.
  intros Hatt Hold Hres Hfail.
  apply (@settle_not_valid now fetch sv accountId account storeUrl old
                           69%N (skipn 1 (Prober.connectionError message)) Hatt Hold).
  apply (validate_transport_failure _ Hres Hfail).
Qed.

(** C1, as stated, fails: the login page of the record's endpoint
    cannot be fetched, and the record ends [invalid], not [error]. *)
Lemma C1_status_counterexample :
  Attempt.TransportFailure Scenario.down (lit "user@foo.com") (lit "pass1")
                           (lit "https://foo.mitiendanube.com") (lit "fetch failed")
  /\ Engine.attemptOf Scenario.probing 1
     = Some (Engine.mkItem 1 (lit "user@foo.com") (lit "pass1"),
             Some (lit "https://foo.mitiendanube.com"))
  /\ option_map Account.status
       (Engine.accountOf
          (Scenario.after [Engine.UploadFiles 1 [Scenario.fileWithUrl];
                           Engine.Start 2 Scenario.defaults;
                           Engine.Settle 3 Scenario.down 1]) 1)
     = Some AccountStatus.invalid
  /\ option_map Account.status
       (Engine.accountOf
          (Scenario.after [Engine.UploadFiles 1 [Scenario.fileWithUrl];
                           Engine.Start 2 Scenario.defaults;
                           Engine.Settle 3 Scenario.down 1]) 1)
     <> Some AccountStatus.error.
Proof.
  split; [| split; [| split]].
  - apply Attempt.pageRequestFails. reflexivity.
  - vm_compute. reflexivity.
  - vm_compute. reflexivity.
  - vm_compute. discriminate.
Qed.

(** The attempt of [probing] on a network that is down. *)
Lemma C1_transport_failure_recorded_witness :
  exists sv' new,
    Engine.settle 3 Scenario.down 1 Scenario.probing = Some sv'
    /\ Engine.accountOf sv' 1 = Some new
    /\ Account.status new = AccountStatus.invalid
    /\ Account.errorMessage new = Some (Prober.connectionError (lit "fetch failed"))
    /\ Account.validatedAt new = Some 3%Z.
Proof.
  apply (@C1_transport_failure_recorded
           3 Scenario.down Scenario.probing 1
           (Engine.mkItem 1 (lit "user@foo.com") (lit "pass1"))
           (Some (lit "https://foo.mitiendanube.com"))
           (lit "https://foo.mitiendanube.com") (lit "fetch failed")
           (Account.mk 1 (Some 1%Z) (lit "user@foo.com") (lit "pass1")
                       (Some (lit "https://foo.mitiendanube.com"))
                       AccountStatus.pending None None)).
  - vm_compute. reflexivity.
  - vm_compute. reflexivity.
  - vm_compute. reflexivity.
  - apply Attempt.pageRequestFails. reflexivity.
Defined.

(** C8 (amended).  When a record has no endpoint and the resolver goes
    through all its candidates without a 200, the prober answers not
    valid with the detail [No se encontro tienda asociada al email];
    the record ends with that detail stored, and with status [invalid],
    the status of a rejected credential. *)
Theorem C8_undiscoverable_recorded
        (now : Z) (fetch : Fetch) (sv : Engine.Server) (accountId : Z)
        (account : Engine.QueueItem) (storeUrl : option jsstring) (old : Account.t) :
  Engine.attemptOf sv accountId = Some (account, storeUrl) ->
  Engine.accountOf sv accountId = Some old ->
  falsy storeUrl = true ->
  Attempt.Exhausted fetch (Engine.email account) ->
  exists sv' new,
    Engine.settle now fetch accountId sv = Some sv'
    /\ Engine.accountOf sv' accountId = Some new
    /\ Account.status new = AccountStatus.invalid
    /\ Account.errorMessage new = Some Prober.noStoreFound
    /\ Account.validatedAt new = Some now.
Proof.
  intros Hatt Hold Hnone Hex.
  apply (@settle_not_valid now fetch sv accountId account storeUrl old
                           78%N (skipn 1 Prober.noStoreFound) Hatt Hold).
  apply (validate_exhausted _ _ Hnone Hex).
Qed.

(** C8, as stated, fails: no candidate answers, and the record ends
    with the status [invalid]. *)
Lemma C8_status_counterexample :
  Attempt.Exhausted Scenario.nothingThere (lit "user@store.com")
  /\ Engine.attemptOf Scenario.resolving 1
     = Some (Engine.mkItem 1 (lit "user@store.com") (lit "secret123"), None)
  /\ option_map Account.status
       (Engine.accountOf
          (Scenario.after [Engine.UploadFiles 1 [Scenario.fileA];
                           Engine.Start 2 Scenario.defaults;
                           Engine.Settle 3 Scenario.nothingThere 1]) 1)
     = Some AccountStatus.invalid.
Proof.
  split; [| split].
  - intros domain _. reflexivity.
  - vm_compute. reflexivity.
  - vm_compute. reflexivity.
Qed.

(** The attempt of [resolving] when no candidate answers. *)
Lemma C8_undiscoverable_recorded_witness :
  exists sv' new,
    Engine.settle 3 Scenario.nothingThere 1 Scenario.resolving = Some sv'
    /\ Engine.accountOf sv' 1 = Some new
    /\ Account.status new = AccountStatus.invalid
    /\ Account.errorMessage new = Some Prober.noStoreFound
    /\ Account.validatedAt new = Some 3%Z.
Proof.
  apply (@C8_undiscoverable_recorded
           3 Scenario.nothingThere Scenario.resolving 1
           (Engine.mkItem 1 (lit "user@store.com") (lit "secret123")) None
           (Account.mk 1 (Some 1%Z) (lit "user@store.com") (lit "secret123")
                       None AccountStatus.pending None None)).
  - vm_compute. reflexivity.
  - vm_compute. reflexivity.
  - reflexivity.
  - intros domain _. reflexivity.
Defined.

(** C9.  A pause request when the current job is not [running], and a
    resume request when it is not [paused], are answered with a 400 and
    leave the whole state of the server, hence the status, the time
    stamps and the counters of every job, as it was. *)
Theorem C9_pause_resume_rejected (now : Z) (sv : Engine.Server) :
  (Engine.currentIs JobStatus.running sv = false ->
   Engine.step sv (Engine.Pause now)
   = Some (sv, Some (Engine.mkReply 400 (lit "No hay " ++ Engine.validacion
                                          ++ lit " en curso"))))
  /\ (Engine.currentIs JobStatus.paused sv = false ->
      Engine.step sv (Engine.Resume now)
      = Some (sv, Some (Engine.mkReply 400 (lit "No hay " ++ Engine.validacion
                                             ++ lit " pausada")))).
Proof.
  unfold Engine.currentIs, Engine.step, Engine.pause, Engine.resume.
  destruct (Storage.getCurrentJob (Engine.storage sv)) as [job |].
  - split; intros ->; reflexivity.
  - split; reflexivity.
Qed.

(** A pause on a job that is paused already, a resume on one that runs. *)
Lemma C9_pause_resume_rejected_witness :
  Engine.step Scenario.pausedJob (Engine.Pause 4)
  = Some (Scenario.pausedJob,
          Some (Engine.mkReply 400 (lit "No hay " ++ Engine.validacion ++ lit " en curso")))
  /\ Engine.step Scenario.resolving (Engine.Resume 4)
     = Some (Scenario.resolving,
             Some (Engine.mkReply 400 (lit "No hay " ++ Engine.validacion
                                        ++ lit " pausada"))).
Proof.
  split.
  - apply (proj1 (C9_pause_resume_rejected 4 Scenario.pausedJob)).
    vm_compute. reflexivity.
  - apply (proj2 (C9_pause_resume_rejected 4 Scenario.resolving)).
    vm_compute. reflexivity.
Defined.

(* ------------------------------------------------------------------ *)
(** ** Runs of the engine *)
(* ------------------------------------------------------------------ *)

(** C2.  The start handler does not look at the current job: with one
    job [running] and its record still pending, a second start request
    is answered with a 200 and leaves two jobs [running]. *)
Theorem C2_second_start_accepted :
  let before := Scenario.after [Engine.UploadFiles 1 [Scenario.fileA];
                                Engine.Start 2 Scenario.defaults] in
  map (fun job => (Job.id job, Job.status job)) (Engine.allJobs before)
  = [(1%Z, JobStatus.running)]
  /\ exists sv',
      Engine.step before (Engine.Start 3 Scenario.defaults)
      = Some (sv', Some (Engine.mkReply 200 (Engine.Validacion ++ lit " iniciada")))
      /\ map (fun job => (Job.id job, Job.status job)) (Engine.allJobs sv')
         = [(1%Z, JobStatus.running); (2%Z, JobStatus.running)]
      /\ length (filter Storage.isActive (Engine.allJobs sv')) = 2.
Proof.
  split; [vm_compute; reflexivity |].
  eexists. split; [vm_compute; reflexivity |].
  split; vm_compute; reflexivity.
Qed.

(** C3.  A stop request is accepted while the only batch of the job is
    on the network; when the attempt comes back the cycle finds the
    queue empty and marks the stopped job [completed]. *)
Theorem C3_stopped_job_completed :
  let stopped := Scenario.after [Engine.UploadFiles 1 [Scenario.fileA];
                                 Engine.Start 2 Scenario.defaults;
                                 Engine.Stop 3] in
  option_map (fun job => (Job.status job, Job.completedAt job)) (Engine.jobOf stopped 1)
  = Some (JobStatus.stopped, Some 3%Z)
  /\ exists sv',
      Engine.step stopped (Engine.Settle 4 Scenario.down 1) = Some (sv', None)
      /\ option_map (fun job => (Job.status job, Job.completedAt job)) (Engine.jobOf sv' 1)
         = Some (JobStatus.completed, Some 4%Z).
Proof.
  split; [vm_compute; reflexivity |].
  eexists. split; vm_compute; reflexivity.
Qed.

(** C4.  The counters of a cycle are taken over all the accounts of the
    store, the total of a job over the accounts pending when it
    started: the second of two jobs of one record each ends with two
    processed accounts out of a total of one. *)
Theorem C4_processed_exceeds_total :
  option_map
    (fun job => (Job.totalAccounts job, Job.processedAccounts job,
                 Job.validAccounts job, Job.invalidAccounts job, Job.errorAccounts job))
    (Engine.jobOf (Scenario.after Scenario.twoJobs) 2)
  = Some (1, 2, 0, 2, 0)%Z
  /\ Engine.run Engine.initial Scenario.twoJobs <> None.
Proof.
  split; vm_compute; [reflexivity | discriminate].
Qed.

(* ------------------------------------------------------------------ *)
(** ** The part of the counter invariant that every run keeps *)
(* ------------------------------------------------------------------ *)

Section Balance.

Import Storage Engine Stated.

Lemma count_split (l : list Account.t) :
  countWhere (fun a => negb (hasStatus AccountStatus.pending a)) l
  = (countWhere (hasStatus AccountStatus.valid) l
     + countWhere (hasStatus AccountStatus.invalid) l
     + countWhere (hasStatus AccountStatus.error) l)%Z.
Proof.
  unfold countWhere, hasStatus.
  induction l as [| a l IH]; [reflexivity |].
  cbn [filter]. destruct (Account.status a); cbn [AccountStatus.eqb negb length]; lia.
Qed.

Lemma get_value (V : Type) (m : JsMap.t V) (k : Z) (v : V) :
  JsMap.get m k = Some v -> In v (JsMap.values m).
Proof.
  induction m as [| [k' v'] m IH]; simpl; [discriminate |].
  destruct (k' =? k)%Z; [intros [= ->]; now left | right; auto].
Qed.

Lemma set_values (V : Type) (P : V -> Prop) (m : JsMap.t V) (k : Z) (v : V) :
  Forall P (JsMap.values m) -> P v -> Forall P (JsMap.values (JsMap.set m k v)).
Proof.
  intros Hall Hv. induction m as [| [k' v'] m IH]; simpl.
  - constructor; [exact Hv | constructor].
  - inversion Hall; subst. destruct (k' =? k)%Z; simpl; constructor; auto.
Qed.

Lemma balanced_updateJobStatus (now id : Z) (status : JobStatus.t) (st : MemStorage) :
  Balanced st -> Balanced (updateJobStatus now id status st).
Proof.
  unfold Balanced, updateJobStatus. intros H.
  destruct (JsMap.get (jobs st) id) as [job |] eqn:Hget; [| exact H].
  cbn [jobs withJobs]. apply set_values; [exact H |].
  assert (Hjob : balanced job).
  { eapply Forall_forall; [exact H | eapply get_value; exact Hget]. }
  destruct status; exact Hjob.
Qed.

Lemma balanced_updateJobProgress (id : Z) (l : list Account.t) (st : MemStorage) :
  Balanced st ->
  Balanced (updateJobProgress id
              (countWhere (fun a => negb (hasStatus AccountStatus.pending a)) l)
              (countWhere (hasStatus AccountStatus.valid) l)
              (countWhere (hasStatus AccountStatus.invalid) l)
              (countWhere (hasStatus AccountStatus.error) l) st).
Proof.
  unfold Balanced, updateJobProgress. intros H.
  destruct (JsMap.get (jobs st) id) as [job |]; [| exact H].
  cbn [jobs withJobs]. apply set_values; [exact H |].
  unfold balanced. cbn. apply count_split.
Qed.

Lemma balanced_addLog (now : Z) (level : Level.t) (message : jsstring) (st : MemStorage) :
  Balanced st -> Balanced (addLog now level message st).
Proof. exact (fun H => H). Qed.

Lemma jobs_updateAccountStatus (now id : Z) (status : AccountStatus.t)
      (u e : option jsstring) (st : MemStorage) :
  jobs (updateAccountStatus now id status u e st) = jobs st.
Proof. unfold updateAccountStatus. destruct (JsMap.get (accounts st) id); reflexivity. Qed.

Lemma jobs_createAccountsBatch (l : list InsertAccount) :
  forall st, jobs (fst (createAccountsBatch l st)) = jobs st.
Proof.
  induction l as [| a l IH]; intros st; [reflexivity |].
  cbn [createAccountsBatch].
  destruct (createAccount a st) as [st1 account] eqn:E1.
  destruct (createAccountsBatch l st1) as [st2 created] eqn:E2.
  cbn [fst]. change st2 with (fst (st2, created)). rewrite <- E2, IH.
  unfold createAccount in E1. injection E1 as <- _. reflexivity.
Qed.

Lemma balanced_uploadOne (now : Z) (st : MemStorage) (file : Upload) :
  Balanced st -> Balanced (uploadOne now st file).
Proof.
  unfold uploadOne, Balanced. intros H.
  destruct (negb (endsWith (originalname file) (lit ".txt"))); [exact H |].
  destruct (createFile now _ st) as [st1 uploadedFile] eqn:E1.
  destruct (createAccountsBatch _ st1) as [st2 created] eqn:E2.
  cbn [jobs addLog withLogs].
  change st2 with (fst (st2, created)). rewrite <- E2, jobs_createAccountsBatch.
  unfold createFile in E1. injection E1 as <- _. exact H.
Qed.

Lemma balanced_upload (now : Z) (files : list Upload) :
  forall st, Balanced st -> Balanced (fold_left (uploadOne now) files st).
Proof.
  induction files as [| file files IH]; intros st H; [exact H |].
  cbn [fold_left]. apply IH, balanced_uploadOne, H.
Qed.

Lemma jobs_deleteFile (id : Z) (st : MemStorage) :
  jobs (deleteFile id st) = jobs st.
Proof. reflexivity. Qed.

Lemma balanced_finishCycle (now : Z) (job : Job.t) (sv : Server) :
  Balanced (storage sv) -> Balanced (storage (finishCycle now job sv)).
Proof.
  intros H. unfold finishCycle.
  pose proof (balanced_updateJobProgress (Job.id job) (getAllAccounts (storage sv)) H) as Hp.
  destruct (getCurrentJob _) as [updatedJob |]; cbn [storage]; [| exact Hp].
  destruct (isRunning updatedJob && _); cbn [storage]; [exact Hp |].
  destruct (length (validationQueue sv) =? 0)%nat; cbn [storage]; [| exact Hp].
  apply balanced_updateJobStatus, Hp.
Qed.

Lemma balanced_awaitBatch (now : Z) (sv : Server) :
  Balanced (storage sv) -> Balanced (storage (awaitBatch now sv)).
Proof.
  intros H. unfold awaitBatch.
  destruct (cycle sv) as [[job [| x l]] |]; auto using balanced_finishCycle.
Qed.

Lemma balanced_announce (now : Z) (batch : list QueueItem) :
  forall st, Balanced st ->
             Balanced (fold_left
                         (fun st account =>
                            addLog now Level.info
                                   (lit "Validando " ++ email account ++ lit "...") st)
                         batch st).
Proof.
  induction batch as [| a batch IH]; intros st H; [exact H |].
  cbn [fold_left]. apply IH, balanced_addLog, H.
Qed.

Lemma balanced_processValidationQueue (now : Z) (sv : Server) :
  Balanced (storage sv) -> Balanced (storage (processValidationQueue now sv)).
Proof.
  intros H. unfold processValidationQueue.
  destruct (isValidating sv || _); [exact H |].
  destruct (getCurrentJob (storage sv)) as [job |]; [| exact H].
  destruct (isRunning job); [| exact H].
  apply balanced_awaitBatch. cbn [storage]. apply balanced_announce, H.
Qed.

Lemma balanced_record (now : Z) (account : QueueItem) (result : Prober.Result)
      (st : MemStorage) :
  Balanced st -> Balanced (record now account result st).
Proof.
  unfold record, Balanced. intros H.
  destruct (Prober.valid result); cbn [jobs addLog withLogs];
    rewrite jobs_updateAccountStatus; exact H.
Qed.

Lemma balanced_step (sv sv' : Server) (e : Event) (r : option Reply) :
  Balanced (storage sv) -> step sv e = Some (sv', r) -> Balanced (storage sv').
Proof.
  intros H. destruct e as [now files | fileId | | now body | now | now | now | now
                          | now fetch accountId]; cbn [step].
  - unfold upload. destruct files as [| f files]; intros [= <- _]; [exact H |].
    cbn [storage withStorage]. apply (balanced_upload now (f :: files)), H.
  - intros [= <- _]. exact H.
  - intros [= <- _]. exact H.
  - unfold start. destruct (parseSettings body) as [settings |]; [| intros [= <- _]; exact H].
    cbn [storage]. destruct (length _ =? 0)%nat; [intros [= <- _]; exact H |].
    cbn [createValidationJob]. intros [= <- _].
    apply balanced_processValidationQueue. cbn [storage].
    apply balanced_addLog, balanced_updateJobStatus.
    unfold Balanced. cbn [jobs withJobs]. apply set_values; [exact H |].
    unfold balanced. reflexivity.
  - unfold pause. destruct (getCurrentJob (storage sv)) as [job |];
      [| intros [= <- _]; exact H].
    destruct (JobStatus.eqb _ _); intros [= <- _]; [| exact H].
    cbn [storage withStorage]. apply balanced_addLog, balanced_updateJobStatus, H.
  - unfold resume. destruct (getCurrentJob (storage sv)) as [job |];
      [| intros [= <- _]; exact H].
    destruct (JobStatus.eqb _ _); intros [= <- _]; [| exact H].
    apply balanced_processValidationQueue. cbn [storage withStorage].
    apply balanced_addLog, balanced_updateJobStatus, H.
  - unfold stop. destruct (getCurrentJob (storage sv)) as [job |];
      [| intros [= <- _]; exact H].
    destruct (isActive job); intros [= <- _]; [| exact H].
    cbn [storage]. apply balanced_addLog, balanced_updateJobStatus, H.
  - destruct (timers sv) as [| n]; [discriminate |]. intros [= <- _].
    apply balanced_processValidationQueue. exact H.
  - unfold settle. destruct (cycle sv) as [c |]; [| discriminate].
    destruct (take accountId (waiting c)) as [[[account storeUrl] rest] |]; [| discriminate].
    intros [= <- _]. apply balanced_awaitBatch. cbn [storage].
    rewrite attempted_settled. apply balanced_record, H.
Qed.

(** In every state a run can reach, the counters of every job add up:
    processed = valid + invalid + error. *)
Lemma counters_add_up (events : list Event) :
  forall sv sv', Balanced (storage sv) -> run sv events = Some sv' ->
                 forall job, In job (allJobs sv') -> balanced job.
Proof.
  induction events as [| e events IH]; intros sv sv' H; cbn [run].
  - intros [= <-] job Hin. eapply Forall_forall; [exact H | exact Hin].
  - destruct (step sv e) as [[sv1 r] |] eqn:Hstep; [| discriminate].
    apply IH. eapply balanced_step; eauto.
Qed.

End Balance.

(** From the initial state on, the counters of every job add up. *)
Corollary counters_add_up_from_start (events : list Engine.Event) (sv : Engine.Server) :
  Engine.run Engine.initial events = Some sv ->
  forall job, In job (Engine.allJobs sv) -> Stated.balanced job.
Proof.
  apply counters_add_up. constructor.
Qed.

(** Two jobs, every attempt failing on the network. *)
Lemma counters_add_up_from_start_witness :
  Forall Stated.balanced (Engine.allJobs (Scenario.after Scenario.twoJobs)).
Proof.
  apply Forall_forall. intros job Hin.
  refine (@counters_add_up_from_start Scenario.twoJobs (Scenario.after Scenario.twoJobs)
                                     _ job Hin).
  vm_compute. reflexivity.
Defined.

(* ------------------------------------------------------------------ *)
(** ** More on the resolver and the prober *)
(* ------------------------------------------------------------------ *)

Section ResolverFacts.

Import Prober Attempt.

Variable fetch : Fetch.

Lemma discoverLoop_found (username : jsstring) (domains : list jsstring) :
  success (discoverLoop fetch username domains) = true ->
  exists before domain after,
    domains = before ++ domain :: after
    /\ Forall (fun d => reachable fetch (lit "https://" ++ username ++ d) = false) before
    /\ reachable fetch (lit "https://" ++ username ++ domain) = true
    /\ foundUrl (discoverLoop fetch username domains)
       = Some (lit "https://" ++ username ++ domain).
Proof.
  induction domains as [| d rest IH]; [discriminate |].
  cbn [discoverLoop].
  destruct (reachable fetch (lit "https://" ++ username ++ d)) eqn:Hr;
    unfold reachable in Hr;
    destruct (fetch (headRequest (lit "https://" ++ username ++ d))) as [response | m] eqn:Hf;
    try discriminate.
  - rewrite Hr. intros _. exists [], d, rest.
    repeat split; [constructor | unfold reachable; now rewrite Hf].
  - rewrite Hr. intros Hs. destruct (IH Hs) as (before & domain & after & -> & Hb & Hd & Hu).
    exists (d :: before), domain, after. repeat split; auto.
    constructor; [unfold reachable; now rewrite Hf | exact Hb].
  - intros Hs. destruct (IH Hs) as (before & domain & after & -> & Hb & Hd & Hu).
    exists (d :: before), domain, after. repeat split; auto.
    constructor; [unfold reachable; now rewrite Hf | exact Hb].
Qed.

Lemma discoverLoop_none (username : jsstring) (domains : list jsstring) :
  success (discoverLoop fetch username domains) = false ->
  forall d, In d domains -> reachable fetch (lit "https://" ++ username ++ d) = false.
Proof.
  induction domains as [| d0 rest IH]; intros Hs d Hin; [destruct Hin |].
  cbn [discoverLoop] in Hs.
  destruct (reachable fetch (lit "https://" ++ username ++ d0)) eqn:Hr;
    unfold reachable in Hr;
    destruct (fetch (headRequest (lit "https://" ++ username ++ d0))) as [response | m] eqn:Hf;
    try discriminate.
  - rewrite Hr in Hs. discriminate.
  - rewrite Hr in Hs. destruct Hin as [<- | Hin]; [| now apply IH].
    unfold reachable. now rewrite Hf.
  - destruct Hin as [<- | Hin]; [| now apply IH].
    unfold reachable. now rewrite Hf.
Qed.

End ResolverFacts.

(** The resolver answers with the first candidate, in the order of the
    domains, that answers the probe with a 200, and with no candidate
    that did not; it fails exactly when none does. *)
Theorem discover_first_reachable (fetch : Fetch) (email : jsstring) :
  let d := Prober.discoverTiendaNubeStore fetch email in
  (Prober.success d = false <-> Attempt.Exhausted fetch email)
  /\ (Prober.success d = true ->
      exists before domain after,
        Prober.commonDomains = before ++ domain :: after
        /\ Forall (fun x => Attempt.reachable fetch (Attempt.candidate email x) = false) before
        /\ Attempt.reachable fetch (Attempt.candidate email domain) = true
        /\ Prober.foundUrl d = Some (Attempt.candidate email domain)).
Proof.
  cbv zeta. unfold Prober.discoverTiendaNubeStore, Attempt.Exhausted, Attempt.candidate.
  split; [split |].
  - apply discoverLoop_none.
  - apply discoverLoop_exhausted.
  - apply discoverLoop_found.
Qed.

(** Only the second domain answers: the second candidate is returned. *)
Lemma discover_first_reachable_witness :
  exists before domain after,
    Prober.commonDomains = before ++ domain :: after
    /\ Forall (fun x => Attempt.reachable Sample.secondDomain
                          (Attempt.candidate (lit "bob@x.com") x) = false) before
    /\ Attempt.reachable Sample.secondDomain
         (Attempt.candidate (lit "bob@x.com") domain) = true
    /\ Prober.foundUrl (Prober.discoverTiendaNubeStore Sample.secondDomain (lit "bob@x.com"))
       = Some (Attempt.candidate (lit "bob@x.com") domain).
Proof.
  apply (proj2 (discover_first_reachable Sample.secondDomain (lit "bob@x.com"))).
  vm_compute. reflexivity.
Defined.

(** The prober always answers, and with one of six outcomes: accepted,
    with the endpoint it used and no detail; or not valid, with no
    endpoint and one of the five details (no shop found, login page
    refused, credentials refused, nothing recognised, connection error),
    none of which is empty. *)
Theorem validate_outcomes (fetch : Fetch) (email password : jsstring)
        (storeUrl : option jsstring) :
  let r := Prober.validateTiendaNubeAccount fetch email password storeUrl in
  (Prober.valid r = true ->
   Prober.error r = None
   /\ exists endpoint, Prober.resolve fetch email storeUrl = Some endpoint
                       /\ Prober.storeUrl r = Some endpoint)
  /\ (Prober.valid r = false ->
      Prober.storeUrl r = None
      /\ (exists c detail, Prober.error r = Some (c :: detail))
      /\ (Prober.error r = Some Prober.noStoreFound
          \/ Prober.error r = Some Prober.noLoginPage
          \/ Prober.error r = Some Prober.badCredentials
          \/ Prober.error r = Some Prober.notVerified
          \/ exists message, Prober.error r = Some (Prober.connectionError message))).
Proof.
  cbv zeta. unfold Prober.validateTiendaNubeAccount, Prober.attempt, Prober.login.
  destruct (Prober.resolve fetch email storeUrl) as [endpoint |];
    [destruct (fetch _) as [page | message];
     [destruct (negb (ok page));
      [| destruct (text page) as [html | message];
         [destruct (fetch _) as [answer | message];
          [destruct (text answer) as [responseText | message];
           [unfold Prober.classify;
            destruct (_ && Prober.redirectsToDashboard _);
            [| destruct (Prober.anyIncluded responseText Prober.successMarkers);
               [| destruct (Prober.anyIncluded responseText Prober.failureMarkers)]] |] |] |]] |] |];
    cbn [Prober.valid Prober.storeUrl Prober.error];
    (split; [try discriminate | try discriminate]); intros _;
    try solve [split; [reflexivity | eauto]];
    (split; [reflexivity | split; [eexists; eexists; reflexivity | eauto 10]]).
Qed.

(** When the submission is answered with a status that is neither 301
    nor 302, the [Location] header plays no part: the attempt is
    accepted exactly when the body holds a session marker, and a session
    marker wins over an invalid-credential marker; without one the
    detail is [Credenciales incorrectas] exactly when the body holds an
    invalid-credential marker.  This holds for every submission: on
    the endpoint stored with the record, and on the endpoint that the
    resolver found when none is stored. *)
Theorem body_markers_decide
        (fetch : Fetch) (email password : jsstring) (storeUrl : option jsstring)
        (endpoint : jsstring) (answer : Response) (responseText : jsstring) :
  Prober.resolve fetch email storeUrl = Some endpoint ->
  Attempt.Answered fetch email password endpoint answer responseText ->
  status answer <> 301%Z -> status answer <> 302%Z ->
  let r := Prober.validateTiendaNubeAccount fetch email password storeUrl in
  (Prober.valid r = true
   <-> Prober.anyIncluded responseText Prober.successMarkers = true)
  /\ (Prober.error r = Some Prober.badCredentials
      <-> Prober.anyIncluded responseText Prober.successMarkers = false
          /\ Prober.anyIncluded responseText Prober.failureMarkers = true)
  /\ (Prober.error r = Some Prober.notVerified
      <-> Prober.anyIncluded responseText Prober.successMarkers = false
          /\ Prober.anyIncluded responseText Prober.failureMarkers = false).
Proof.
  intros Hr Hans H301 H302. cbv zeta.
  unfold Prober.validateTiendaNubeAccount, Prober.attempt.
  rewrite Hr, (login_answered Hans). unfold Prober.classify.
  assert (Hs : ((status answer =? 302)%Z || (status answer =? 301)%Z) = false).
  { apply orb_false_iff. split; apply Z.eqb_neq; assumption. }
  rewrite Hs. cbn [andb].
  assert (Hdiff : Prober.badCredentials <> Prober.notVerified) by (vm_compute; discriminate).
  destruct (Prober.anyIncluded responseText Prober.successMarkers);
    [| destruct (Prober.anyIncluded responseText Prober.failureMarkers)];
    cbn [Prober.valid Prober.error]; repeat split;
    try congruence; try tauto; try (intros [? ?]; congruence).
Qed.

(** A page with [Log out] and [error], on the endpoint that the
    resolver found for a record without one: accepted. *)
Lemma body_markers_decide_witness :
  Prober.valid (Prober.validateTiendaNubeAccount
                  Sample.welcoming (lit "user@foo.com") (lit "pass1") None) = true
  /\ Prober.anyIncluded (lit "<a>Log out</a> no error") Prober.failureMarkers = true.
Proof.
  split; [| vm_compute; reflexivity].
  apply (proj1 (@body_markers_decide
                  Sample.welcoming (lit "user@foo.com") (lit "pass1") None
                  (lit "https://user.mitiendanube.com") Sample.welcome
                  (lit "<a>Log out</a> no error")
                  ltac:(vm_compute; reflexivity)
                  ltac:(apply Attempt.answered
                          with (page := Scenario.loginPage) (html := lit "<form>");
                        reflexivity)
                  ltac:(discriminate) ltac:(discriminate))).
  vm_compute. reflexivity.
Defined.

(* ------------------------------------------------------------------ *)
(** ** More on the parser: lines are parsed one by one *)
(* ------------------------------------------------------------------ *)

Section ParserLines.

Import Parser.

Lemma startsWith_nil (s : jsstring) : startsWith s [] = true.
Proof. destruct s; reflexivity. Qed.

Lemma startsWith_single (x c : N) (s : jsstring) :
  startsWith (x :: s) [c] = N.eqb x c.
Proof. cbn [startsWith]. rewrite startsWith_nil. apply andb_true_r. Qed.

Lemma splitGo_newline (a b : jsstring) :
  forall cur, splitGo [10%N] (a ++ 10%N :: b) cur 0
              = splitGo [10%N] a cur 0 ++ splitGo [10%N] b [] 0.
Proof.
  induction a as [| x a IH]; intros cur.
  - cbn [app splitGo]. rewrite startsWith_single. reflexivity.
  - cbn [app splitGo]. rewrite !startsWith_single.
    destruct (N.eqb x 10); cbn [length Nat.sub].
    + rewrite IH. reflexivity.
    + apply IH.
Qed.

Lemma linesOf_newline (a b : jsstring) :
  linesOf (a ++ 10%N :: b) = linesOf a ++ linesOf b.
Proof.
  unfold linesOf, split. rewrite splitGo_newline. apply filter_app.
Qed.

Lemma trimStart_blank (s : jsstring) :
  Forall (fun c => isWhiteSpace c = true) s -> trimStart s = [].
Proof.
  induction 1 as [| c s Hc _ IH]; [reflexivity |].
  cbn [trimStart]. now rewrite Hc.
Qed.

Lemma splitGo_blank (s : jsstring) :
  forall cur,
    Forall (fun c => isWhiteSpace c = true) s ->
    Forall (fun c => isWhiteSpace c = true) cur ->
    Forall (fun piece => trim piece = []) (splitGo [10%N] s cur 0).
Proof.
  induction s as [| x s IH]; intros cur Hs Hcur.
  - constructor; [| constructor].
    unfold trim. rewrite trimStart_blank; [reflexivity |].
    apply Forall_rev. exact Hcur.
  - inversion Hs as [| ? ? Hx Hs']; subst.
    cbn [splitGo]. rewrite startsWith_single.
    destruct (N.eqb x 10); cbn [length Nat.sub].
    + constructor; [| apply IH; [exact Hs' | constructor]].
      unfold trim. rewrite trimStart_blank; [reflexivity |].
      apply Forall_rev. exact Hcur.
    + apply IH; [exact Hs' | constructor; assumption].
Qed.

End ParserLines.

(** Parsing goes line by line: the records of two texts joined by a
    line feed are the records of the first followed by those of the
    second. *)
Theorem parse_joined_texts (a b : jsstring) :
  Parser.parseAccountFile (a ++ [10%N] ++ b)
  = Parser.parseAccountFile a ++ Parser.parseAccountFile b.
Proof.
  unfold Parser.parseAccountFile. rewrite !fold_parseLine. cbn [app].
  rewrite linesOf_newline. apply flat_map_app.
Qed.

(** A text made of white space only (line feeds, carriage returns,
    blanks, tabs, no-break spaces, ...) gives no record. *)
Theorem parse_blank_text (content : jsstring) :
  Forall (fun c => isWhiteSpace c = true) content ->
  Parser.parseAccountFile content = [].
Proof.
  intros Hblank. unfold Parser.parseAccountFile, Parser.linesOf, split.
  pose proof (splitGo_blank Hblank (Forall_nil _)) as Hpieces.
  induction Hpieces as [| piece pieces Hp _ IH]; [reflexivity |].
  cbn [filter]. rewrite Hp. exact IH.
Qed.

(** Blank lines ending in carriage returns, and a no-break space. *)
Lemma parse_blank_text_witness :
  Parser.parseAccountFile [13; 10; 32; 9; 13; 10; 160]%N = [].
Proof.
  apply parse_blank_text. repeat constructor.
Defined.

(* ------------------------------------------------------------------ *)
(** ** More on the parser: the fields are text of the line *)
(* ------------------------------------------------------------------ *)

Section RegexFacts.

Variable R : Type.

(** Any result of the matcher was handed out by its continuation. *)
Lemma run_continues (r : regex) :
  forall (s : jsstring) (cap : option jsstring)
         (k : jsstring -> option jsstring -> option R) (x : R),
    run r s cap k = Some x -> exists s' cap', k s' cap' = Some x.
Proof.
  induction r as [| p | a IHa b IHb | a IHa b IHb | greedy a IHa | a IHa |];
    intros s cap k x; cbn [run].
  - eauto.
  - destruct s as [| c s]; [discriminate |]. destruct (p c); [eauto | discriminate].
  - intros H. apply IHa in H as (s1 & cap1 & H). eapply IHb, H.
  - destruct (run a s cap k) eqn:Ha.
    + intros [= <-]. eapply IHa, Ha.
    + apply IHb.
  - generalize (length s) as fuel. intros fuel. revert s cap.
    induction fuel as [| fuel IHf]; intros s cap.
    + eauto.
    + destruct greedy.
      * destruct (run a s cap _) eqn:Ha.
        -- intros [= <-]. apply IHa in Ha as (s1 & cap1 & Ha).
           destruct (length s1 <? length s)%nat; [| discriminate].
           eapply IHf, Ha.
        -- eauto.
      * destruct (k s cap) eqn:Hk.
        -- intros [= <-]. eauto.
        -- intros Ha. apply IHa in Ha as (s1 & cap1 & Ha).
           destruct (length s1 <? length s)%nat; [| discriminate].
           eapply IHf, Ha.
  - intros H. apply IHa in H as (s1 & cap1 & H). eauto.
  - destruct s; [eauto | discriminate].
Qed.

End RegexFacts.

Lemma matchAt_prefix (r : regex) (s m : jsstring) (cap : option jsstring) :
  matchAt r s = Some (m, cap) -> exists n, m = firstn n s.
Proof.
  unfold matchAt. intros H. apply run_continues in H as (s' & cap' & [= <- _]). eauto.
Qed.

Section FromTheLine.

Import Parser.

Lemma incl_firstn (A : Type) (n : nat) (l : list A) : incl (firstn n l) l.
Proof.
  intros x Hx. rewrite <- (firstn_skipn n l). apply in_or_app. now left.
Qed.

Lemma incl_skipn (A : Type) (n : nat) (l : list A) : incl (skipn n l) l.
Proof.
  intros x Hx. rewrite <- (firstn_skipn n l). apply in_or_app. now right.
Qed.

Lemma matchAt_incl (r : regex) (s m : jsstring) (cap : option jsstring) :
  matchAt r s = Some (m, cap) -> incl m s.
Proof.
  intros H. apply matchAt_prefix in H as [n ->]. apply incl_firstn.
Qed.

Lemma search_incl (r : regex) (s m : jsstring) (cap : option jsstring) :
  search r s = Some (m, cap) -> incl m s.
Proof.
  induction s as [| c s IH]; cbn [search].
  - destruct (matchAt r []) as [[m' cap'] |] eqn:Hm; [| discriminate].
    intros [= -> _]. eapply matchAt_incl, Hm.
  - destruct (matchAt r (c :: s)) as [[m' cap'] |] eqn:Hm.
    + intros [= -> _]. eapply matchAt_incl, Hm.
    + intros H. apply incl_tl, IH, H.
Qed.

Lemma within_tl (c : N) (s : jsstring) (l : list (N + jsstring)) :
  Forall (within s) l -> Forall (within (c :: s)) l.
Proof.
  intros H. eapply Forall_impl; [| exact H].
  intros [x | m]; cbn; [now right | apply incl_tl].
Qed.

Lemma scan_within (r : regex) (s : jsstring) :
  forall skip, Forall (within s) (scan r s skip).
Proof.
  induction s as [| c s IH]; intros skip; cbn [scan].
  - destruct skip; [| constructor].
    destruct (matchAt r []) as [[m cap] |] eqn:Hm; constructor; [| constructor].
    eapply matchAt_incl, Hm.
  - destruct skip as [| k]; [| apply within_tl, IH].
    destruct (matchAt r (c :: s)) as [[m cap] |] eqn:Hm.
    + destruct (length m); constructor;
        try (cbn; eapply matchAt_incl, Hm);
        [constructor; [now left |] |]; apply within_tl, IH.
    + constructor; [now left | apply within_tl, IH].
Qed.

Lemma matchesOf_incl (s : jsstring) (l : list (N + jsstring)) :
  Forall (within s) l -> Forall (fun m => incl m s) (matchesOf l).
Proof.
  induction 1 as [| [c | m] l Hx _ IH]; cbn [matchesOf]; auto.
Qed.

Lemma outsideOf_incl (s : jsstring) (l : list (N + jsstring)) :
  Forall (within s) l -> incl (outsideOf l) s.
Proof.
  induction 1 as [| [c | m] l Hx _ IH]; cbn [outsideOf]; auto using incl_nil_l, incl_cons.
Qed.

Lemma piecesOf_incl (s : jsstring) (l : list (N + jsstring)) :
  Forall (within s) l ->
  forall cur, incl cur s -> Forall (fun piece => incl piece s) (piecesOf l cur).
Proof.
  induction 1 as [| [c | m] l Hx _ IH]; intros cur Hcur; cbn [piecesOf].
  - constructor; [| constructor]. intros x Hin. apply Hcur. now apply in_rev.
  - apply IH. auto using incl_cons.
  - constructor; [| apply IH, incl_nil_l]. intros x Hin. apply Hcur. now apply in_rev.
Qed.

Lemma removeLeftmost_incl (r : regex) (s : jsstring) : incl (removeLeftmost r s) s.
Proof.
  induction s as [| c s IH]; cbn [removeLeftmost].
  - destruct (matchAt r []) as [[m cap] |]; [apply incl_skipn | apply incl_refl].
  - destruct (matchAt r (c :: s)) as [[m cap] |]; [apply incl_skipn |].
    apply incl_cons; [now left | apply incl_tl, IH].
Qed.

Lemma removeFirst_incl (s p : jsstring) : incl (removeFirst s p) s.
Proof.
  induction s as [| c s IH]; cbn [removeFirst].
  - destruct (startsWith [] p); [apply incl_skipn | apply incl_refl].
  - destruct (startsWith (c :: s) p); [apply incl_skipn |].
    apply incl_cons; [now left | apply incl_tl, IH].
Qed.

Lemma trimStart_incl (s : jsstring) : incl (trimStart s) s.
Proof.
  induction s as [| c s IH]; cbn [trimStart]; [apply incl_refl |].
  destruct (isWhiteSpace c); [apply incl_tl, IH | apply incl_refl].
Qed.

Lemma trim_incl (s : jsstring) : incl (trim s) s.
Proof.
  unfold trim, trimEnd. intros x Hx.
  apply trimStart_incl. apply in_rev. apply trimStart_incl. now apply in_rev.
Qed.

Lemma splitGo_incl (sep s : jsstring) :
  forall cur skip all,
    incl s all -> incl cur all ->
    Forall (fun piece => incl piece all) (splitGo sep s cur skip).
Proof.
  induction s as [| c s IH]; intros cur skip all Hs Hcur; cbn [splitGo].
  - constructor; [| constructor]. intros x Hin. apply Hcur. now apply in_rev.
  - assert (Hs' : incl s all) by (intros x Hx; apply Hs; now right).
    assert (Hc : In c all) by (apply Hs; now left).
    destruct skip; [| now apply IH].
    destruct (startsWith (c :: s) sep).
    + constructor; [| apply IH; [exact Hs' | apply incl_nil_l]].
      intros x Hin. apply Hcur. now apply in_rev.
    + apply IH; [exact Hs' | now apply incl_cons].
Qed.

Lemma partsOf_incl (cleanLine sep : jsstring) :
  Forall (fun piece => incl piece cleanLine) (partsOf cleanLine sep).
Proof.
  unfold partsOf. apply Forall_forall. intros piece Hin.
  apply filter_In in Hin as [Hin _]. apply in_map_iff in Hin as (raw & <- & Hraw).
  eapply incl_tran; [apply trim_incl |].
  unfold split in Hraw. destruct sep as [| d sep].
  - apply in_map_iff in Hraw as (c & <- & Hc). intros x [<- | []]. exact Hc.
  - revert raw Hraw. apply Forall_forall.
    apply splitGo_incl; [apply incl_refl | apply incl_nil_l].
Qed.

Lemma found_incl (f : jsstring -> bool) (cleanLine sep x : jsstring) :
  find f (partsOf cleanLine sep) = Some x -> incl x cleanLine.
Proof.
  intros H. apply find_some in H as [Hin _].
  revert x Hin. apply Forall_forall, partsOf_incl.
Qed.

Lemma separatorLoop_incl (cleanLine : jsstring) (seps : list jsstring) :
  forall email password,
    incl email cleanLine -> incl password cleanLine ->
    incl (fst (separatorLoop seps cleanLine email password)) cleanLine
    /\ incl (snd (separatorLoop seps cleanLine email password)) cleanLine.
Proof.
  induction seps as [| sep rest IH]; intros email password He Hp; cbn [separatorLoop].
  - auto.
  - destruct (includes cleanLine sep); [| now apply IH].
    destruct (2 <=? length (partsOf cleanLine sep))%nat; [| now apply IH].
    destruct (find isEmailPart (partsOf cleanLine sep)) as [[| c e] |] eqn:Hfe; auto.
    pose proof (found_incl _ _ _ Hfe) as Hemail.
    destruct (find (isPasswordPart (c :: e)) (partsOf cleanLine sep)) as [[| d p] |] eqn:Hfp;
      cbn [fst snd]; auto.
    split; [exact Hemail | eapply found_incl, Hfp].
Qed.

Lemma restOfLine_incl (cleanLine email : jsstring) :
  incl (restOfLine cleanLine email) cleanLine.
Proof.
  unfold restOfLine, splitRe.
  pose proof (@piecesOf_incl (trim (removeFirst cleanLine email)) _
                             (scan_within whiteSpaces _ 0) [] (incl_nil_l _)) as H.
  destruct (piecesOf _ _) as [| p rest]; [apply incl_nil_l |].
  inversion H; subst.
  eapply incl_tran; [eassumption |].
  eapply incl_tran; [apply trim_incl | apply removeFirst_incl].
Qed.

Lemma recover_incl (line : jsstring) :
  let '(email, password, storeUrl) := recover line in
  incl email line /\ incl password line /\ incl storeUrl line.
Proof.
  unfold recover.
  set (cleanLine := trim (removeAll tiendaNubeUrlRegex line)).
  assert (Hclean : incl cleanLine line).
  { eapply incl_tran; [apply trim_incl |]. apply outsideOf_incl, scan_within. }
  destruct (@separatorLoop_incl cleanLine separators [] [] (incl_nil_l _) (incl_nil_l _))
    as [He Hp].
  destruct (separatorLoop separators cleanLine [] []) as [email password].
  cbn [fst snd] in He, Hp.
  assert (Hurl : incl match matchAll tiendaNubeUrlRegex line with
                      | [] => []
                      | m :: _ => removeLeftmost trailingSlash m
                      end line).
  { pose proof (@matchesOf_incl line _ (scan_within tiendaNubeUrlRegex line 0)) as Hm.
    unfold matchAll. destruct (matchesOf _) as [| m rest]; [apply incl_nil_l |].
    inversion Hm; subst. eapply incl_tran; [apply removeLeftmost_incl | assumption]. }
  destruct (negb (truthy email) || negb (truthy password)).
  - destruct (search emailRegex cleanLine) as [[m cap] |] eqn:Hs.
    + repeat split; [| | exact Hurl].
      * eapply incl_tran; [eapply search_incl, Hs | exact Hclean].
      * eapply incl_tran; [apply restOfLine_incl | exact Hclean].
    + repeat split; eauto using incl_tran.
  - repeat split; eauto using incl_tran.
Qed.

Lemma includes_single (s : jsstring) (c : N) :
  includes s [c] = true -> In c s.
Proof.
  induction s as [| x s IH]; cbn [includes].
  - discriminate.
  - rewrite startsWith_single. destruct (N.eqb x c) eqn:E.
    + intros _. left. now apply N.eqb_eq.
    + cbn [orb]. intros H. right. now apply IH.
Qed.

End FromTheLine.

Section NoAt.

Import Parser.

Lemma in_includes_single (s : jsstring) (c : N) :
  In c s -> includes s [c] = true.
Proof.
  induction s as [| x s IH]; intros Hin; [destruct Hin |].
  cbn [includes]. rewrite startsWith_single.
  destruct Hin as [-> | Hin].
  - now rewrite N.eqb_refl.
  - rewrite (IH Hin). apply orb_true_r.
Qed.

Lemma line_incl (content line : jsstring) :
  In line (linesOf content) -> incl line content.
Proof.
  unfold linesOf, split. intros Hin. apply filter_In in Hin as [Hin _].
  revert line Hin. apply Forall_forall.
  apply splitGo_incl; [apply incl_refl | apply incl_nil_l].
Qed.

Lemma parseLine_fields (line : jsstring) :
  Forall (fun r => incl (email r) line /\ incl (password r) line
                   /\ match storeUrl r with
                      | Some u => incl u line
                      | None => True
                      end)
         (parseLine [] line).
Proof.
  unfold parseLine. pose proof (recover_incl line) as H.
  destruct (recover line) as [[e p] u]. destruct H as (He & Hp & Hu).
  destruct (accepted e p); constructor; [| constructor].
  cbn. repeat split; auto. destruct (truthy u); auto.
Qed.

End NoAt.

(** The parser invents nothing: the identifier, the secret and the
    endpoint of a record are made of code units of the line it comes
    from. *)
Theorem parsed_fields_from_line (content : jsstring) :
  Forall (fun r => exists line,
              In line (Parser.linesOf content)
              /\ incl (Parser.email r) line
              /\ incl (Parser.password r) line
              /\ match Parser.storeUrl r with
                 | Some u => incl u line
                 | None => True
                 end)
         (Parser.parseAccountFile content).
Proof.
  unfold Parser.parseAccountFile. rewrite fold_parseLine. cbn [app].
  apply Forall_forall. intros r Hin.
  apply in_flat_map in Hin as (line & Hline & Hr).
  exists line. split; [exact Hline |].
  pose proof (parseLine_fields line) as H.
  rewrite Forall_forall in H. exact (H r Hr).
Qed.

(** A text without any [@] gives no record. *)
Theorem parse_without_at (content : jsstring) :
  includes content (lit "@") = false ->
  Parser.parseAccountFile content = [].
Proof.
  intros Hno.
  unfold Parser.parseAccountFile. rewrite fold_parseLine. cbn [app].
  assert (Hall : forall line, In line (Parser.linesOf content) ->
                              Parser.parseLine [] line = []).
  { intros line Hline.
    destruct (Parser.parseLine [] line) as [| r rest] eqn:Hp; [reflexivity |].
    exfalso.
    pose proof (parseLine_fields line) as Hf.
    pose proof (parseLine_wellFormed line) as Hw.
    rewrite Hp in Hf, Hw. inversion Hf as [| ? ? (He & _) _]; subst.
    inversion Hw as [| ? ? (_ & Hat & _) _]; subst.
    apply includes_single in Hat.
    assert (Hin : In 64%N content) by (eapply line_incl; eauto).
    apply in_includes_single in Hin.
    change (lit "@") with [64%N] in Hno. congruence. }
  induction (Parser.linesOf content) as [| line lines IH]; [reflexivity |].
  cbn [flat_map]. rewrite (Hall line (or_introl eq_refl)). cbn [app].
  apply IH. intros l Hl. apply Hall. now right.
Qed.

(** Two lines with separators and no [@]. *)
Lemma parse_without_at_witness :
  Parser.parseAccountFile (lit "user:secret" ++ [10%N] ++ lit "shop.com pass") = [].
Proof.
  apply parse_without_at. vm_compute. reflexivity.
Defined.

(* ------------------------------------------------------------------ *)
(** ** The activity log, newest first *)
(* ------------------------------------------------------------------ *)

Section LogFacts.

Import LogView.

Lemma insert_perm (x : Log.t) (l : list Log.t) : Permutation (insert x l) (x :: l).
Proof.
  induction l as [| y l IH]; cbn [insert]; [reflexivity |].
  destruct (compare x y <=? 0)%Z; [reflexivity |].
  rewrite IH. apply perm_swap.
Qed.

Lemma sort_perm (l : list Log.t) : Permutation (sort l) l.
Proof.
  induction l as [| x l IH]; cbn [sort]; [reflexivity |].
  rewrite insert_perm. now constructor.
Qed.

Lemma insert_sorted (x : Log.t) (l : list Log.t) :
  StronglySorted newerFirst l -> StronglySorted newerFirst (insert x l).
Proof.
  induction 1 as [| y l Hl IH Hy]; cbn [insert].
  - repeat constructor.
  - unfold compare. destruct (time y - time x <=? 0)%Z eqn:E.
    + apply Z.leb_le in E. constructor; [now constructor |].
      constructor; [unfold newerFirst; lia |].
      eapply Forall_impl; [| exact Hy]. unfold newerFirst. intros z Hz. lia.
    + apply Z.leb_gt in E. constructor; [exact IH |].
      eapply Permutation_Forall; [symmetry; apply insert_perm |].
      constructor; [unfold newerFirst; lia | exact Hy].
Qed.

Lemma sort_sorted (l : list Log.t) : StronglySorted newerFirst (sort l).
Proof.
  induction l as [| x l IH]; cbn [sort]; [constructor | now apply insert_sorted].
Qed.

Lemma insert_stable (t : Z) (x : Log.t) (l : list Log.t) :
  StronglySorted newerFirst l ->
  filter (fun e => time e =? t)%Z (insert x l)
  = filter (fun e => time e =? t)%Z (x :: l).
Proof.
  induction 1 as [| y l Hl IH Hy]; cbn [insert]; [reflexivity |].
  unfold compare. destruct (time y - time x <=? 0)%Z eqn:E; [reflexivity |].
  apply Z.leb_gt in E.
  cbn [filter] in *. rewrite IH.
  destruct (time x =? t)%Z eqn:Ex; [| reflexivity].
  apply Z.eqb_eq in Ex.
  destruct (time y =? t)%Z eqn:Ey; [| reflexivity].
  apply Z.eqb_eq in Ey. lia.
Qed.

Lemma sort_stable (t : Z) (l : list Log.t) :
  filter (fun e => time e =? t)%Z (sort l) = filter (fun e => time e =? t)%Z l.
Proof.
  induction l as [| x l IH]; cbn [sort]; [reflexivity |].
  rewrite insert_stable by apply sort_sorted.
  cbn [filter]. now rewrite IH.
Qed.

End LogFacts.

(** [getLogs] on a log whose entries all carry a time stamp: the
    answer is the head of the entries put newest first, entries of the
    same instant staying in the order they were added; it never holds
    more than [limit] entries, and holds them all when [limit] is at
    least their number. *)
Theorem getLogs_newest_first (limit : Z) (st : Storage.MemStorage) :
  Forall (fun l => LogView.stamped l = true) (JsMap.values (Storage.logs st)) ->
  exists ordered,
    Permutation ordered (JsMap.values (Storage.logs st))
    /\ StronglySorted (fun a b => (LogView.time b <= LogView.time a)%Z) ordered
    /\ (forall t, filter (fun e => LogView.time e =? t)%Z ordered
                  = filter (fun e => LogView.time e =? t)%Z (JsMap.values (Storage.logs st)))
    /\ exists answer,
        LogView.getLogs limit st = Some answer
        /\ answer = firstn (length answer) ordered
        /\ (0 <= limit -> Z.of_nat (length answer) <= limit)%Z
        /\ (Z.of_nat (length ordered) <= limit -> answer = ordered)%Z.
Proof.
  intros Hst. exists (LogView.sort (JsMap.values (Storage.logs st))).
  split; [apply sort_perm |]. split; [apply sort_sorted |].
  split; [intros t; apply sort_stable |].
  unfold LogView.getLogs.
  assert (Hall : forallb LogView.stamped (JsMap.values (Storage.logs st)) = true).
  { apply forallb_forall. apply Forall_forall. exact Hst. }
  rewrite Hall, orb_true_r. eexists. split; [reflexivity |].
  unfold LogView.slice.
  set (ordered := LogView.sort _).
  set (n := Z.to_nat _).
  split; [| split].
  - rewrite length_firstn.
    destruct (Nat.le_ge_cases n (length ordered)) as [Hle | Hge].
    + now rewrite Nat.min_l.
    + rewrite Nat.min_r by exact Hge. now rewrite !firstn_all2 by lia.
  - intros Hlimit. rewrite length_firstn. subst n.
    destruct (limit <? 0)%Z eqn:E; [apply Z.ltb_lt in E; lia | lia].
  - intros Hlimit. apply firstn_all2. subst n.
    destruct (limit <? 0)%Z eqn:E; [apply Z.ltb_lt in E; lia | lia].
Qed.

(** Four entries, two of the same instant, the three newest asked for. *)
Lemma getLogs_newest_first_witness :
  exists ordered,
    Permutation ordered (JsMap.values (Storage.logs Sample.fourLogs))
    /\ StronglySorted (fun a b => (LogView.time b <= LogView.time a)%Z) ordered
    /\ (forall t, filter (fun e => LogView.time e =? t)%Z ordered
                  = filter (fun e => LogView.time e =? t)%Z
                           (JsMap.values (Storage.logs Sample.fourLogs)))
    /\ exists answer,
        LogView.getLogs 3 Sample.fourLogs = Some answer
        /\ answer = firstn (length answer) ordered
        /\ (0 <= 3 -> Z.of_nat (length answer) <= 3)%Z
        /\ (Z.of_nat (length ordered) <= 3 -> answer = ordered)%Z.
Proof.
  apply getLogs_newest_first. repeat constructor.
Defined.

(** The three newest of the four, the older of the two of instant 10. *)
Example getLogs_three_of_four :
  option_map (map Log.id) (LogView.getLogs 3 Sample.fourLogs) = Some [2; 4; 1]%Z.
Proof. vm_compute. reflexivity. Qed.

(* ------------------------------------------------------------------ *)
(** ** What every run keeps: identifiers, the batch, the counters *)
(* ------------------------------------------------------------------ *)

Section KeyedFacts.

Import Invariant.

Variable V : Type.
Variable idOf : V -> Z.

Lemma get_entry (m : JsMap.t V) (k : Z) (v : V) :
  JsMap.get m k = Some v -> In (k, v) m.
Proof.
  induction m as [| [k' v'] m IH]; cbn [JsMap.get]; [discriminate |].
  destruct (k' =? k)%Z eqn:E.
  - intros [= ->]. apply Z.eqb_eq in E. subst. now left.
  - intros H. right. now apply IH.
Qed.

Lemma get_absent (m : JsMap.t V) (k : Z) :
  ~ In k (keys m) -> JsMap.get m k = None.
Proof.
  induction m as [| [k' v'] m IH]; cbn [JsMap.get keys map fst]; [reflexivity |].
  intros Hno. destruct (k' =? k)%Z eqn:E.
  - apply Z.eqb_eq in E. subst. exfalso. apply Hno. now left.
  - apply IH. intros Hin. apply Hno. now right.
Qed.

Lemma entry_get (m : JsMap.t V) (k : Z) (v : V) :
  NoDup (keys m) -> In (k, v) m -> JsMap.get m k = Some v.
Proof.
  induction m as [| [k' v'] m IH]; cbn [JsMap.get keys map fst]; [intros _ [] |].
  intros Hnd [[= -> ->] | Hin].
  - now rewrite Z.eqb_refl.
  - inversion Hnd as [| ? ? Hk Hnd']; subst.
    destruct (k' =? k)%Z eqn:E.
    + apply Z.eqb_eq in E. subst. exfalso. apply Hk.
      change k with (fst (k, v)). now apply in_map.
    + now apply IH.
Qed.

Lemma set_absent (m : JsMap.t V) (k : Z) (v : V) :
  ~ In k (keys m) -> JsMap.set m k v = m ++ [(k, v)].
Proof.
  induction m as [| [k' v'] m IH]; cbn [JsMap.set keys map fst app]; [reflexivity |].
  intros Hno. destruct (k' =? k)%Z eqn:E.
  - apply Z.eqb_eq in E. subst. exfalso. apply Hno. now left.
  - rewrite IH; [reflexivity |]. intros Hin. apply Hno. now right.
Qed.

(** An update in place: the entry of [k] is replaced where it stands. *)
Lemma set_present (m : JsMap.t V) (k : Z) (old v : V) :
  JsMap.get m k = Some old ->
  exists before after,
    m = before ++ (k, old) :: after
    /\ JsMap.set m k v = before ++ (k, v) :: after
    /\ ~ In k (keys before).
Proof.
  induction m as [| [k' v'] m IH]; cbn [JsMap.get JsMap.set]; [discriminate |].
  destruct (k' =? k)%Z eqn:E.
  - intros [= ->]. apply Z.eqb_eq in E. subst. exists [], m. repeat split. intros [].
  - intros H. destruct (IH H) as (before & after & -> & -> & Hno).
    exists ((k', v') :: before), after. repeat split.
    cbn. intros [-> | Hin]; [rewrite Z.eqb_refl in E; discriminate | auto].
Qed.

Lemma Keyed_nil (next : Z) : Keyed idOf next [].
Proof. split; constructor. Qed.

Lemma Keyed_weaken (next next' : Z) (m : JsMap.t V) :
  (next <= next')%Z -> Keyed idOf next m -> Keyed idOf next' m.
Proof.
  intros Hle [Hnd Hall]. split; [exact Hnd |].
  eapply Forall_impl; [| exact Hall]. cbn. intros kv [Hid Hb]. split; [exact Hid | lia].
Qed.

Lemma Keyed_bound (next : Z) (m : JsMap.t V) (k : Z) :
  Keyed idOf next m -> In k (keys m) -> (0 < k < next)%Z.
Proof.
  intros [_ Hall] Hin. apply in_map_iff in Hin as ([k' v] & <- & Hin).
  rewrite Forall_forall in Hall. apply (Hall _ Hin).
Qed.

Lemma Keyed_fresh (next : Z) (m : JsMap.t V) :
  Keyed idOf next m -> ~ In next (keys m).
Proof.
  intros HK Hin. assert (0 < next < next)%Z by (eapply Keyed_bound; eauto). lia.
Qed.

Lemma Keyed_add (next : Z) (m : JsMap.t V) (v : V) :
  Keyed idOf next m -> (0 < next)%Z -> idOf v = next ->
  Keyed idOf (next + 1) (JsMap.set m next v).
Proof.
  intros HK Hpos Hid. rewrite set_absent by (eapply Keyed_fresh; eauto).
  assert (Hfresh : ~ In next (keys m)) by (eapply Keyed_fresh; eauto).
  destruct HK as [Hnd Hall]. split.
  - unfold keys. rewrite map_app. cbn [map fst].
    apply NoDup_app_remove_l with (l := []). cbn [app].
    apply Permutation_NoDup with (l := next :: map fst m).
    + apply Permutation_cons_append.
    + now constructor.
  - apply Forall_app. split.
    + eapply Forall_impl; [| exact Hall]. cbn. intros kv [Hi Hb]. split; [exact Hi | lia].
    + constructor; [| constructor]. cbn. split; [exact Hid | lia].
Qed.

Lemma Keyed_update (next : Z) (m : JsMap.t V) (k : Z) (old v : V) :
  Keyed idOf next m -> JsMap.get m k = Some old -> idOf v = k ->
  Keyed idOf next (JsMap.set m k v).
Proof.
  intros [Hnd Hall] Hget Hid.
  destruct (@set_present m k old v Hget) as (before & after & -> & -> & _).
  split.
  - unfold keys in *. rewrite map_app in *. exact Hnd.
  - apply Forall_app in Hall as [Hb Ha]. inversion Ha as [| ? ? [_ Hk] Ha']; subst.
    apply Forall_app. split; [exact Hb |]. constructor; [| exact Ha'].
    cbn in *. split; [congruence | exact Hk].
Qed.

Lemma Keyed_filter (next : Z) (m : JsMap.t V) (f : Z * V -> bool) :
  Keyed idOf next m -> Keyed idOf next (filter f m).
Proof.
  intros [Hnd Hall]. split.
  - unfold keys in *. clear Hall. induction m as [| kv m IH]; cbn [filter map]; [constructor |].
    inversion Hnd as [| ? ? Hk Hnd']; subst.
    destruct (f kv); cbn [map]; [| now apply IH].
    constructor; [| now apply IH].
    intros Hin. apply Hk. apply in_map_iff in Hin as (kv' & Hfst & Hin).
    apply filter_In in Hin as [Hin _]. rewrite <- Hfst. now apply in_map.
  - apply Forall_forall. intros kv Hin. apply filter_In in Hin as [Hin _].
    rewrite Forall_forall in Hall. now apply Hall.
Qed.

(** The key of an entry is the identifier of its value. *)
Lemma Keyed_get_id (next : Z) (m : JsMap.t V) (k : Z) (v : V) :
  Keyed idOf next m -> JsMap.get m k = Some v -> idOf v = k /\ (0 < k < next)%Z.
Proof.
  intros [_ Hall] Hget. apply get_entry in Hget.
  rewrite Forall_forall in Hall. apply (Hall _ Hget).
Qed.

Lemma Keyed_value_get (next : Z) (m : JsMap.t V) (v : V) :
  Keyed idOf next m -> In v (JsMap.values m) -> JsMap.get m (idOf v) = Some v.
Proof.
  intros [Hnd Hall] Hin. apply in_map_iff in Hin as ([k v'] & Hv & Hin). cbn in Hv. subst v'.
  rewrite Forall_forall in Hall. destruct (Hall _ Hin) as [Hid _]. cbn in Hid.
  rewrite Hid. now apply entry_get.
Qed.

Lemma delete_is_filter (m : JsMap.t V) (k : Z) :
  JsMap.delete m k = filter (fun kv => negb (fst kv =? k)%Z) m.
Proof. reflexivity. Qed.

Lemma delete_all (ks : list Z) :
  forall m : JsMap.t V,
    fold_left (fun m k => JsMap.delete m k) ks m
    = filter (fun kv => negb (existsb (Z.eqb (fst kv)) ks)) m.
Proof.
  induction ks as [| k ks IH]; intros m; cbn [fold_left existsb].
  - induction m as [| kv m IHm]; [reflexivity |]. cbn in *. now f_equal.
  - rewrite IH. unfold JsMap.delete.
    induction m as [| kv m IHm]; cbn [filter]; [reflexivity |].
    destruct (fst kv =? k)%Z; cbn [negb orb filter]; [exact IHm |].
    destruct (existsb (Z.eqb (fst kv)) ks); cbn [negb]; [exact IHm | now rewrite IHm].
Qed.

End KeyedFacts.

Section StoreFacts.

Import Storage Invariant.

Lemma values_filter (V : Type) (P : V -> Prop) (f : Z * V -> bool) (m : JsMap.t V) :
  Forall P (JsMap.values m) -> Forall P (JsMap.values (filter f m)).
Proof.
  intros H. apply Forall_forall. intros v Hin.
  apply in_map_iff in Hin as (kv & <- & Hin). apply filter_In in Hin as [Hin _].
  rewrite Forall_forall in H. apply H. now apply in_map.
Qed.

Lemma fileKnown_weaken (next next' : Z) (a : Account.t) :
  (next <= next')%Z -> fileKnown next a -> fileKnown next' a.
Proof. unfold fileKnown. destruct (Account.fileId a); [lia | auto]. Qed.

Lemma wf_empty : WellFormed Storage.empty.
Proof.
  constructor; cbn; try apply Keyed_nil; try constructor; try lia.
Qed.

Lemma wf_addLog (now : Z) (level : Level.t) (message : jsstring) (st : MemStorage) :
  WellFormed st -> WellFormed (addLog now level message st).
Proof.
  intros [Hf Ha Hj Hl Hc Hi Hs]. constructor; cbn; auto; try lia.
  - apply Keyed_add; [exact Hl | lia | reflexivity].
  - apply set_values; [exact Hs | reflexivity].
Qed.

Lemma wf_clearLogs (st : MemStorage) : WellFormed st -> WellFormed (clearLogs st).
Proof.
  intros [Hf Ha Hj Hl Hc Hi Hs]. constructor; cbn; auto. apply Keyed_nil.
Qed.

Lemma wf_createFile (now : Z) (ins : InsertFile) (st : MemStorage) :
  WellFormed st -> WellFormed (fst (createFile now ins st)).
Proof.
  intros [Hf Ha Hj Hl Hc Hi Hs]. constructor; cbn; auto; try lia.
  - apply Keyed_add; [exact Hf | lia | reflexivity].
  - eapply Forall_impl; [| exact Hi]. intros a. apply fileKnown_weaken. lia.
Qed.

Lemma wf_createAccount (ins : InsertAccount) (st : MemStorage) :
  WellFormed st -> fileOk st ins -> WellFormed (fst (createAccount ins st)).
Proof.
  intros [Hf Ha Hj Hl Hc Hi Hs] Hok. constructor; cbn; auto; try lia.
  - apply Keyed_add; [exact Ha | lia | reflexivity].
  - apply set_values; [exact Hi |]. unfold fileKnown, fileOk in *. cbn.
    destruct (ia_fileId ins) as [f |]; [| exact I].
    destruct f; cbn; auto; lia.
Qed.

Lemma wf_createAccountsBatch (l : list InsertAccount) :
  forall st, WellFormed st -> Forall (fileOk st) l ->
             WellFormed (fst (createAccountsBatch l st)).
Proof.
  induction l as [| ins l IH]; intros st Hwf Hall; [exact Hwf |].
  inversion Hall as [| ? ? Hins Hrest]; subst.
  cbn [createAccountsBatch].
  assert (H1 : WellFormed (fst (createAccount ins st))) by (now apply wf_createAccount).
  destruct (createAccount ins st) as [st1 account] eqn:E1. cbn [fst] in H1.
  assert (Hfiles : currentFileId st1 = currentFileId st).
  { unfold createAccount in E1. injection E1 as <- _. reflexivity. }
  specialize (IH st1 H1).
  destruct (createAccountsBatch l st1) as [st2 created]. cbn [fst] in *.
  apply IH. eapply Forall_impl; [| exact Hrest].
  unfold fileOk. intros a. now rewrite Hfiles.
Qed.

Lemma wf_updateAccountStatus (now id : Z) (status : AccountStatus.t)
      (u e : option jsstring) (st : MemStorage) :
  WellFormed st -> WellFormed (updateAccountStatus now id status u e st).
Proof.
  intros Hwf. unfold updateAccountStatus.
  destruct (JsMap.get (accounts st) id) as [account |] eqn:Hget; [| exact Hwf].
  destruct Hwf as [Hf Ha Hj Hl Hc Hi Hs]. constructor; cbn; auto.
  - eapply Keyed_update; [exact Ha | exact Hget |]. cbn.
    eapply Keyed_get_id; eauto.
  - apply set_values; [exact Hi |].
    assert (Hin : In account (JsMap.values (accounts st))) by (eapply get_value; eauto).
    rewrite Forall_forall in Hi. exact (Hi _ Hin).
Qed.

Lemma deleteFile_accounts (id : Z) (st : MemStorage) :
  NoDup (keys (accounts st)) ->
  accounts (deleteFile id st)
  = filter (fun kv => negb (ofFile id (snd kv))) (accounts st).
Proof.
  intros Hnd. unfold deleteFile. cbn [accounts withAccounts withFiles].
  rewrite delete_all. apply filter_ext_in. intros [k a] Hin. cbn [fst snd]. f_equal.
  destruct (ofFile id a) eqn:Ho.
  - apply existsb_exists. exists k. split; [| apply Z.eqb_refl].
    change k with (fst (k, a)). apply in_map. apply filter_In. now split.
  - apply not_true_is_false. intros Hex. apply existsb_exists in Hex as (k' & Hin' & Heq).
    apply Z.eqb_eq in Heq. subst k'.
    apply in_map_iff in Hin' as ([k' a'] & Hk & Hin'). cbn in Hk. subst k'.
    apply filter_In in Hin' as [Hin' Ho']. cbn in Ho'.
    assert (Some a = Some a') by (rewrite <- !(@entry_get _ (accounts st) k) by assumption;
                                 reflexivity).
    congruence.
Qed.

Lemma wf_deleteFile (id : Z) (st : MemStorage) :
  WellFormed st -> WellFormed (deleteFile id st).
Proof.
  intros Hwf. pose proof (@deleteFile_accounts id st (proj1 (wf_accounts Hwf))) as Hacc.
  destruct Hwf as [Hf Ha Hj Hl Hc Hi Hs]. constructor; try rewrite Hacc; auto.
  - apply Keyed_filter, Hf.
  - apply Keyed_filter, Ha.
  - apply values_filter, Hi.
Qed.

Lemma wf_createValidationJob (ins : InsertJob) (st : MemStorage) :
  WellFormed st -> WellFormed (fst (createValidationJob ins st)).
Proof.
  intros [Hf Ha Hj Hl Hc Hi Hs]. constructor; cbn; auto; try lia.
  apply Keyed_add; [exact Hj | lia | reflexivity].
Qed.

Lemma wf_updateJobStatus (now id : Z) (status : JobStatus.t) (st : MemStorage) :
  WellFormed st -> WellFormed (updateJobStatus now id status st).
Proof.
  intros Hwf. unfold updateJobStatus.
  destruct (JsMap.get (jobs st) id) as [job |] eqn:Hget; [| exact Hwf].
  destruct Hwf as [Hf Ha Hj Hl Hc Hi Hs]. constructor; cbn; auto.
  eapply Keyed_update; [exact Hj | exact Hget |].
  destruct status; cbn; eapply Keyed_get_id; eauto.
Qed.

Lemma wf_updateJobProgress (id p v i e : Z) (st : MemStorage) :
  WellFormed st -> WellFormed (updateJobProgress id p v i e st).
Proof.
  intros Hwf. unfold updateJobProgress.
  destruct (JsMap.get (jobs st) id) as [job |] eqn:Hget; [| exact Hwf].
  destruct Hwf as [Hf Ha Hj Hl Hc Hi Hs]. constructor; cbn; auto.
  eapply Keyed_update; [exact Hj | exact Hget |]. cbn. eapply Keyed_get_id; eauto.
Qed.

End StoreFacts.

Section GoodStore.

Import Storage Invariant.

Lemma good_empty : Good Storage.empty.
Proof. split; [apply wf_empty | split; constructor]. Qed.

Lemma good_addLog (now : Z) (level : Level.t) (message : jsstring) (st : MemStorage) :
  Good st -> Good (addLog now level message st).
Proof. intros [Hwf Hc]. split; [now apply wf_addLog | exact Hc]. Qed.

Lemma good_clearLogs (st : MemStorage) : Good st -> Good (clearLogs st).
Proof. intros [Hwf Hc]. split; [now apply wf_clearLogs | exact Hc]. Qed.

Lemma good_createFile (now : Z) (ins : InsertFile) (st : MemStorage) :
  Good st -> Good (fst (createFile now ins st)).
Proof. intros [Hwf Hc]. split; [now apply wf_createFile | exact Hc]. Qed.

Lemma good_createAccount (ins : InsertAccount) (st : MemStorage) :
  Good st -> fileOk st ins -> ia_status ins <> AccountStatus.error ->
  Good (fst (createAccount ins st)).
Proof.
  intros [Hwf [Ha Hj]] Hok Hst. split; [now apply wf_createAccount |].
  split; [| exact Hj]. cbn. apply set_values; [exact Ha | exact Hst].
Qed.

Lemma good_createAccountsBatch (l : list InsertAccount) :
  forall st, Good st ->
             Forall (fun ins => fileOk st ins /\ ia_status ins <> AccountStatus.error) l ->
             Good (fst (createAccountsBatch l st)).
Proof.
  induction l as [| ins l IH]; intros st Hg Hall; [exact Hg |].
  inversion Hall as [| ? ? [Hins Hst] Hrest]; subst.
  cbn [createAccountsBatch].
  assert (H1 : Good (fst (createAccount ins st))) by (now apply good_createAccount).
  destruct (createAccount ins st) as [st1 account] eqn:E1. cbn [fst] in H1.
  assert (Hfiles : currentFileId st1 = currentFileId st).
  { unfold createAccount in E1. injection E1 as <- _. reflexivity. }
  specialize (IH st1 H1).
  destruct (createAccountsBatch l st1) as [st2 created]. cbn [fst] in *.
  apply IH. eapply Forall_impl; [| exact Hrest].
  unfold fileOk. intros a. now rewrite Hfiles.
Qed.

Lemma good_updateAccountStatus (now id : Z) (status : AccountStatus.t)
      (u e : option jsstring) (st : MemStorage) :
  Good st -> status <> AccountStatus.error ->
  Good (updateAccountStatus now id status u e st).
Proof.
  intros [Hwf [Ha Hj]] Hst. split; [now apply wf_updateAccountStatus |].
  unfold updateAccountStatus, Clean.
  destruct (JsMap.get (accounts st) id) as [account |]; [| now split].
  cbn. split; [| exact Hj]. apply set_values; [exact Ha | exact Hst].
Qed.

Lemma good_deleteFile (id : Z) (st : MemStorage) : Good st -> Good (deleteFile id st).
Proof.
  intros [Hwf [Ha Hj]]. split; [now apply wf_deleteFile |].
  split; [| exact Hj].
  rewrite (@deleteFile_accounts id st (proj1 (wf_accounts Hwf))).
  apply values_filter, Ha.
Qed.

Lemma good_createValidationJob (ins : InsertJob) (st : MemStorage) :
  Good st -> ij_errorAccounts ins = 0%Z -> Good (fst (createValidationJob ins st)).
Proof.
  intros [Hwf [Ha Hj]] He. split; [now apply wf_createValidationJob |].
  split; [exact Ha |]. cbn. apply set_values; [exact Hj | exact He].
Qed.

Lemma good_updateJobStatus (now id : Z) (status : JobStatus.t) (st : MemStorage) :
  Good st -> Good (updateJobStatus now id status st).
Proof.
  intros [Hwf [Ha Hj]]. split; [now apply wf_updateJobStatus |].
  unfold updateJobStatus, Clean.
  destruct (JsMap.get (jobs st) id) as [job |] eqn:Hget; [| now split].
  cbn. split; [exact Ha |]. apply set_values; [exact Hj |].
  assert (Hin : In job (JsMap.values (jobs st))) by (eapply get_value; eauto).
  rewrite Forall_forall in Hj. specialize (Hj _ Hin). destruct status; exact Hj.
Qed.

Lemma good_updateJobProgress (id p v i : Z) (st : MemStorage) :
  Good st -> Good (updateJobProgress id p v i 0 st).
Proof.
  intros [Hwf [Ha Hj]]. split; [now apply wf_updateJobProgress |].
  unfold updateJobProgress, Clean.
  destruct (JsMap.get (jobs st) id) as [job |]; [| now split].
  cbn. split; [exact Ha |]. apply set_values; [exact Hj | reflexivity].
Qed.

End GoodStore.

Section SoundServer.

Import Storage Engine Invariant.

Lemma distinct_split (A : Type) (n : nat) (l : list A) :
  NoDup l -> NoDup (firstn n l) /\ NoDup (skipn n l).
Proof.
  intros H. rewrite <- (firstn_skipn n l) in H.
  split; [eapply NoDup_app_remove_r | eapply NoDup_app_remove_l]; exact H.
Qed.

Lemma filter_keeps_distinct (A B : Type) (key : A -> B) (keep : A -> bool) :
  forall items, NoDup (map key items) -> NoDup (map key (filter keep items)).
Proof.
  intros items. induction items as [| x items IH]; cbn [map filter]; [auto |].
  intros H. inversion H as [| ? ? Hx Hrest]; subst.
  destruct (keep x); cbn [map]; [| auto].
  constructor; [| auto].
  intros Hin. apply Hx. apply in_map_iff in Hin as (y & Hy & Hin).
  apply filter_In in Hin as [Hin _]. rewrite <- Hy. now apply in_map.
Qed.

Lemma keyed_ids (V : Type) (idOf : V -> Z) (next : Z) (m : JsMap.t V) :
  Keyed idOf next m -> map idOf (JsMap.values m) = keys m.
Proof.
  intros [_ Hall]. unfold JsMap.values, keys. rewrite map_map.
  apply map_ext_in. intros kv Hin. rewrite Forall_forall in Hall. apply (Hall _ Hin).
Qed.

Lemma count_bounds (p : Account.t -> bool) (l : list Account.t) :
  (0 <= countWhere p l <= Z.of_nat (length l))%Z.
Proof.
  unfold countWhere. pose proof (filter_length_le p l). lia.
Qed.

Lemma count_none (l : list Account.t) :
  Forall notErrored l -> countWhere (hasStatus AccountStatus.error) l = 0%Z.
Proof.
  unfold countWhere, hasStatus, notErrored.
  induction 1 as [| a l Ha _ IH]; [reflexivity |].
  cbn [filter]. destruct (Account.status a); cbn [AccountStatus.eqb]; congruence.
Qed.

Lemma sound_idle (st : MemStorage) (queue : list QueueItem) (settings : Settings)
      (n : nat) (out : list Broadcast) :
  Good st -> inBounds settings -> NoDup (map id queue) -> Forall consistent out ->
  Sound (mkServer st queue false settings None n out).
Proof.
  intros Hg Hs Hq Ho. constructor; cbn.
  - constructor; assumption.
  - split; [discriminate | congruence].
  - discriminate.
Qed.

Lemma sound_finishCycle (now : Z) (job : Job.t) (sv : Server) :
  Steady sv -> Sound (finishCycle now job sv).
Proof.
  intros [Hg Hs Hq Ho]. unfold finishCycle.
  assert (He : countWhere (hasStatus AccountStatus.error) (getAllAccounts (storage sv)) = 0%Z)
    by (apply count_none, Hg).
  rewrite He.
  set (all := getAllAccounts (storage sv)) in *.
  assert (Hst : Good (updateJobProgress
                        (Job.id job)
                        (countWhere (fun a => negb (hasStatus AccountStatus.pending a)) all)
                        (countWhere (hasStatus AccountStatus.valid) all)
                        (countWhere (hasStatus AccountStatus.invalid) all) 0 (storage sv)))
    by (apply good_updateJobProgress, Hg).
  assert (Hout : Forall consistent
                   (sent sv ++ [progress
                      (countWhere (fun a => negb (hasStatus AccountStatus.pending a)) all)
                      (countWhere (hasStatus AccountStatus.valid) all)
                      (countWhere (hasStatus AccountStatus.invalid) all) 0
                      (Z.of_nat (length all))])).
  { apply Forall_app. split; [exact Ho |]. constructor; [| constructor]. cbn.
    pose proof (count_split all) as Hc. rewrite He in Hc.
    pose proof (count_bounds (fun a => negb (hasStatus AccountStatus.pending a)) all).
    repeat split; try lia. }
  destruct (getCurrentJob _) as [updatedJob |]; [| now apply sound_idle].
  destruct (isRunning updatedJob && _); [now apply sound_idle |].
  destruct (length (validationQueue sv) =? 0)%nat; [| now apply sound_idle].
  apply sound_idle; auto.
  - now apply good_updateJobStatus.
  - apply Forall_app. split; [exact Hout | repeat constructor].
Qed.

Lemma sound_awaitBatch (now : Z) (sv : Server) :
  Steady sv ->
  (isValidating sv = true <-> cycle sv <> None) ->
  (forall c, cycle sv = Some c -> NoDup (attemptIds c) /\ length (waiting c) <= 100) ->
  Sound (awaitBatch now sv).
Proof.
  intros Hst Hflag Hbatch. unfold awaitBatch.
  destruct (cycle sv) as [[job [| x l]] |] eqn:Hc.
  - now apply sound_finishCycle.
  - constructor; [exact Hst | now rewrite Hc |].
    intros c Hc'. rewrite Hc in Hc'. injection Hc' as <-.
    destruct (Hbatch _ eq_refl). cbn. repeat split; auto. discriminate.
  - constructor; [exact Hst | now rewrite Hc |]. rewrite Hc. discriminate.
Qed.

Lemma good_announce (now : Z) (batch : list QueueItem) :
  forall st, Good st ->
             Good (fold_left
                     (fun st account =>
                        addLog now Level.info
                               (lit "Validando " ++ email account ++ lit "...") st)
                     batch st).
Proof.
  induction batch as [| a batch IH]; intros st H; [exact H |].
  cbn [fold_left]. apply IH, good_addLog, H.
Qed.

Lemma sound_processValidationQueue (now : Z) (sv : Server) :
  Sound sv -> Sound (processValidationQueue now sv).
Proof.
  intros Hs. unfold processValidationQueue.
  destruct (isValidating sv || _); [exact Hs |].
  destruct (getCurrentJob (storage sv)) as [job |]; [| exact Hs].
  destruct (isRunning job); [| exact Hs].
  destruct Hs as [[Hg Hb Hq Ho] _ _].
  set (n := Z.to_nat _).
  apply sound_awaitBatch; cbn.
  - constructor; cbn; auto.
    + apply good_announce, Hg.
    + rewrite <- skipn_map. now apply distinct_split.
  - split; [discriminate | reflexivity].
  - intros c [= <-]. unfold attemptIds. cbn. rewrite map_map. cbn.
    change (map (fun x => id x) ?l) with (map id l).
    rewrite length_map, <- firstn_map. split; [now apply distinct_split |].
    pose proof (firstn_le_length n (validationQueue sv)).
    assert (length (firstn n (validationQueue sv)) <= n) by (rewrite length_firstn; lia).
    destruct Hb as [Hb _]. subst n. lia.
Qed.

Lemma good_record (now : Z) (account : QueueItem) (result : Prober.Result)
      (st : MemStorage) :
  Good st -> Good (record now account result st).
Proof.
  intros H. unfold record.
  destruct (Prober.valid result); apply good_addLog, good_updateAccountStatus;
    auto; discriminate.
Qed.

Lemma take_split (accountId : Z) (l : list (QueueItem * option jsstring))
      (x : QueueItem * option jsstring) (rest : list (QueueItem * option jsstring)) :
  take accountId l = Some (x, rest) ->
  exists l1 l2, l = l1 ++ x :: l2 /\ rest = l1 ++ l2.
Proof.
  revert x rest. induction l as [| y l IH]; intros x rest; cbn [take]; [discriminate |].
  destruct (id (fst y) =? accountId)%Z.
  - intros [= <- <-]. now exists [], l.
  - destruct (take accountId l) as [[z r] |]; [| discriminate].
    intros [= <- <-]. destruct (IH _ _ eq_refl) as (l1 & l2 & -> & ->).
    now exists (y :: l1), l2.
Qed.

Lemma sound_settle (now : Z) (fetch : Fetch) (accountId : Z) (sv sv' : Server) :
  Sound sv -> settle now fetch accountId sv = Some sv' -> Sound sv'.
Proof.
  intros [[Hg Hb Hq Ho] Hflag Hbatch]. unfold settle.
  destruct (cycle sv) as [c |] eqn:Hc; [| discriminate].
  destruct (take accountId (waiting c)) as [[[account storeUrl] rest] |] eqn:Ht;
    [| discriminate].
  intros [= <-]. apply sound_awaitBatch; cbn.
  - constructor; cbn; auto. rewrite attempted_settled. now apply good_record.
  - split; [discriminate |]. intros _. apply Hflag. discriminate.
  - intros c' [= <-]. unfold attemptIds. cbn.
    destruct (Hbatch _ eq_refl) as (_ & Hnd & Hlen).
    apply take_split in Ht as (l1 & l2 & Hl & ->).
    unfold attemptIds in Hnd. rewrite Hl in Hnd, Hlen.
    rewrite map_app in *. cbn [map] in Hnd. apply NoDup_remove_1 in Hnd.
    split; [exact Hnd |]. rewrite length_app in *. cbn [length] in Hlen. lia.
Qed.

Lemma parseSettings_inBounds (body : RawSettings) (settings : Settings) :
  parseSettings body = Some settings -> inBounds settings.
Proof.
  unfold parseSettings, bounded, inBounds.
  destruct (rawThreads body) as [c |], (rawTimeout body) as [t |], (rawRetries body) as [r |];
    repeat match goal with
           | |- context [if ?b then _ else _] => destruct b eqn:?
           end;
    intros [= <-]; cbn; lia.
Qed.

Lemma sound_start (now : Z) (body : RawSettings) (sv : Server) :
  Sound sv -> Sound (fst (start now body sv)).
Proof.
  intros Hs. unfold start.
  destruct (parseSettings body) as [settings |] eqn:Hp; [| exact Hs].
  apply parseSettings_inBounds in Hp.
  destruct Hs as [[Hg Hb Hq Ho] Hflag Hbatch]. cbn [storage].
  destruct (length _ =? 0)%nat.
  - cbn [fst]. constructor; [constructor | |]; cbn; auto.
  - cbn [createValidationJob fst]. apply sound_processValidationQueue.
    constructor; [constructor | |]; cbn; auto.
    + apply good_addLog, good_updateJobStatus.
      apply (@good_createValidationJob
               (mkInsertJob JobStatus.running settings _ 0 0 0 0) (storage sv) Hg eq_refl).
    + rewrite map_map. cbn.
      change (map (fun x => Account.id x) ?l) with (map Account.id l).
      apply filter_keeps_distinct. unfold getAllAccounts.
      rewrite (keyed_ids (wf_accounts (proj1 Hg))).
      apply (proj1 (wf_accounts (proj1 Hg))).
Qed.

Lemma sound_pause (now : Z) (sv : Server) : Sound sv -> Sound (fst (pause now sv)).
Proof.
  intros Hs. unfold pause.
  destruct (getCurrentJob (storage sv)) as [job |]; [| exact Hs].
  destruct (JobStatus.eqb _ _); [| exact Hs].
  destruct Hs as [[Hg Hb Hq Ho] Hflag Hbatch].
  constructor; [constructor | |]; cbn; auto.
  apply good_addLog, good_updateJobStatus, Hg.
Qed.

Lemma sound_resume (now : Z) (sv : Server) : Sound sv -> Sound (fst (resume now sv)).
Proof.
  intros Hs. unfold resume.
  destruct (getCurrentJob (storage sv)) as [job |]; [| exact Hs].
  destruct (JobStatus.eqb _ _); [| exact Hs].
  cbn [fst]. apply sound_processValidationQueue.
  destruct Hs as [[Hg Hb Hq Ho] Hflag Hbatch].
  constructor; [constructor | |]; cbn; auto.
  apply good_addLog, good_updateJobStatus, Hg.
Qed.

Lemma sound_stop (now : Z) (sv : Server) : Sound sv -> Sound (fst (stop now sv)).
Proof.
  intros Hs. unfold stop.
  destruct (getCurrentJob (storage sv)) as [job |]; [| exact Hs].
  destruct (isActive job); [| exact Hs].
  destruct Hs as [[Hg Hb Hq Ho] Hflag Hbatch].
  constructor; [constructor | |]; cbn; auto.
  - apply good_addLog, good_updateJobStatus, Hg.
  - constructor.
Qed.

Lemma good_uploadOne (now : Z) (st : MemStorage) (file : Upload) :
  Good st -> Good (uploadOne now st file).
Proof.
  intros Hg. unfold uploadOne.
  destruct (negb (endsWith (originalname file) (lit ".txt"))); [exact Hg |].
  pose proof (@good_createFile now
                (mkInsertFile (originalname file) (fileSize file)
                   (Z.of_nat (length (Parser.parseAccountFile (content file))))
                   FileStatus.processed) st Hg) as H1.
  pose proof (proj1 (wf_counters (proj1 Hg))) as Hpos.
  cbn [createFile fst File.id] in *.
  set (st1 := withFiles st _ _) in *.
  assert (H2 : Good (fst (createAccountsBatch
                            (map (insertOf (currentFileId st))
                                 (Parser.parseAccountFile (content file))) st1))).
  { apply good_createAccountsBatch; [exact H1 |].
    apply Forall_forall. intros ins Hin. apply in_map_iff in Hin as (a & <- & _).
    unfold fileOk. cbn. split; [lia | discriminate]. }
  destruct (createAccountsBatch _ st1) as [st2 created]. cbn [fst] in H2.
  now apply good_addLog.
Qed.

Lemma good_upload (now : Z) (files : list Upload) :
  forall st, Good st -> Good (fold_left (uploadOne now) files st).
Proof.
  induction files as [| file files IH]; intros st H; [exact H |].
  cbn [fold_left]. apply IH, good_uploadOne, H.
Qed.

Lemma sound_withStorage (sv : Server) (st : MemStorage) :
  Sound sv -> Good st -> Sound (withStorage sv st).
Proof.
  intros [[Hg Hb Hq Ho] Hflag Hbatch] Hst.
  constructor; [constructor | |]; cbn; auto.
Qed.

Lemma sound_step (sv sv' : Server) (e : Event) (r : option Reply) :
  Sound sv -> step sv e = Some (sv', r) -> Sound sv'.
Proof.
  intros Hs. destruct e as [now files | fileId | | now body | now | now | now | now
                           | now fetch accountId]; cbn [step].
  - unfold upload. destruct files as [| f files]; intros [= <- _]; [exact Hs |].
    apply sound_withStorage; [exact Hs |].
    apply (good_upload now (f :: files)), Hs.
  - intros [= <- _]. apply sound_withStorage; [exact Hs |]. apply good_deleteFile, Hs.
  - intros [= <- _]. apply sound_withStorage; [exact Hs |]. apply good_clearLogs, Hs.
  - pose proof (sound_start now body Hs) as H.
    destruct (start now body sv) as [sv1 r1]. intros [= <- _]. exact H.
  - pose proof (sound_pause now Hs) as H.
    destruct (pause now sv) as [sv1 r1]. intros [= <- _]. exact H.
  - pose proof (sound_resume now Hs) as H.
    destruct (resume now sv) as [sv1 r1]. intros [= <- _]. exact H.
  - pose proof (sound_stop now Hs) as H.
    destruct (stop now sv) as [sv1 r1]. intros [= <- _]. exact H.
  - destruct (timers sv) as [| n]; [discriminate |]. intros [= <- _].
    apply sound_processValidationQueue.
    destruct Hs as [[Hg Hb Hq Ho] Hflag Hbatch].
    constructor; [constructor | |]; cbn; auto.
  - destruct (settle now fetch accountId sv) as [sv1 |] eqn:E; [| discriminate].
    intros [= <- _]. eapply sound_settle; eauto.
Qed.

Lemma sound_initial : Sound initial.
Proof.
  apply sound_idle; [apply good_empty | | constructor | constructor].
  unfold inBounds. cbn. lia.
Qed.

Lemma sound_run (events : list Event) :
  forall sv sv', Sound sv -> run sv events = Some sv' -> Sound sv'.
Proof.
  induction events as [| e events IH]; intros sv sv' Hs; cbn [run].
  - now intros [= <-].
  - destruct (step sv e) as [[sv1 r] |] eqn:E; [| discriminate].
    apply IH. eapply sound_step; eauto.
Qed.

End SoundServer.

(** In every state a run can reach, every file, account, job and log
    entry sits under its own identifier; the identifiers of a kind are
    distinct, positive and below the counter that gives the next one, so
    that none is used twice, also after a deletion; every account
    belongs to a file numbered before the counter and every log entry is
    stamped. *)
Theorem run_keeps_identifiers (events : list Engine.Event) (sv : Engine.Server) :
  Engine.run Engine.initial events = Some sv ->
  Invariant.WellFormed (Engine.storage sv).
Proof.
  intros Hrun.
  apply (proj1 (Invariant.steady_store
                  (Invariant.sound_steady (sound_run events sound_initial Hrun)))).
Qed.

(** Two uploads with a deletion in between. *)
Lemma run_keeps_identifiers_witness :
  Invariant.WellFormed
    (Engine.storage
       (Scenario.after [Engine.UploadFiles 1 [Sample.fileTwo]; Engine.DeleteFile 1;
                        Engine.UploadFiles 2 [Scenario.fileA]])).
Proof.
  apply (@run_keeps_identifiers
           [Engine.UploadFiles 1 [Sample.fileTwo]; Engine.DeleteFile 1;
            Engine.UploadFiles 2 [Scenario.fileA]]).
  vm_compute. reflexivity.
Defined.

(** In every state a run can reach, the flag [isValidating] is set
    exactly while a batch is on the network; such a batch is not empty,
    holds no account twice and at most 100 attempts; the queue holds no
    account twice; the settings are within the bounds of the schema. *)
Theorem run_keeps_one_batch (events : list Engine.Event) (sv : Engine.Server) :
  Engine.run Engine.initial events = Some sv ->
  (Engine.isValidating sv = true <-> Engine.cycle sv <> None)
  /\ (forall c, Engine.cycle sv = Some c ->
                Engine.waiting c <> []
                /\ NoDup (Invariant.attemptIds c)
                /\ length (Engine.waiting c) <= 100)
  /\ NoDup (map Engine.id (Engine.validationQueue sv))
  /\ Invariant.inBounds (Engine.validationSettings sv).
Proof.
  intros Hrun. destruct (sound_run events sound_initial Hrun) as [[_ Hb Hq _] Hflag Hbatch].
  auto.
Qed.

(** Two records, one attempt at a time: one on the network, one queued. *)
Lemma run_keeps_one_batch_witness :
  Engine.isValidating (Scenario.after Sample.oneByOne) = true
  /\ Engine.cycle (Scenario.after Sample.oneByOne) <> None
  /\ NoDup (map Engine.id (Engine.validationQueue (Scenario.after Sample.oneByOne))).
Proof.
  destruct (@run_keeps_one_batch Sample.oneByOne (Scenario.after Sample.oneByOne)
                                 ltac:(vm_compute; reflexivity))
    as (Hflag & _ & Hq & _).
  split; [| split; [| exact Hq]].
  - apply Hflag. vm_compute. discriminate.
  - vm_compute. discriminate.
Defined.

(** The [catch] of the batch body is the one place that writes the
    status [error]: were the promise of the prober rejected, the
    account would get it, with the detail [Error interno]. *)
Lemma caught_writes_error (now : Z) (account : Engine.QueueItem) (message : jsstring)
      (st : Storage.MemStorage) (old : Account.t) :
  JsMap.get (Storage.accounts st) (Engine.id account) = Some old ->
  exists new,
    JsMap.get (Storage.accounts (Engine.attempted now account (Rejected message) st))
              (Engine.id account) = Some new
    /\ Account.status new = AccountStatus.error
    /\ Account.errorMessage new = Some (lit "Error interno").
Proof.
  intros Hold. cbn [Engine.attempted]. unfold Engine.caught.
  rewrite accounts_addLog. unfold Storage.updateAccountStatus. rewrite Hold.
  cbn [Storage.accounts Storage.withAccounts]. rewrite get_set_same.
  eexists. repeat split.
Qed.

(** In every state a run can reach, no account has the status
    [error] and the [errorAccounts] of every job is 0.  The batch
    body has a [catch] that writes [error] ([Engine.caught]), but it is
    never entered: the promise of the prober is never rejected, since
    the prober's own [catch] turns whatever its [try] throws into a
    result ([settled_fulfilled]), and no [MemStorage] method throws; so
    the batch writes [valid] or [invalid] only.  Every progress message
    sent adds up (processed = valid + invalid, errors = 0) and stays
    within its own total, the number of accounts of the store. *)
Theorem run_never_errors (events : list Engine.Event) (sv : Engine.Server) :
  Engine.run Engine.initial events = Some sv ->
  Forall (fun a => Account.status a <> AccountStatus.error)
         (Storage.getAllAccounts (Engine.storage sv))
  /\ Forall (fun job => Job.errorAccounts job = 0%Z) (Engine.allJobs sv)
  /\ Forall Invariant.consistent (Engine.sent sv).
Proof.
  intros Hrun. destruct (sound_run events sound_initial Hrun) as [[[_ [Ha Hj]] _ _ Ho] _ _].
  auto.
Qed.

(** Two jobs, every attempt failing on the network. *)
Lemma run_never_errors_witness :
  Forall (fun a => Account.status a <> AccountStatus.error)
         (Storage.getAllAccounts (Engine.storage (Scenario.after Scenario.twoJobs)))
  /\ Forall (fun job => Job.errorAccounts job = 0%Z)
            (Engine.allJobs (Scenario.after Scenario.twoJobs))
  /\ Forall Invariant.consistent (Engine.sent (Scenario.after Scenario.twoJobs)).
Proof.
  apply (@run_never_errors Scenario.twoJobs). vm_compute. reflexivity.
Defined.

(* ------------------------------------------------------------------ *)
(** ** The drain loop and the control requests *)
(* ------------------------------------------------------------------ *)

Section DrainFacts.

Import Storage Engine Invariant.

Lemma accounts_announce (now : Z) (batch : list QueueItem) :
  forall st,
    accounts (fold_left
                (fun st account =>
                   addLog now Level.info (lit "Validando " ++ email account ++ lit "...") st)
                batch st) = accounts st
    /\ jobs (fold_left
               (fun st account =>
                  addLog now Level.info (lit "Validando " ++ email account ++ lit "...") st)
               batch st) = jobs st.
Proof.
  induction batch as [| a batch IH]; intros st; [now split |].
  cbn [fold_left]. destruct (IH (addLog now Level.info
                                        (lit "Validando " ++ email a ++ lit "...") st))
    as [-> ->]. now split.
Qed.

Lemma awaitBatch_waiting (now : Z) (sv : Server) (c : Cycle) :
  cycle sv = Some c -> waiting c <> [] -> awaitBatch now sv = sv.
Proof.
  intros Hc Hw. unfold awaitBatch. rewrite Hc.
  destruct c as [job [| x l]]; [now elim Hw | reflexivity].
Qed.

Lemma accounts_processValidationQueue (now : Z) (sv : Server) :
  accounts (storage (processValidationQueue now sv)) = accounts (storage sv).
Proof.
  unfold processValidationQueue.
  destruct (isValidating sv || _); [reflexivity |].
  destruct (getCurrentJob (storage sv)) as [job |]; [| reflexivity].
  destruct (isRunning job); [| reflexivity].
  rewrite accounts_awaitBatch. cbn [storage]. apply accounts_announce.
Qed.

(** The batch pulled from a queue that is not empty, by a width of at
    least one, is not empty. *)
Lemma batch_not_empty (width : Z) (queue : list QueueItem) :
  (1 <= width)%Z -> queue <> [] ->
  (1 <= Z.to_nat (Z.min width (Z.of_nat (length queue))))%nat
  /\ firstn (Z.to_nat (Z.min width (Z.of_nat (length queue)))) queue <> [].
Proof.
  intros Hw Hq. destruct queue as [| x queue]; [now elim Hq |].
  assert (H : (1 <= Z.to_nat (Z.min width (Z.of_nat (length (x :: queue)))))%nat)
    by (cbn [length]; lia).
  split; [exact H |].
  destruct (Z.to_nat _); [lia | discriminate].
Qed.

Lemma jobs_processValidationQueue (now : Z) (sv : Server) :
  (1 <= concurrentThreads (validationSettings sv))%Z ->
  jobs (storage (processValidationQueue now sv)) = jobs (storage sv).
Proof.
  intros Hw. unfold processValidationQueue.
  destruct (isValidating sv || (length (validationQueue sv) =? 0)%nat) eqn:Hskip;
    [reflexivity |].
  destruct (getCurrentJob (storage sv)) as [job |]; [| reflexivity].
  destruct (isRunning job); [| reflexivity].
  apply orb_false_iff in Hskip as [_ Hlen]. apply Nat.eqb_neq in Hlen.
  assert (Hq : validationQueue sv <> []) by (destruct (validationQueue sv); cbn in *; congruence).
  destruct (batch_not_empty Hw Hq) as [_ Hne].
  erewrite awaitBatch_waiting; [| reflexivity |].
  - cbn [storage]. apply accounts_announce.
  - cbn [waiting]. intros Hnil. apply Hne. apply map_eq_nil in Hnil. exact Hnil.
Qed.

End DrainFacts.

(** When no batch is on the network, the queue is not empty, the
    current job is [running] and the width is at least one, a call of
    [processValidationQueue] sets the flag and puts on the network the
    head of the queue, in order, [min(width, length)] items of it, for
    that job; the rest stays queued; accounts and jobs are as they were.
    In every other case but a current job that is [running], the call
    changes nothing. *)
Theorem drain_begins (now : Z) (sv : Engine.Server) (job : Job.t) :
  let width := concurrentThreads (Engine.validationSettings sv) in
  let n := Z.to_nat (Z.min width (Z.of_nat (length (Engine.validationQueue sv)))) in
  let sv' := Engine.processValidationQueue now sv in
  (Engine.isValidating sv = false ->
   Engine.validationQueue sv <> [] ->
   Storage.getCurrentJob (Engine.storage sv) = Some job ->
   Job.status job = JobStatus.running ->
   (1 <= width)%Z ->
   Engine.isValidating sv' = true
   /\ (exists c, Engine.cycle sv' = Some c
                 /\ Engine.currentJob c = job
                 /\ map fst (Engine.waiting c) = firstn n (Engine.validationQueue sv))
   /\ Engine.validationQueue sv' = skipn n (Engine.validationQueue sv)
   /\ (1 <= n)%nat /\ (Z.of_nat n <= width)%Z
   /\ Storage.accounts (Engine.storage sv') = Storage.accounts (Engine.storage sv)
   /\ Storage.jobs (Engine.storage sv') = Storage.jobs (Engine.storage sv))
  /\ (Engine.isValidating sv = true \/ Engine.validationQueue sv = []
      \/ Storage.getCurrentJob (Engine.storage sv) = None
      \/ (Storage.getCurrentJob (Engine.storage sv) = Some job
          /\ Job.status job <> JobStatus.running) ->
      sv' = sv).
Proof.
  cbv zeta. split.
  - intros Hflag Hq Hjob Hrun Hw.
    pose proof (jobs_processValidationQueue now sv Hw) as Hjobs.
    pose proof (accounts_processValidationQueue now sv) as Hacc.
    destruct (batch_not_empty Hw Hq) as [Hn Hne].
    revert Hjobs Hacc. unfold Engine.processValidationQueue.
    rewrite Hflag, Hjob. unfold Engine.isRunning. rewrite Hrun. cbn [JobStatus.eqb orb].
    destruct (length (Engine.validationQueue sv) =? 0)%nat eqn:Hlen.
    { apply Nat.eqb_eq in Hlen. destruct (Engine.validationQueue sv); [now elim Hq | discriminate]. }
    erewrite awaitBatch_waiting; [| reflexivity |].
    + cbn. intros Hjobs Hacc. repeat split; auto; try lia.
      eexists. repeat split. cbn. rewrite map_map. cbn. apply map_id.
    + cbn [Engine.waiting]. intros Hnil. apply Hne. apply map_eq_nil in Hnil. exact Hnil.
  - unfold Engine.processValidationQueue.
    intros [-> | [-> | [-> | [-> Hst]]]]; try reflexivity.
    + now rewrite orb_true_r.
    + destruct (_ || _); reflexivity.
    + destruct (_ || _); [reflexivity |]. unfold Engine.isRunning.
      destruct (Job.status job); try reflexivity. now elim Hst.
Qed.

(** Two records and a width of one: the first is done, the timer
    fires and the second goes on the network. *)
Lemma drain_begins_witness :
  let sv := Scenario.after (Sample.oneByOne ++ [Engine.Settle 3 Scenario.down 1]) in
  Engine.isValidating sv = false
  /\ Engine.isValidating (Engine.processValidationQueue 4 sv) = true
  /\ Engine.validationQueue (Engine.processValidationQueue 4 sv) = [].
Proof.
  intros sv.
  destruct (proj1 (@drain_begins 4 sv
                     (Job.mk 1 JobStatus.running (mkSettings 1 30 3) 2 1 0 1 0
                             (Some 2%Z) None None))
                  ltac:(vm_compute; reflexivity) ltac:(vm_compute; discriminate)
                  ltac:(vm_compute; reflexivity) eq_refl ltac:(vm_compute; discriminate))
    as (Hflag & _ & Hq & _).
  split; [vm_compute; reflexivity | split; [exact Hflag | exact Hq]].
Defined.

Section AccountFrame.

Import Storage Engine Invariant.

Lemma accounts_start (now : Z) (body : RawSettings) (sv : Server) :
  accounts (storage (fst (start now body sv))) = accounts (storage sv).
Proof.
  unfold start. destruct (parseSettings body) as [settings |]; [| reflexivity].
  cbn [storage]. destruct (length _ =? 0)%nat; [reflexivity |].
  cbn [createValidationJob fst]. rewrite accounts_processValidationQueue. cbn [storage].
  rewrite accounts_addLog, accounts_updateJobStatus. reflexivity.
Qed.

Lemma accounts_pause (now : Z) (sv : Server) :
  accounts (storage (fst (pause now sv))) = accounts (storage sv).
Proof.
  unfold pause. destruct (getCurrentJob (storage sv)) as [job |]; [| reflexivity].
  destruct (JobStatus.eqb _ _); [| reflexivity].
  cbn [fst storage withStorage]. rewrite accounts_addLog. apply accounts_updateJobStatus.
Qed.

Lemma accounts_resume (now : Z) (sv : Server) :
  accounts (storage (fst (resume now sv))) = accounts (storage sv).
Proof.
  unfold resume. destruct (getCurrentJob (storage sv)) as [job |]; [| reflexivity].
  destruct (JobStatus.eqb _ _); [| reflexivity].
  cbn [fst]. rewrite accounts_processValidationQueue. cbn [storage withStorage].
  rewrite accounts_addLog. apply accounts_updateJobStatus.
Qed.

Lemma accounts_stop (now : Z) (sv : Server) :
  accounts (storage (fst (stop now sv))) = accounts (storage sv).
Proof.
  unfold stop. destruct (getCurrentJob (storage sv)) as [job |]; [| reflexivity].
  destruct (isActive job); [| reflexivity].
  cbn [fst storage]. rewrite accounts_addLog. apply accounts_updateJobStatus.
Qed.

End AccountFrame.

(** The control requests (start, pause, resume, stop), the timer of the
    drain loop and the clearing of the log leave every account as it
    is: only an upload, a deletion or an attempt coming back writes
    accounts; in particular a stop request leaves the records that were
    not attempted [pending]. *)
Theorem control_keeps_accounts (sv sv' : Engine.Server) (e : Engine.Event)
        (r : option Engine.Reply) :
  Engine.step sv e = Some (sv', r) ->
  Invariant.touchesAccounts e = false ->
  Storage.accounts (Engine.storage sv') = Storage.accounts (Engine.storage sv).
Proof.
  destruct e as [now files | fileId | | now body | now | now | now | now
                | now fetch accountId]; cbn [Engine.step Invariant.touchesAccounts];
    try discriminate.
  - intros [= <- _] _. reflexivity.
  - pose proof (accounts_start now body sv) as H.
    destruct (Engine.start now body sv) as [sv1 r1]. intros [= <- _] _. exact H.
  - pose proof (accounts_pause now sv) as H.
    destruct (Engine.pause now sv) as [sv1 r1]. intros [= <- _] _. exact H.
  - pose proof (accounts_resume now sv) as H.
    destruct (Engine.resume now sv) as [sv1 r1]. intros [= <- _] _. exact H.
  - pose proof (accounts_stop now sv) as H.
    destruct (Engine.stop now sv) as [sv1 r1]. intros [= <- _] _. exact H.
  - destruct (Engine.timers sv) as [| n]; [discriminate |]. intros [= <- _] _.
    rewrite accounts_processValidationQueue. reflexivity.
Qed.

(** A stop request while the first of two records is on the network. *)
Lemma control_keeps_accounts_witness :
  Storage.accounts (Engine.storage (Scenario.after (Sample.oneByOne ++ [Engine.Stop 3])))
  = Storage.accounts (Engine.storage (Scenario.after Sample.oneByOne)).
Proof.
  apply (@control_keeps_accounts
           (Scenario.after Sample.oneByOne)
           (Scenario.after (Sample.oneByOne ++ [Engine.Stop 3]))
           (Engine.Stop 3)
           (Some (Engine.mkReply 200 (Engine.Validacion ++ lit " detenida")))).
  - vm_compute. reflexivity.
  - reflexivity.
Defined.

Section SettleFrame.

Import Storage Engine Invariant.

Lemma record_accounts (now : Z) (account : QueueItem) (result : Prober.Result)
      (st : MemStorage) :
  accounts (record now account result st)
  = accounts (updateAccountStatus now (id account)
                (if Prober.valid result then AccountStatus.valid else AccountStatus.invalid)
                (if Prober.valid result then Prober.storeUrl result else None)
                (if Prober.valid result then None else Prober.error result) st).
Proof. unfold record. destruct (Prober.valid result); reflexivity. Qed.

End SettleFrame.

(** An attempt that comes back writes the account it was made for and
    no other: that account keeps its identifier, file, identifier and
    secret strings, gets the status [valid] or [invalid] as the prober
    says, and the time of the write; if the account was deleted in the
    meantime, no account is written at all. *)
Theorem settle_writes_one_account
        (now : Z) (fetch : Fetch) (accountId : Z) (sv sv' : Engine.Server)
        (account : Engine.QueueItem) (storeUrl : option jsstring) :
  Engine.attemptOf sv accountId = Some (account, storeUrl) ->
  Engine.settle now fetch accountId sv = Some sv' ->
  let result := Prober.validateTiendaNubeAccount
                  fetch (Engine.email account) (Engine.password account) storeUrl in
  (forall other, other <> accountId -> Engine.accountOf sv' other = Engine.accountOf sv other)
  /\ (Engine.accountOf sv accountId = None ->
      Storage.accounts (Engine.storage sv') = Storage.accounts (Engine.storage sv))
  /\ (forall old, Engine.accountOf sv accountId = Some old ->
        exists new,
          Engine.accountOf sv' accountId = Some new
          /\ Account.status new
             = (if Prober.valid result then AccountStatus.valid else AccountStatus.invalid)
          /\ Account.validatedAt new = Some now
          /\ Account.id new = Account.id old
          /\ Account.fileId new = Account.fileId old
          /\ Account.email new = Account.email old
          /\ Account.password new = Account.password old).
Proof.
  unfold Engine.attemptOf, Engine.settle, Engine.accountOf.
  destruct (Engine.cycle sv) as [c |]; [| discriminate].
  destruct (Engine.take accountId (Engine.waiting c)) as [[[account' storeUrl'] rest] |] eqn:Ht;
    [| discriminate].
  pose proof (take_id _ _ Ht) as Hid. cbn in Hid.
  cbn [option_map fst]. intros [= -> ->] [= <-]. cbv zeta.
  rewrite accounts_awaitBatch. cbn [Engine.storage].
  rewrite attempted_settled, record_accounts, Hid. unfold Storage.updateAccountStatus.
  destruct (JsMap.get (Storage.accounts (Engine.storage sv)) accountId) as [old |] eqn:Hold.
  - cbn [Storage.accounts Storage.withAccounts]. split; [| split].
    + intros other Hne. apply get_set_other. congruence.
    + discriminate.
    + intros old' [= <-]. eexists. split; [apply get_set_same |]. cbn. repeat split.
  - split; [| split]; [reflexivity | reflexivity | discriminate].
Qed.

(** The attempt of [probing] on a network that is down. *)
Lemma settle_writes_one_account_witness :
  exists new,
    Engine.accountOf
      (Scenario.after [Engine.UploadFiles 1 [Scenario.fileWithUrl];
                       Engine.Start 2 Scenario.defaults;
                       Engine.Settle 3 Scenario.down 1]) 1 = Some new
    /\ Account.status new = AccountStatus.invalid
    /\ Account.validatedAt new = Some 3%Z
    /\ Account.email new = lit "user@foo.com".
Proof.
  destruct (@settle_writes_one_account
              3 Scenario.down 1 Scenario.probing
              (Scenario.after [Engine.UploadFiles 1 [Scenario.fileWithUrl];
                               Engine.Start 2 Scenario.defaults;
                               Engine.Settle 3 Scenario.down 1])
              (Engine.mkItem 1 (lit "user@foo.com") (lit "pass1"))
              (Some (lit "https://foo.mitiendanube.com"))
              ltac:(vm_compute; reflexivity) ltac:(vm_compute; reflexivity))
    as (_ & _ & H).
  destruct (H (Account.mk 1 (Some 1%Z) (lit "user@foo.com") (lit "pass1")
                          (Some (lit "https://foo.mitiendanube.com"))
                          AccountStatus.pending None None)
              ltac:(vm_compute; reflexivity))
    as (new & Hget & Hst & Hat & _ & _ & Hemail & _).
  exists new. repeat split; assumption.
Defined.

(* ------------------------------------------------------------------ *)
(** ** The life of a job *)
(* ------------------------------------------------------------------ *)

Section JobFacts.

Import Storage Engine Invariant.

Lemma kept_refl (job : Job.t) : Kept job job.
Proof. repeat split; auto. Qed.

Lemma jobsKept_same (st st' : MemStorage) : jobs st' = jobs st -> JobsKept st st'.
Proof. intros H jobId job Hget. rewrite H. eauto using kept_refl. Qed.

Lemma jobsKept_trans (st1 st2 st3 : MemStorage) :
  JobsKept st1 st2 -> JobsKept st2 st3 -> JobsKept st1 st3.
Proof.
  intros H12 H23 jobId job Hget.
  destruct (H12 _ _ Hget) as (job2 & Hget2 & (Hi & Ht & Hs & Hc)).
  destruct (H23 _ _ Hget2) as (job3 & Hget3 & (Hi' & Ht' & Hs' & Hc')).
  exists job3. split; [exact Hget3 |]. repeat split; try congruence. auto.
Qed.

Lemma jobsKept_updateJobProgress (id p v i e : Z) (st : MemStorage) :
  JobsKept st (updateJobProgress id p v i e st).
Proof.
  intros jobId job Hget. unfold updateJobProgress.
  destruct (JsMap.get (jobs st) id) as [target |] eqn:Ht; [| eauto using kept_refl].
  cbn [jobs withJobs]. destruct (Z.eq_dec id jobId) as [-> | Hne].
  - rewrite get_set_same. eexists. split; [reflexivity |].
    assert (target = job) by congruence. subst. repeat split; auto.
  - rewrite get_set_other by exact Hne. eauto using kept_refl.
Qed.

(** A change of status that does not leave [completed]. *)
Lemma jobsKept_updateJobStatus (now id : Z) (status : JobStatus.t) (st : MemStorage) :
  (forall target, JsMap.get (jobs st) id = Some target ->
                  Job.status target = JobStatus.completed ->
                  status = JobStatus.completed) ->
  JobsKept st (updateJobStatus now id status st).
Proof.
  intros Hok jobId job Hget. unfold updateJobStatus.
  destruct (JsMap.get (jobs st) id) as [target |] eqn:Ht; [| eauto using kept_refl].
  cbn [jobs withJobs]. destruct (Z.eq_dec id jobId) as [-> | Hne].
  - rewrite get_set_same. eexists. split; [reflexivity |].
    assert (target = job) by congruence. subst.
    specialize (Hok _ eq_refl).
    destruct status; repeat split; auto.
  - rewrite get_set_other by exact Hne. eauto using kept_refl.
Qed.

Lemma jobsKept_createValidationJob (ins : InsertJob) (st : MemStorage) :
  WellFormed st -> JobsKept st (fst (createValidationJob ins st)).
Proof.
  intros Hwf jobId job Hget. cbn.
  assert (Hb : (0 < jobId < currentJobId st)%Z).
  { eapply Keyed_get_id; [apply (wf_jobs Hwf) | exact Hget]. }
  rewrite get_set_other by lia. eauto using kept_refl.
Qed.

Lemma getCurrentJob_in (st : MemStorage) (job : Job.t) :
  getCurrentJob st = Some job -> In job (JsMap.values (jobs st)).
Proof.
  unfold getCurrentJob. destruct (find isActive _) as [found |] eqn:Hf.
  - intros [= <-]. now apply find_some in Hf.
  - apply nth_error_In.
Qed.

Lemma getCurrentJob_get (st : MemStorage) (job : Job.t) :
  WellFormed st -> getCurrentJob st = Some job ->
  JsMap.get (jobs st) (Job.id job) = Some job.
Proof.
  intros Hwf Hc. eapply Keyed_value_get; [apply (wf_jobs Hwf) |].
  now apply getCurrentJob_in.
Qed.

Lemma jobsKept_finishCycle (now : Z) (job : Job.t) (sv : Server) :
  JobsKept (storage sv) (storage (finishCycle now job sv)).
Proof.
  unfold finishCycle.
  set (st1 := updateJobProgress _ _ _ _ _ _).
  assert (H1 : JobsKept (storage sv) st1) by apply jobsKept_updateJobProgress.
  destruct (getCurrentJob st1) as [updatedJob |]; cbn [storage]; [| exact H1].
  destruct (isRunning updatedJob && _); cbn [storage]; [exact H1 |].
  destruct (length (validationQueue sv) =? 0)%nat; cbn [storage]; [| exact H1].
  eapply jobsKept_trans; [exact H1 |]. apply jobsKept_updateJobStatus. auto.
Qed.

Lemma jobsKept_awaitBatch (now : Z) (sv : Server) :
  JobsKept (storage sv) (storage (awaitBatch now sv)).
Proof.
  unfold awaitBatch.
  destruct (cycle sv) as [[job [| x l]] |];
    try apply jobsKept_finishCycle; now apply jobsKept_same.
Qed.

Lemma jobsKept_processValidationQueue (now : Z) (sv : Server) :
  JobsKept (storage sv) (storage (processValidationQueue now sv)).
Proof.
  unfold processValidationQueue.
  destruct (isValidating sv || _); [now apply jobsKept_same |].
  destruct (getCurrentJob (storage sv)) as [job |]; [| now apply jobsKept_same].
  destruct (isRunning job); [| now apply jobsKept_same].
  eapply jobsKept_trans; [| apply jobsKept_awaitBatch]. cbn [storage].
  apply jobsKept_same, accounts_announce.
Qed.

Lemma jobs_uploadOne (now : Z) (st : MemStorage) (file : Upload) :
  jobs (uploadOne now st file) = jobs st.
Proof.
  unfold uploadOne.
  destruct (negb (endsWith (originalname file) (lit ".txt"))); [reflexivity |].
  destruct (createFile now _ st) as [st1 uploadedFile] eqn:E1.
  destruct (createAccountsBatch _ st1) as [st2 created] eqn:E2.
  cbn [jobs addLog withLogs].
  change st2 with (fst (st2, created)). rewrite <- E2, jobs_createAccountsBatch.
  unfold createFile in E1. injection E1 as <- _. reflexivity.
Qed.

Lemma jobs_upload (now : Z) (files : list Upload) :
  forall st, jobs (fold_left (uploadOne now) files st) = jobs st.
Proof.
  induction files as [| file files IH]; intros st; [reflexivity |].
  cbn [fold_left]. rewrite IH. apply jobs_uploadOne.
Qed.

Lemma jobsKept_step (sv sv' : Server) (e : Event) (r : option Reply) :
  Sound sv -> step sv e = Some (sv', r) -> JobsKept (storage sv) (storage sv').
Proof.
  intros Hs. pose proof (proj1 (steady_store (sound_steady Hs))) as Hwf.
  destruct e as [now files | fileId | | now body | now | now | now | now
                | now fetch accountId]; cbn [step].
  - unfold upload. destruct files as [| f files]; intros [= <- _];
      apply jobsKept_same; [reflexivity |].
    cbn [storage withStorage]. apply (jobs_upload now (f :: files)).
  - intros [= <- _]. now apply jobsKept_same.
  - intros [= <- _]. now apply jobsKept_same.
  - unfold start. destruct (parseSettings body) as [settings |];
      [| intros [= <- _]; now apply jobsKept_same].
    cbn [storage]. destruct (length _ =? 0)%nat; [intros [= <- _]; now apply jobsKept_same |].
    cbn [createValidationJob]. intros [= <- _].
    eapply jobsKept_trans; [| apply jobsKept_processValidationQueue]. cbn [storage].
    eapply jobsKept_trans; [| now apply jobsKept_same].
    eapply jobsKept_trans;
      [apply (@jobsKept_createValidationJob
                (mkInsertJob JobStatus.running settings
                   (Z.of_nat (length (filter (hasStatus AccountStatus.pending)
                                             (getAllAccounts (storage sv))))) 0 0 0 0)
                (storage sv) Hwf) |].
    apply jobsKept_updateJobStatus. cbn. intros target.
    rewrite get_set_same. intros [= <-]. discriminate.
  - unfold pause. destruct (getCurrentJob (storage sv)) as [job |] eqn:Hc;
      [| intros [= <- _]; now apply jobsKept_same].
    destruct (JobStatus.eqb _ _) eqn:E; intros [= <- _]; [| now apply jobsKept_same].
    cbn [storage withStorage].
    eapply jobsKept_trans; [| now apply jobsKept_same].
    apply jobsKept_updateJobStatus. intros target.
    rewrite (getCurrentJob_get Hwf Hc). intros [= <-] Hcompleted.
    rewrite Hcompleted in E. discriminate.
  - unfold resume. destruct (getCurrentJob (storage sv)) as [job |] eqn:Hc;
      [| intros [= <- _]; now apply jobsKept_same].
    destruct (JobStatus.eqb _ _) eqn:E; intros [= <- _]; [| now apply jobsKept_same].
    eapply jobsKept_trans; [| apply jobsKept_processValidationQueue].
    cbn [storage withStorage].
    eapply jobsKept_trans; [| now apply jobsKept_same].
    apply jobsKept_updateJobStatus. intros target.
    rewrite (getCurrentJob_get Hwf Hc). intros [= <-] Hcompleted.
    rewrite Hcompleted in E. discriminate.
  - unfold stop. destruct (getCurrentJob (storage sv)) as [job |] eqn:Hc;
      [| intros [= <- _]; now apply jobsKept_same].
    destruct (isActive job) eqn:E; intros [= <- _]; [| now apply jobsKept_same].
    cbn [storage].
    eapply jobsKept_trans; [| now apply jobsKept_same].
    apply jobsKept_updateJobStatus. intros target.
    rewrite (getCurrentJob_get Hwf Hc). intros [= <-] Hcompleted.
    unfold isActive in E. rewrite Hcompleted in E. discriminate.
  - destruct (timers sv) as [| n]; [discriminate |]. intros [= <- _].
    apply (jobsKept_processValidationQueue now
             (mkServer (storage sv) (validationQueue sv) (isValidating sv)
                       (validationSettings sv) (cycle sv) n (sent sv))).
  - unfold settle. destruct (cycle sv) as [c |]; [| discriminate].
    destruct (take accountId (waiting c)) as [[[account storeUrl] rest] |]; [| discriminate].
    intros [= <- _].
    eapply jobsKept_trans; [| apply jobsKept_awaitBatch]. cbn [storage].
    apply jobsKept_same. rewrite attempted_settled. unfold record.
    destruct (Prober.valid _); cbn [jobs addLog withLogs]; apply jobs_updateAccountStatus.
Qed.

Lemma jobsKept_run (events : list Event) :
  forall sv sv', Sound sv -> run sv events = Some sv' ->
                 JobsKept (storage sv) (storage sv').
Proof.
  induction events as [| e events IH]; intros sv sv' Hs; cbn [run].
  - intros [= <-]. now apply jobsKept_same.
  - destruct (step sv e) as [[sv1 r] |] eqn:E; [| discriminate].
    intros Hrun. eapply jobsKept_trans; [eapply jobsKept_step; eauto |].
    apply IH; [eapply sound_step; eauto | exact Hrun].
Qed.

End JobFacts.

(** Whatever happens after a state that a run has reached, a job of
    that state is still there, with the same identifier, total and
    settings, and a job that was [completed] is [completed]: jobs are
    never removed, and no request or cycle takes a job out of
    [completed]. *)
Theorem completed_stays_completed
        (before later : list Engine.Event) (sv sv' : Engine.Server)
        (jobId : Z) (job : Job.t) :
  Engine.run Engine.initial before = Some sv ->
  Engine.run sv later = Some sv' ->
  Engine.jobOf sv jobId = Some job ->
  exists job',
    Engine.jobOf sv' jobId = Some job'
    /\ Job.id job' = Job.id job
    /\ Job.totalAccounts job' = Job.totalAccounts job
    /\ Job.settings job' = Job.settings job
    /\ (Job.status job = JobStatus.completed -> Job.status job' = JobStatus.completed).
Proof.
  intros Hbefore Hlater Hjob.
  apply (jobsKept_run later (sound_run before sound_initial Hbefore) Hlater _ Hjob).
Qed.

(** A job that ran to its end, then vain control requests, an upload
    and a second job. *)
Lemma completed_stays_completed_witness :
  exists job',
    Engine.jobOf
      (Scenario.after (Sample.finished
                       ++ [Engine.Pause 4; Engine.Resume 5; Engine.Stop 6;
                           Engine.UploadFiles 7 [Scenario.fileB];
                           Engine.Start 8 Scenario.defaults;
                           Engine.Settle 9 Scenario.down 2])) 1 = Some job'
    /\ Job.status job' = JobStatus.completed.
Proof.
  destruct (@completed_stays_completed
              Sample.finished
              [Engine.Pause 4; Engine.Resume 5; Engine.Stop 6;
               Engine.UploadFiles 7 [Scenario.fileB];
               Engine.Start 8 Scenario.defaults;
               Engine.Settle 9 Scenario.down 2]
              (Scenario.after Sample.finished)
              (Scenario.after (Sample.finished
                               ++ [Engine.Pause 4; Engine.Resume 5; Engine.Stop 6;
                                   Engine.UploadFiles 7 [Scenario.fileB];
                                   Engine.Start 8 Scenario.defaults;
                                   Engine.Settle 9 Scenario.down 2]))
              1
              (Job.mk 1 JobStatus.completed (mkSettings 10 30 3) 1 1 0 1 0
                      (Some 2%Z) None (Some 3%Z))
              ltac:(vm_compute; reflexivity) ltac:(vm_compute; reflexivity)
              ltac:(vm_compute; reflexivity))
    as (job' & Hget & _ & _ & _ & Hdone).
  exists job'. split; [exact Hget | now apply Hdone].
Defined.

(* ------------------------------------------------------------------ *)
(** ** The four control requests, when they go through *)
(* ------------------------------------------------------------------ *)

Section ControlFacts.

Import Storage Engine Invariant.

(** The jobs after a change of status of the current job. *)
Lemma restamp_current (now : Z) (status : JobStatus.t) (st : MemStorage) (job : Job.t) :
  WellFormed st -> getCurrentJob st = Some job ->
  exists job',
    JsMap.get (jobs (updateJobStatus now (Job.id job) status st)) (Job.id job) = Some job'
    /\ updateJobStatus now (Job.id job) status st
       = withJobs st (JsMap.set (jobs st) (Job.id job) job') (currentJobId st)
    /\ Job.status job' = status
    /\ Job.id job' = Job.id job
    /\ Job.settings job' = Job.settings job
    /\ Job.totalAccounts job' = Job.totalAccounts job
    /\ Job.processedAccounts job' = Job.processedAccounts job
    /\ Job.validAccounts job' = Job.validAccounts job
    /\ Job.invalidAccounts job' = Job.invalidAccounts job
    /\ Job.errorAccounts job' = Job.errorAccounts job
    /\ Job.startedAt job'
       = match status with JobStatus.running => Some now | _ => Job.startedAt job end
    /\ Job.pausedAt job'
       = match status with
         | JobStatus.running => None
         | JobStatus.paused => Some now
         | _ => Job.pausedAt job
         end
    /\ Job.completedAt job'
       = match status with
         | JobStatus.stopped | JobStatus.completed => Some now
         | _ => Job.completedAt job
         end
    /\ (forall other, other <> Job.id job ->
                      JsMap.get (jobs (updateJobStatus now (Job.id job) status st)) other
                      = JsMap.get (jobs st) other).
Proof.
  intros Hwf Hc. pose proof (getCurrentJob_get Hwf Hc) as Hget.
  unfold updateJobStatus. rewrite Hget. cbn [jobs withJobs].
  eexists. split; [apply get_set_same |]. split; [reflexivity |].
  destruct status; cbn; repeat split; intros other Hne; apply get_set_other; congruence.
Qed.

End ControlFacts.

(** A stop request, when the current job is [running] or [paused], is
    answered with a 200, empties the queue and makes the job [stopped]
    with the time of the request as its completion time; its counters,
    every other job and every account stay as they are, and so do the
    flag and the batch on the network, whose attempts are still to come
    back.  Otherwise it is answered with a 400 and changes nothing. *)
Theorem stop_effect (events : list Engine.Event) (sv : Engine.Server) (now : Z) :
  Engine.run Engine.initial events = Some sv ->
  let sv' := fst (Engine.stop now sv) in
  match Storage.getCurrentJob (Engine.storage sv) with
  | Some job =>
      if Storage.isActive job then
        Engine.code (snd (Engine.stop now sv)) = 200%Z
        /\ Engine.validationQueue sv' = []
        /\ Engine.jobOf sv' (Job.id job)
           = Some (Job.mk (Job.id job) JobStatus.stopped (Job.settings job)
                          (Job.totalAccounts job) (Job.processedAccounts job)
                          (Job.validAccounts job) (Job.invalidAccounts job)
                          (Job.errorAccounts job) (Job.startedAt job) (Job.pausedAt job)
                          (Some now))
        /\ (forall other, other <> Job.id job ->
                          Engine.jobOf sv' other = Engine.jobOf sv other)
        /\ Storage.accounts (Engine.storage sv') = Storage.accounts (Engine.storage sv)
        /\ Engine.isValidating sv' = Engine.isValidating sv
        /\ Engine.cycle sv' = Engine.cycle sv
      else Engine.stop now sv
           = (sv, Engine.mkReply 400 (lit "No hay " ++ Engine.validacion ++ lit " activa"))
  | None => Engine.stop now sv
            = (sv, Engine.mkReply 400 (lit "No hay " ++ Engine.validacion ++ lit " activa"))
  end.
Proof.
  intros Hrun. cbv zeta.
  pose proof (proj1 (Invariant.steady_store
                       (Invariant.sound_steady (sound_run events sound_initial Hrun)))) as Hwf.
  unfold Engine.stop, Engine.jobOf.
  destruct (Storage.getCurrentJob (Engine.storage sv)) as [job |] eqn:Hc; [| reflexivity].
  destruct (Storage.isActive job); [| reflexivity].
  cbn [fst snd Engine.code Engine.validationQueue Engine.storage Engine.isValidating
       Engine.cycle Storage.addLog Storage.withLogs Storage.jobs].
  destruct (restamp_current now JobStatus.stopped Hwf Hc)
    as (job' & Hget & _ & Hst & Hid & Hse & Ht & Hp & Hv & Hi & He & Hsa & Hpa & Hca & Hother).
  repeat split; auto.
  - rewrite Hget. f_equal. destruct job'; cbn in *. congruence.
  - cbn [Storage.accounts]. apply accounts_updateJobStatus.
Qed.

(** The job of [oneByOne], stopped while its first attempt is out. *)
Lemma stop_effect_witness :
  Engine.validationQueue (fst (Engine.stop 3 (Scenario.after Sample.oneByOne))) = []
  /\ option_map Job.status
       (Engine.jobOf (fst (Engine.stop 3 (Scenario.after Sample.oneByOne))) 1)
     = Some JobStatus.stopped
  /\ Engine.cycle (fst (Engine.stop 3 (Scenario.after Sample.oneByOne)))
     = Engine.cycle (Scenario.after Sample.oneByOne).
Proof.
  pose proof (@stop_effect Sample.oneByOne (Scenario.after Sample.oneByOne) 3
                           ltac:(vm_compute; reflexivity)) as H.
  cbv zeta in H.
  change (Storage.getCurrentJob (Engine.storage (Scenario.after Sample.oneByOne)))
    with (Some (Job.mk 1 JobStatus.running (mkSettings 1 30 3) 2 0 0 0 0
                       (Some 2%Z) None None)) in H.
  cbn [Storage.isActive Job.status Job.id] in H.
  destruct H as (_ & Hq & Hjob & _ & _ & _ & Hcycle).
  split; [exact Hq | split; [| exact Hcycle]].
  rewrite Hjob. reflexivity.
Defined.

(** A pause request, when the current job is [running], is answered
    with a 200 and makes the job [paused] with the time of the request
    as its pause time; the queue, the flag, the batch on the network,
    the counters of the job, every other job and every account stay as
    they are. *)
Theorem pause_effect (events : list Engine.Event) (sv : Engine.Server) (now : Z)
        (job : Job.t) :
  Engine.run Engine.initial events = Some sv ->
  Storage.getCurrentJob (Engine.storage sv) = Some job ->
  Job.status job = JobStatus.running ->
  let sv' := fst (Engine.pause now sv) in
  Engine.code (snd (Engine.pause now sv)) = 200%Z
  /\ Engine.jobOf sv' (Job.id job)
     = Some (Job.mk (Job.id job) JobStatus.paused (Job.settings job)
                    (Job.totalAccounts job) (Job.processedAccounts job)
                    (Job.validAccounts job) (Job.invalidAccounts job)
                    (Job.errorAccounts job) (Job.startedAt job) (Some now)
                    (Job.completedAt job))
  /\ (forall other, other <> Job.id job -> Engine.jobOf sv' other = Engine.jobOf sv other)
  /\ Storage.accounts (Engine.storage sv') = Storage.accounts (Engine.storage sv)
  /\ Engine.validationQueue sv' = Engine.validationQueue sv
  /\ Engine.isValidating sv' = Engine.isValidating sv
  /\ Engine.cycle sv' = Engine.cycle sv.
Proof.
  intros Hrun Hc Hst. cbv zeta.
  pose proof (proj1 (Invariant.steady_store
                       (Invariant.sound_steady (sound_run events sound_initial Hrun)))) as Hwf.
  unfold Engine.pause, Engine.jobOf. rewrite Hc, Hst.
  cbn [JobStatus.eqb fst snd Engine.code Engine.validationQueue Engine.storage
       Engine.isValidating Engine.cycle Engine.withStorage
       Storage.addLog Storage.withLogs Storage.jobs].
  destruct (restamp_current now JobStatus.paused Hwf Hc)
    as (job' & Hget & _ & Hst' & Hid & Hse & Ht & Hp & Hv & Hi & He & Hsa & Hpa & Hca & Hother).
  repeat split; auto.
  - rewrite Hget. f_equal. destruct job'; cbn in *. congruence.
  - cbn [Storage.accounts]. apply accounts_updateJobStatus.
Qed.

(** The job of [oneByOne], paused while its first attempt is out. *)
Lemma pause_effect_witness :
  option_map (fun job => (Job.status job, Job.pausedAt job))
    (Engine.jobOf (fst (Engine.pause 3 (Scenario.after Sample.oneByOne))) 1)
  = Some (JobStatus.paused, Some 3%Z)
  /\ Engine.isValidating (fst (Engine.pause 3 (Scenario.after Sample.oneByOne))) = true.
Proof.
  destruct (@pause_effect Sample.oneByOne (Scenario.after Sample.oneByOne) 3
              (Job.mk 1 JobStatus.running (mkSettings 1 30 3) 2 0 0 0 0
                      (Some 2%Z) None None)
              ltac:(vm_compute; reflexivity) ltac:(vm_compute; reflexivity) eq_refl)
    as (_ & Hjob & _ & _ & _ & Hflag & _).
  split; [cbn [Job.id] in Hjob; rewrite Hjob; reflexivity |].
  rewrite Hflag. vm_compute. reflexivity.
Defined.

(** A resume request, when the current job is [paused], is answered
    with a 200 and makes the job [running]; its pause time is cleared
    and its start time becomes the time of the request, the time of
    the first start being lost; its counters and completion time, every
    other job and every account stay as they are. *)
Theorem resume_effect (events : list Engine.Event) (sv : Engine.Server) (now : Z)
        (job : Job.t) :
  Engine.run Engine.initial events = Some sv ->
  Storage.getCurrentJob (Engine.storage sv) = Some job ->
  Job.status job = JobStatus.paused ->
  let sv' := fst (Engine.resume now sv) in
  Engine.code (snd (Engine.resume now sv)) = 200%Z
  /\ Engine.jobOf sv' (Job.id job)
     = Some (Job.mk (Job.id job) JobStatus.running (Job.settings job)
                    (Job.totalAccounts job) (Job.processedAccounts job)
                    (Job.validAccounts job) (Job.invalidAccounts job)
                    (Job.errorAccounts job) (Some now) None (Job.completedAt job))
  /\ (forall other, other <> Job.id job -> Engine.jobOf sv' other = Engine.jobOf sv other)
  /\ Storage.accounts (Engine.storage sv') = Storage.accounts (Engine.storage sv).
Proof.
  intros Hrun Hc Hst. cbv zeta.
  pose proof (sound_run events sound_initial Hrun) as Hsound.
  pose proof (proj1 (Invariant.steady_store (Invariant.sound_steady Hsound))) as Hwf.
  pose proof (proj1 (Invariant.steady_settings (Invariant.sound_steady Hsound))) as [Hw _].
  unfold Engine.resume, Engine.jobOf. rewrite Hc, Hst.
  cbn [JobStatus.eqb fst snd Engine.code].
  rewrite jobs_processValidationQueue by exact Hw.
  rewrite accounts_processValidationQueue.
  cbn [Engine.storage Engine.withStorage Storage.addLog Storage.withLogs Storage.jobs
       Storage.accounts].
  destruct (restamp_current now JobStatus.running Hwf Hc)
    as (job' & Hget & _ & Hst' & Hid & Hse & Ht & Hp & Hv & Hi & He & Hsa & Hpa & Hca & Hother).
  repeat split; auto.
  - rewrite Hget. f_equal. destruct job'; cbn in *. congruence.
  - cbn [Storage.accounts]. apply accounts_updateJobStatus.
Qed.

(** The job of [pausedMidway], started at 2, is resumed at 5. *)
Lemma resume_effect_witness :
  option_map (fun job => (Job.status job, Job.startedAt job, Job.pausedAt job))
    (Engine.jobOf (fst (Engine.resume 5 (Scenario.after Sample.pausedMidway))) 1)
  = Some (JobStatus.running, Some 5%Z, None).
Proof.
  destruct (@resume_effect Sample.pausedMidway (Scenario.after Sample.pausedMidway) 5
              (Job.mk 1 JobStatus.paused (mkSettings 1 30 3) 2 1 0 1 0
                      (Some 2%Z) (Some 4%Z) None)
              ltac:(vm_compute; reflexivity) ltac:(vm_compute; reflexivity) eq_refl)
    as (_ & Hjob & _).
  cbn [Job.id] in Hjob. rewrite Hjob. reflexivity.
Defined.

Section StartFacts.

Import Storage Engine Invariant.

Lemma settings_finishCycle (now : Z) (job : Job.t) (sv : Server) :
  validationSettings (finishCycle now job sv) = validationSettings sv.
Proof.
  unfold finishCycle. destruct (getCurrentJob _); [| reflexivity].
  destruct (_ && _); [reflexivity |]. destruct (_ =? _)%nat; reflexivity.
Qed.

Lemma settings_processValidationQueue (now : Z) (sv : Server) :
  validationSettings (processValidationQueue now sv) = validationSettings sv.
Proof.
  unfold processValidationQueue.
  destruct (_ || _); [reflexivity |].
  destruct (getCurrentJob _); [| reflexivity].
  destruct (isRunning _); [| reflexivity].
  unfold awaitBatch. cbn [cycle].
  destruct (map _ _); [rewrite settings_finishCycle |]; reflexivity.
Qed.

(** The jobs after a start request that goes through. *)
Lemma jobs_start (now : Z) (body : RawSettings) (sv : Server) (settings : Settings)
      (a : Account.t) (rest : list Account.t) :
  parseSettings body = Some settings ->
  filter (hasStatus AccountStatus.pending) (getAllAccounts (storage sv)) = a :: rest ->
  let k := currentJobId (storage sv) in
  let total := Z.of_nat (length (a :: rest)) in
  jobs (storage (fst (start now body sv)))
  = JsMap.set (JsMap.set (jobs (storage sv)) k
                         (Job.mk k JobStatus.running settings total 0 0 0 0 None None None))
              k (Job.mk k JobStatus.running settings total 0 0 0 0 (Some now) None None)
  /\ validationSettings (fst (start now body sv)) = settings
  /\ snd (start now body sv) = mkReply 200 (Validacion ++ lit " iniciada").
Proof.
  intros Hp Hpending. cbv zeta.
  pose proof (parseSettings_inBounds _ Hp) as [[Hw _] _].
  unfold start. rewrite Hp. cbn [storage]. rewrite Hpending.
  cbn [length Nat.eqb createValidationJob fst snd].
  rewrite jobs_processValidationQueue by exact Hw.
  rewrite settings_processValidationQueue.
  split; [| split; reflexivity].
  cbn [storage jobs addLog withLogs]. unfold updateJobStatus.
  cbn [jobs withJobs Job.id]. rewrite get_set_same. reflexivity.
Qed.

End StartFacts.

(** A start request is answered in one of three ways.  A body outside
    the schema: 500, nothing changes.  A body within it: the settings
    of the server are replaced, and then, with no account pending: 400,
    no job is created and store, queue and flag stay as they are;
    with accounts pending: 200, and a job is created under the next
    identifier, [running], started at the time of the request, with the
    number of pending accounts as its total and its counters at 0,
    every earlier job and every account staying as it is -- whatever
    the state of the earlier jobs. *)
Theorem start_three_ways (events : list Engine.Event) (sv : Engine.Server)
        (now : Z) (body : Engine.RawSettings) :
  Engine.run Engine.initial events = Some sv ->
  let pending := filter (Engine.hasStatus AccountStatus.pending)
                        (Storage.getAllAccounts (Engine.storage sv)) in
  let sv' := fst (Engine.start now body sv) in
  let reply := snd (Engine.start now body sv) in
  match Engine.parseSettings body with
  | None => sv' = sv /\ Engine.code reply = 500%Z
  | Some settings =>
      Engine.validationSettings sv' = settings
      /\ match pending with
         | [] =>
             Engine.code reply = 400%Z
             /\ Engine.storage sv' = Engine.storage sv
             /\ Engine.validationQueue sv' = Engine.validationQueue sv
             /\ Engine.isValidating sv' = Engine.isValidating sv
             /\ Engine.cycle sv' = Engine.cycle sv
         | _ :: _ =>
             Engine.code reply = 200%Z
             /\ Engine.jobOf sv' (Storage.currentJobId (Engine.storage sv))
                = Some (Job.mk (Storage.currentJobId (Engine.storage sv))
                               JobStatus.running settings
                               (Z.of_nat (length pending)) 0 0 0 0
                               (Some now) None None)
             /\ (forall jobId job, Engine.jobOf sv jobId = Some job ->
                                   Engine.jobOf sv' jobId = Some job)
             /\ Storage.accounts (Engine.storage sv') = Storage.accounts (Engine.storage sv)
         end
  end.
Proof.
  intros Hrun. cbv zeta.
  pose proof (sound_run events sound_initial Hrun) as Hsound.
  pose proof (proj1 (Invariant.steady_store (Invariant.sound_steady Hsound))) as Hwf.
  pose proof (accounts_start now body sv) as Hacc.
  destruct (Engine.parseSettings body) as [settings |] eqn:Hp.
  2:{ unfold Engine.start. rewrite Hp. now split. }
  destruct (filter _ _) as [| a pending] eqn:Hpending.
  - unfold Engine.start. rewrite Hp. cbn [Engine.storage]. rewrite Hpending.
    cbn [length Nat.eqb fst snd]. repeat split.
  - destruct (@jobs_start now body sv settings a pending Hp Hpending)
      as (Hjobs & Hsettings & Hreply).
    unfold Engine.jobOf. rewrite Hjobs, Hreply.
    split; [exact Hsettings |]. split; [reflexivity |].
    split; [apply get_set_same |]. split; [| exact Hacc].
    intros jobId job Hget.
    assert (Hb : (0 < jobId < Storage.currentJobId (Engine.storage sv))%Z).
    { eapply Keyed_get_id; [apply (Invariant.wf_jobs Hwf) | exact Hget]. }
    rewrite !get_set_other by lia. exact Hget.
Qed.

(** No account is pending after the job of [finished]: 400. *)
Lemma start_three_ways_witness :
  Engine.code (snd (Engine.start 4 Scenario.defaults (Scenario.after Sample.finished)))
  = 400%Z
  /\ Engine.storage (fst (Engine.start 4 Scenario.defaults (Scenario.after Sample.finished)))
     = Engine.storage (Scenario.after Sample.finished).
Proof.
  pose proof (@start_three_ways Sample.finished (Scenario.after Sample.finished) 4
                                Scenario.defaults ltac:(vm_compute; reflexivity)) as H.
  cbv zeta in H.
  change (Engine.parseSettings Scenario.defaults) with (Some (mkSettings 10 30 3)) in H.
  change (filter (Engine.hasStatus AccountStatus.pending)
                 (Storage.getAllAccounts (Engine.storage (Scenario.after Sample.finished))))
    with (@nil Account.t) in H.
  destruct H as (_ & Hcode & Hstore & _). split; assumption.
Defined.

(* ------------------------------------------------------------------ *)
(** ** Uploads and deletions *)
(* ------------------------------------------------------------------ *)

Section UploadFacts.

Import Storage Engine Invariant.

Lemma Keyed_numbered (l : list InsertAccount) :
  forall (m : JsMap.t Account.t) (first : Z),
    Keyed Account.id first m -> (0 < first)%Z ->
    Keyed Account.id (first + Z.of_nat (length l)) (m ++ map entryOf (numbered first l)).
Proof.
  induction l as [| ins l IH]; intros m first HK Hpos.
  - cbn [numbered map length Z.of_nat]. now rewrite app_nil_r, Z.add_0_r.
  - cbn [numbered map entryOf Account.id length].
    replace (first + Z.of_nat (S (length l)))%Z with (first + 1 + Z.of_nat (length l))%Z by lia.
    change (m ++ ?e :: ?t) with (m ++ [e] ++ t). rewrite app_assoc.
    apply IH; [| lia].
    unfold entryOf. cbn [Account.id].
    rewrite <- set_absent by (eapply Keyed_fresh; eauto).
    apply Keyed_add; [exact HK | exact Hpos | reflexivity].
Qed.

Lemma createAccountsBatch_numbered (l : list InsertAccount) :
  forall st,
    Keyed Account.id (currentAccountId st) (accounts st) ->
    (0 < currentAccountId st)%Z ->
    createAccountsBatch l st
    = (withAccounts st
         (accounts st ++ map entryOf (numbered (currentAccountId st) l))
         (currentAccountId st + Z.of_nat (length l)),
       numbered (currentAccountId st) l).
Proof.
  induction l as [| ins l IH]; intros st HK Hpos.
  - cbn [createAccountsBatch numbered map length Z.of_nat].
    rewrite app_nil_r, Z.add_0_r. destruct st; reflexivity.
  - cbn [createAccountsBatch createAccount].
    pose proof (@Keyed_numbered [ins] (accounts st) (currentAccountId st) HK Hpos) as HK1.
    cbn [numbered map length Z.of_nat Pos.of_succ_nat] in HK1.
    unfold entryOf in HK1. cbn [Account.id] in HK1.
    rewrite set_absent by (eapply Keyed_fresh; eauto).
    rewrite IH; [| exact HK1 | cbn; lia].
    cbn [accounts currentAccountId withAccounts numbered map entryOf Account.id].
    unfold withAccounts. cbn [files jobs logs currentFileId currentJobId currentLogId].
    rewrite <- app_assoc. cbn [app].
    replace (currentAccountId st + 1 + Z.of_nat (length l))%Z
      with (currentAccountId st + Z.of_nat (length (ins :: l)))%Z
      by (cbn [length]; lia).
    reflexivity.
Qed.

Lemma numbered_ids (l : list InsertAccount) :
  forall first,
    map Account.id (numbered first l)
    = map (fun i => (first + Z.of_nat i)%Z) (seq 0 (length l)).
Proof.
  induction l as [| ins l IH]; intros first; [reflexivity |].
  cbn [numbered map length seq Account.id]. f_equal; [cbn; lia |].
  rewrite IH, <- seq_shift, map_map. apply map_ext. intros i. lia.
Qed.

Lemma numbered_length (l : list InsertAccount) :
  forall first, length (numbered first l) = length l.
Proof.
  induction l as [| ins l IH]; intros first; [reflexivity |].
  cbn [numbered length]. now rewrite IH.
Qed.

Lemma uploaded_fields (st : MemStorage) (file : Upload) :
  (0 < currentFileId st)%Z ->
  Forall2 (fun (r : Parser.ParsedAccount) (a : Account.t) =>
             Account.email a = Parser.email r
             /\ Account.password a = Parser.password r
             /\ Account.storeUrl a = orElse (Parser.storeUrl r) None
             /\ Account.status a = AccountStatus.pending
             /\ Account.fileId a = Some (currentFileId st)
             /\ Account.errorMessage a = None
             /\ Account.validatedAt a = None)
          (Parser.parseAccountFile (content file)) (uploaded st file).
Proof.
  intros Hpos. unfold uploaded. generalize (currentAccountId st) as first.
  induction (Parser.parseAccountFile (content file)) as [| r l IH]; intros first;
    cbn [map numbered]; constructor; [| apply IH].
  cbn. repeat split.
  - destruct (Parser.storeUrl r) as [[| c u] |]; reflexivity.
  - destruct (currentFileId st); try lia; reflexivity.
Qed.

Lemma uploadOne_store (now : Z) (st : MemStorage) (file : Upload) :
  WellFormed st ->
  endsWith (originalname file) (lit ".txt") = true ->
  accounts (uploadOne now st file) = accounts st ++ map entryOf (uploaded st file)
  /\ files (uploadOne now st file)
     = files st ++ [(currentFileId st,
                     File.mk (currentFileId st) (originalname file) (fileSize file)
                             (Z.of_nat (length (uploaded st file)))
                             FileStatus.processed (Some now))]
  /\ currentFileId (uploadOne now st file) = (currentFileId st + 1)%Z
  /\ jobs (uploadOne now st file) = jobs st.
Proof.
  intros Hwf Htxt. unfold uploadOne. rewrite Htxt. cbn [negb createFile File.id].
  rewrite createAccountsBatch_numbered.
  - cbn [addLog withLogs withAccounts withFiles accounts files currentFileId
         currentAccountId jobs].
    rewrite set_absent by (eapply Keyed_fresh; apply (wf_files Hwf)).
    unfold uploaded. rewrite numbered_length, length_map. repeat split.
  - apply (wf_accounts Hwf).
  - apply (wf_counters Hwf).
Qed.

Lemma filter_all (A : Type) (f : A -> bool) (l : list A) :
  Forall (fun x => f x = true) l -> filter f l = l.
Proof.
  induction 1 as [| x l Hx _ IH]; [reflexivity |]. cbn [filter]. now rewrite Hx, IH.
Qed.

Lemma filter_none (A : Type) (f : A -> bool) (l : list A) :
  Forall (fun x => f x = false) l -> filter f l = [].
Proof.
  induction 1 as [| x l Hx _ IH]; [reflexivity |]. cbn [filter]. now rewrite Hx, IH.
Qed.

Lemma values_filter_snd (V : Type) (f : V -> bool) (m : JsMap.t V) :
  JsMap.values (filter (fun kv => f (snd kv)) m) = filter f (JsMap.values m).
Proof.
  unfold JsMap.values. induction m as [| kv m IH]; [reflexivity |].
  cbn [filter map]. destruct (f (snd kv)); cbn [map]; now rewrite IH.
Qed.

End UploadFacts.

(** On a well-formed store a batch insertion overwrites nothing: the
    accounts it creates are appended after the stored ones, in the
    order given, under consecutive identifiers from the counter on, and
    the counter advances by their number. *)
Theorem batch_insertion_appends (l : list Storage.InsertAccount) (st : Storage.MemStorage) :
  Invariant.WellFormed st ->
  let created := snd (Storage.createAccountsBatch l st) in
  let st' := fst (Storage.createAccountsBatch l st) in
  Storage.getAllAccounts st' = Storage.getAllAccounts st ++ created
  /\ map Account.id created
     = map (fun i => (Storage.currentAccountId st + Z.of_nat i)%Z) (seq 0 (length l))
  /\ Storage.currentAccountId st'
     = (Storage.currentAccountId st + Z.of_nat (length l))%Z
  /\ Forall2 (fun ins a =>
                Account.email a = Storage.ia_email ins
                /\ Account.password a = Storage.ia_password ins
                /\ Account.status a = Storage.ia_status ins
                /\ Account.validatedAt a = None)
             l created
  /\ (forall a, In a created -> JsMap.get (Storage.accounts st') (Account.id a) = Some a).
Proof.
  intros Hwf. cbv zeta.
  rewrite createAccountsBatch_numbered
    by (apply (Invariant.wf_accounts Hwf) || apply (Invariant.wf_counters Hwf)).
  cbn [fst snd Storage.currentAccountId Storage.withAccounts].
  unfold Storage.getAllAccounts, JsMap.values.
  cbn [Storage.accounts Storage.withAccounts].
  split; [| split; [apply numbered_ids | split; [reflexivity | split]]].
  - rewrite map_app, map_map. cbn. now rewrite map_id.
  - generalize (Storage.currentAccountId st) as first.
    induction l as [| ins l IH]; intros first; cbn [Invariant.numbered]; constructor;
      [cbn; repeat split | apply IH].
  - intros a Hin.
    eapply entry_get.
    + apply (Keyed_numbered l (Invariant.wf_accounts Hwf)).
      apply (Invariant.wf_counters Hwf).
    + apply in_or_app. right. apply in_map_iff. exists a. now split.
Qed.

(** Two accounts inserted into the empty store. *)
Lemma batch_insertion_appends_witness :
  map Account.id
      (snd (Storage.createAccountsBatch
              [Storage.mkInsertAccount None (lit "a@b.com") (lit "x") None
                                       AccountStatus.pending None;
               Storage.mkInsertAccount None (lit "c@d.com") (lit "y") None
                                       AccountStatus.pending None]
              Storage.empty))
  = [1; 2]%Z.
Proof.
  apply (proj1 (proj2 (@batch_insertion_appends
                         [Storage.mkInsertAccount None (lit "a@b.com") (lit "x") None
                                                  AccountStatus.pending None;
                          Storage.mkInsertAccount None (lit "c@d.com") (lit "y") None
                                                  AccountStatus.pending None]
                         Storage.empty wf_empty))).
Defined.

(** The upload of a [.txt] file into a well-formed store adds one
    account per record of the parser, after the stored accounts and in
    the order of the records, each [pending], bound to the new file and
    carrying the identifier, secret and endpoint of its record; the
    file is stored under the next file identifier with the number of
    records as its line count.  A file of another name changes
    nothing. *)
Theorem upload_adds_accounts (now : Z) (st : Storage.MemStorage) (file : Engine.Upload) :
  Invariant.WellFormed st ->
  let st' := Engine.uploadOne now st file in
  let records := Parser.parseAccountFile (Engine.content file) in
  if Engine.endsWith (Engine.originalname file) (lit ".txt") then
    Storage.getAllAccounts st' = Storage.getAllAccounts st ++ Invariant.uploaded st file
    /\ Forall2 (fun (r : Parser.ParsedAccount) (a : Account.t) =>
                  Account.email a = Parser.email r
                  /\ Account.password a = Parser.password r
                  /\ Account.storeUrl a = orElse (Parser.storeUrl r) None
                  /\ Account.status a = AccountStatus.pending
                  /\ Account.fileId a = Some (Storage.currentFileId st)
                  /\ Account.errorMessage a = None
                  /\ Account.validatedAt a = None)
               records (Invariant.uploaded st file)
    /\ map Account.id (Invariant.uploaded st file)
       = map (fun i => (Storage.currentAccountId st + Z.of_nat i)%Z)
             (seq 0 (length records))
    /\ JsMap.get (Storage.files st') (Storage.currentFileId st)
       = Some (File.mk (Storage.currentFileId st) (Engine.originalname file)
                       (Engine.fileSize file) (Z.of_nat (length records))
                       FileStatus.processed (Some now))
  else st' = st.
Proof.
  intros Hwf. cbv zeta.
  destruct (Engine.endsWith (Engine.originalname file) (lit ".txt")) eqn:Htxt.
  2:{ unfold Engine.uploadOne. now rewrite Htxt. }
  destruct (uploadOne_store now file Hwf Htxt) as (Hacc & Hfiles & _ & _).
  split; [| split; [| split]].
  - unfold Storage.getAllAccounts, JsMap.values. rewrite Hacc, map_app, map_map.
    cbn. now rewrite map_id.
  - apply uploaded_fields, (Invariant.wf_counters Hwf).
  - unfold Invariant.uploaded. rewrite numbered_ids, length_map. reflexivity.
  - rewrite Hfiles.
    replace (length (Invariant.uploaded st file))
      with (length (Parser.parseAccountFile (Engine.content file)))
      by (unfold Invariant.uploaded; now rewrite numbered_length, length_map).
    set (stored := File.mk _ _ _ _ _ _).
    assert (HK : Invariant.Keyed File.id (Storage.currentFileId st + 1)
                   (JsMap.set (Storage.files st) (Storage.currentFileId st) stored)).
    { apply Keyed_add;
        [apply (Invariant.wf_files Hwf) | apply (Invariant.wf_counters Hwf) | reflexivity]. }
    rewrite set_absent in HK by (eapply Keyed_fresh; apply (Invariant.wf_files Hwf)).
    apply entry_get; [apply HK | apply in_or_app; right; now left].
Qed.

(** The file of two records, into the empty store. *)
Lemma upload_adds_accounts_witness :
  map (fun a => (Account.id a, Account.fileId a, Account.status a))
      (Storage.getAllAccounts (Engine.uploadOne 1 Storage.empty Sample.fileTwo))
  = [(1, Some 1, AccountStatus.pending); (2, Some 1, AccountStatus.pending)]%Z.
Proof.
  pose proof (@upload_adds_accounts 1 Storage.empty Sample.fileTwo wf_empty) as H.
  cbv zeta in H.
  change (Engine.endsWith (Engine.originalname Sample.fileTwo) (lit ".txt")) with true in H.
  destruct H as (Hacc & _). rewrite Hacc. vm_compute. reflexivity.
Defined.

(** Uploading a [.txt] file and deleting it again gives back the
    accounts, the files and the jobs of before: the deletion removes
    exactly the accounts of that file.  (The counters are not set
    back: the identifiers are not used again.) *)
Theorem upload_then_delete (now : Z) (st : Storage.MemStorage) (file : Engine.Upload) :
  Invariant.WellFormed st ->
  Engine.endsWith (Engine.originalname file) (lit ".txt") = true ->
  let st' := Storage.deleteFile (Storage.currentFileId st) (Engine.uploadOne now st file) in
  Storage.accounts st' = Storage.accounts st
  /\ Storage.files st' = Storage.files st
  /\ Storage.jobs st' = Storage.jobs st
  /\ Storage.currentAccountId st'
     = (Storage.currentAccountId st
        + Z.of_nat (length (Parser.parseAccountFile (Engine.content file))))%Z.
Proof.
  intros Hwf Htxt. cbv zeta.
  destruct (uploadOne_store now file Hwf Htxt) as (Hacc & Hfiles & Hnext & Hjobs).
  pose proof (Invariant.wf_counters Hwf) as (Hf & Ha & _).
  assert (Hnd : NoDup (Invariant.keys (Storage.accounts (Engine.uploadOne now st file)))).
  { rewrite Hacc. apply (Keyed_numbered _ (Invariant.wf_accounts Hwf) Ha). }
  split; [| split; [| split]].
  - rewrite (@deleteFile_accounts _ _ Hnd), Hacc, filter_app.
    rewrite filter_all, filter_none; [apply app_nil_r | |].
    + apply Forall_forall. intros kv Hin. apply in_map_iff in Hin as (a & <- & Hin).
      pose proof (uploaded_fields st file Hf) as Hfields.
      assert (Hfile : Account.fileId a = Some (Storage.currentFileId st)).
      { clear - Hfields Hin. induction Hfields as [| r a' l l' Hra _ IH]; [destruct Hin |].
        destruct Hin as [<- | Hin]; [apply Hra | now apply IH]. }
      cbn. unfold Storage.ofFile. rewrite Hfile, Z.eqb_refl. reflexivity.
    + apply Forall_forall. intros [k a] Hin. cbn.
      pose proof (Invariant.wf_fileIds Hwf) as Hknown. rewrite Forall_forall in Hknown.
      assert (Hk : Invariant.fileKnown (Storage.currentFileId st) a).
      { apply Hknown. change a with (snd (k, a)). now apply in_map. }
      unfold Invariant.fileKnown, Storage.ofFile in *.
      destruct (Account.fileId a) as [f |]; [| reflexivity].
      apply negb_true_iff. apply Z.eqb_neq. lia.
  - unfold Storage.deleteFile. cbn [Storage.files Storage.withAccounts Storage.withFiles].
    rewrite Hfiles. unfold JsMap.delete. rewrite filter_app. cbn [filter fst].
    rewrite Z.eqb_refl. cbn [negb]. rewrite app_nil_r. apply filter_all.
    apply Forall_forall. intros [k f] Hin. cbn.
    assert (Hb : (0 < k < Storage.currentFileId st)%Z).
    { eapply Keyed_bound; [apply (Invariant.wf_files Hwf) |].
      change k with (fst (k, f)). now apply in_map. }
    apply negb_true_iff. apply Z.eqb_neq. lia.
  - exact Hjobs.
  - unfold Storage.deleteFile, Engine.uploadOne. rewrite Htxt. cbn [negb Storage.createFile].
    rewrite createAccountsBatch_numbered
      by (apply (Invariant.wf_accounts Hwf) || exact Ha).
    cbn. now rewrite length_map.
Qed.

(** A second file uploaded after a first, and deleted. *)
Lemma upload_then_delete_witness :
  Storage.accounts
    (Storage.deleteFile 2 (Engine.uploadOne 5 (Engine.uploadOne 1 Storage.empty Scenario.fileA)
                                            Sample.fileTwo))
  = Storage.accounts (Engine.uploadOne 1 Storage.empty Scenario.fileA).
Proof.
  apply (proj1 (@upload_then_delete 5 (Engine.uploadOne 1 Storage.empty Scenario.fileA)
                  Sample.fileTwo
                  (proj1 (good_uploadOne 1 Scenario.fileA good_empty))
                  ltac:(vm_compute; reflexivity))).
Defined.

Section DeleteFacts.

Variable V : Type.

Lemma get_delete_same (m : JsMap.t V) (k : Z) : JsMap.get (JsMap.delete m k) k = None.
Proof.
  unfold JsMap.delete. induction m as [| [k' v] m IH]; [reflexivity |].
  cbn [filter fst]. destruct (k' =? k)%Z eqn:E; cbn [negb]; [exact IH |].
  cbn [JsMap.get]. now rewrite E.
Qed.

Lemma get_delete_other (m : JsMap.t V) (k other : Z) :
  other <> k -> JsMap.get (JsMap.delete m k) other = JsMap.get m other.
Proof.
  intros Hne. unfold JsMap.delete. induction m as [| [k' v] m IH]; [reflexivity |].
  cbn [filter fst JsMap.get]. destruct (k' =? k)%Z eqn:E; cbn [negb JsMap.get].
  - apply Z.eqb_eq in E. subst k'.
    destruct (k =? other)%Z eqn:E'; [apply Z.eqb_eq in E'; congruence | exact IH].
  - destruct (k' =? other)%Z; [reflexivity | exact IH].
Qed.

End DeleteFacts.

(** The deletion of a file from a well-formed store removes the file
    and exactly the accounts bound to it, the others staying in their
    order; a file that is not stored leaves the files as they are;
    jobs, log and counters are never touched. *)
Theorem deleteFile_cascade (id : Z) (st : Storage.MemStorage) :
  Invariant.WellFormed st ->
  let st' := Storage.deleteFile id st in
  Storage.getAllAccounts st'
  = filter (fun a => negb (Storage.ofFile id a)) (Storage.getAllAccounts st)
  /\ JsMap.get (Storage.files st') id = None
  /\ (forall other, other <> id ->
                    JsMap.get (Storage.files st') other = JsMap.get (Storage.files st) other)
  /\ (JsMap.get (Storage.files st) id = None -> Storage.files st' = Storage.files st)
  /\ Storage.jobs st' = Storage.jobs st
  /\ Storage.logs st' = Storage.logs st
  /\ Storage.currentAccountId st' = Storage.currentAccountId st
  /\ Storage.currentFileId st' = Storage.currentFileId st.
Proof.
  intros Hwf. cbv zeta.
  split; [| split; [| split; [| split]]]; try (repeat split; fail).
  - unfold Storage.getAllAccounts.
    rewrite (@deleteFile_accounts _ _ (proj1 (Invariant.wf_accounts Hwf))).
    apply (values_filter_snd (fun a => negb (Storage.ofFile id a))).
  - apply get_delete_same.
  - intros other Hne. now apply get_delete_other.
  - intros Hnone. cbn. unfold JsMap.delete. apply filter_all.
    apply Forall_forall. intros [k f] Hin. cbn.
    apply negb_true_iff. apply Z.eqb_neq. intros ->.
    rewrite (@entry_get _ _ _ _ (proj1 (Invariant.wf_files Hwf)) Hin) in Hnone.
    discriminate.
Qed.

(** The first of two files is deleted. *)
Lemma deleteFile_cascade_witness :
  map Account.email
      (Storage.getAllAccounts
         (Storage.deleteFile 1
            (Engine.uploadOne 5 (Engine.uploadOne 1 Storage.empty Sample.fileTwo)
                              Scenario.fileA)))
  = [lit "user@store.com"].
Proof.
  rewrite (proj1 (@deleteFile_cascade 1
                    (Engine.uploadOne 5 (Engine.uploadOne 1 Storage.empty Sample.fileTwo)
                                      Scenario.fileA)
                    (proj1 (good_uploadOne 5 Scenario.fileA
                              (good_uploadOne 1 Sample.fileTwo good_empty))))).
  vm_compute. reflexivity.
Defined.

(** [getCurrentJob] answers with no job exactly when none was ever
    created; it answers with the first job, in the order of creation,
    that is [running] or [paused], whenever there is one, and only
    otherwise with the last job created. *)
Theorem current_job_prefers_active (st : Storage.MemStorage) :
  let all := JsMap.values (Storage.jobs st) in
  (Storage.getCurrentJob st = None <-> all = [])
  /\ (forall job, Storage.getCurrentJob st = Some job ->
        In job all
        /\ (Storage.isActive job = true ->
            exists before after,
              all = before ++ job :: after
              /\ Forall (fun j => Storage.isActive j = false) before)
        /\ (Storage.isActive job = false ->
            Forall (fun j => Storage.isActive j = false) all
            /\ exists before, all = before ++ [job])).
Proof.
  cbv zeta. unfold Storage.getCurrentJob.
  set (all := JsMap.values (Storage.jobs st)). clearbody all.
  assert (Hfind : forall l job, find Storage.isActive l = Some job ->
                    exists before after,
                      l = before ++ job :: after
                      /\ Forall (fun j => Storage.isActive j = false) before).
  { induction l as [| x l IH]; cbn [find]; [discriminate |].
    destruct (Storage.isActive x) eqn:Hx.
    - intros job [= <-]. exists [], l. now split.
    - intros job Hj. destruct (IH _ Hj) as (before & after & -> & Hb).
      exists (x :: before), after. split; [reflexivity | now constructor]. }
  assert (Hnone : forall l, find Storage.isActive l = None ->
                            Forall (fun j => Storage.isActive j = false) l).
  { induction l as [| x l IH]; cbn [find]; [constructor |].
    destruct (Storage.isActive x) eqn:Hx; [discriminate |]. intros H. constructor; auto. }
  assert (Hlast : forall (l : list Job.t) job,
             nth_error l (length l - 1) = Some job -> exists before, l = before ++ [job]).
  { intros l job. destruct l as [| x l]; [discriminate |].
    assert (Hne : x :: l <> []) by discriminate.
    destruct (exists_last Hne) as (before & y & ->).
    rewrite length_app. cbn [length].
    replace (length before + 1 - 1) with (length before) by lia.
    rewrite nth_error_app2 by lia. rewrite Nat.sub_diag. cbn.
    intros [= ->]. now exists before. }
  split.
  - destruct (find Storage.isActive all) as [found |] eqn:Hf.
    + split; [discriminate |]. intros ->. discriminate.
    + split; [| now intros ->].
      intros Hn. destruct all as [| x all]; [reflexivity |].
      apply nth_error_None in Hn. cbn [length] in Hn. lia.
  - intros job. destruct (find Storage.isActive all) as [found |] eqn:Hf.
    + intros [= <-]. pose proof (find_some _ _ Hf) as [Hin Hact].
      split; [exact Hin |]. split; [intros _; now apply Hfind | congruence].
    + intros Hn. pose proof (Hnone _ Hf) as Hall.
      assert (Hin : In job all) by (eapply nth_error_In; eauto).
      split; [exact Hin |]. split.
      * intros Hact. rewrite Forall_forall in Hall. rewrite (Hall _ Hin) in Hact.
        discriminate.
      * intros _. split; [exact Hall | now apply Hlast].
Qed.

(** A stopped job followed by a completed one: the last is current. *)
Example current_job_is_last :
  option_map Job.id
    (Storage.getCurrentJob
       (Engine.storage
          (Scenario.after (Scenario.stopThenSettle
                           ++ [Engine.UploadFiles 5 [Scenario.fileB];
                               Engine.Start 6 Scenario.defaults;
                               Engine.Settle 7 Scenario.down 2]))))
  = Some 2%Z.
Proof. vm_compute. reflexivity. Qed.

